(** * WhisperLive client: segment recording and trigger detection

    A shallow embedding of [utils/run_client.py]: the deduplicating
    [TranscriptionLogger], the trigger detector [trigger_word_callback] and
    the router [combined_callback], followed by the properties the
    specification states about them; then the typing client of
    [utils/run_input.py], the typing service of [utils/windows_sidecar.py]
    and the VAD parameters of the command line, with what the code shows
    about them.

    Conventions of the embedding.
    - A text is a sequence of Unicode code points.  [str.strip] and
      [str.split] know the white space of Unicode; [str.lower] reads the
      lowercase mappings of the Unicode character database, which for code
      points outside ASCII is a parameter of the development.
    - Wall-clock instants ([datetime.datetime.now()], [time.time()]) are
      integers counting microseconds, the resolution of [datetime]; a
      [timedelta] is a difference of such integers.  The clock is sampled once
      per delivery.  A duration given in seconds on the command line
      ([--text_stability_delay]) is kept in microseconds, so that
      [total_seconds() >= delay] is [delay_us <= difference_us].
    - Timing fields of a segment are JSON scalars; finite numbers are exact
      rationals and the rounding of float arithmetic is not modelled
      ([round(x, 3)] is).
    - A file is the sequence of the complete records it holds (for the JSON
      log, the document it holds, if any).  A write can raise before the file
      is touched, while the record is being written, or after the record is in
      the file ([fsync], [close], [chmod]).  How the writes to each file and
      to the console end during one delivery is given by the environment of
      that delivery. *)

From Stdlib Require Import ZArith NArith QArith Qround List Bool Lia Lqa.
From Stdlib Require Import Strings.Byte.
Import ListNotations.

(** ** Python strings *)

(** A [str] is a sequence of Unicode code points. *)
Definition char : Type := N.

Inductive str : Type :=
| EmptyString
| String (c : char) (s : str).

Declare Scope str_scope.
Delimit Scope str_scope with str.
Bind Scope str_scope with str.

(** The literals of this development are ASCII, and an ASCII byte is its
    code point; other code points are written as numbers. *)
Fixpoint str_of_bytes (bytes : list byte) : option str :=
  match bytes with
  | [] => Some EmptyString
  | b :: rest =>
      if (Byte.to_N b <? 128)%N
      then option_map (String (Byte.to_N b)) (str_of_bytes rest)
      else None
  end.

Fixpoint bytes_of_str (s : str) : option (list byte) :=
  match s with
  | EmptyString => Some []
  | String c s' =>
      match Byte.of_N c, bytes_of_str s' with
      | Some b, Some rest => if (c <? 128)%N then Some (b :: rest) else None
      | _, _ => None
      end
  end.

String Notation str str_of_bytes bytes_of_str : str_scope.

Open Scope str_scope.
Open Scope Z_scope.

(** [ord(s[0])] *)
Definition ord (s : str) : char :=
  match s with
  | String c _ => c
  | EmptyString => 0%N
  end.

(** [s + t] *)
Fixpoint append (s t : str) : str :=
  match s with
  | EmptyString => t
  | String c s' => String c (append s' t)
  end.

Infix "++" := append (right associativity, at level 60) : str_scope.

(** [len(s)] *)
Fixpoint str_length (s : str) : nat :=
  match s with
  | EmptyString => O
  | String _ s' => S (str_length s')
  end.

(** [s == t] *)
Fixpoint str_eqb (s t : str) : bool :=
  match s, t with
  | EmptyString, EmptyString => true
  | String c s', String d t' => (c =? d)%N && str_eqb s' t'
  | _, _ => false
  end.

(** [hay.startswith(needle)] *)
Fixpoint prefix (needle hay : str) : bool :=
  match needle, hay with
  | EmptyString, _ => true
  | String _ _, EmptyString => false
  | String c needle', String d hay' => (c =? d)%N && prefix needle' hay'
  end.

(** [s[n : n + m]] *)
Fixpoint substring (n m : nat) (s : str) : str :=
  match n, m, s with
  | O, O, _ => EmptyString
  | O, S m', EmptyString => s
  | O, S m', String c s' => String c (substring O m' s')
  | S n', _, EmptyString => s
  | S n', _, String _ s' => substring n' m s'
  end.

(** [str.isspace] on one character, which is what [strip()] and [split()]
    take for white space: TAB, LF, VT, FF, CR, FS, GS, RS, US, SP, and
    outside ASCII U+0085, U+00A0, U+1680, U+2000 to U+200A, U+2028, U+2029,
    U+202F, U+205F and U+3000. *)
Definition is_space (c : char) : bool :=
  (((9 <=? c) && (c <=? 13)) || ((28 <=? c) && (c <=? 32))
   || (c =? 133) || (c =? 160) || (c =? 5760)
   || ((8192 <=? c) && (c <=? 8202))
   || (c =? 8232) || (c =? 8233) || (c =? 8239) || (c =? 8287)
   || (c =? 12288))%N.

Fixpoint char_in (c : char) (chars : str) : bool :=
  match chars with
  | EmptyString => false
  | String d chars' => (c =? d)%N || char_in c chars'
  end.

(** What [str.lower] reads in the Unicode character database for a code point
    outside ASCII: its full lowercase mapping and whether it is cased or
    case-ignorable.  The database belongs to the interpreter, not to the
    program. *)
Class Unicode : Type := {
  to_lower_full : char -> str;
  is_cased : char -> bool;
  is_case_ignorable : char -> bool
}.

Definition ascii_lower (c : char) : char :=
  if ((65 <=? c) && (c <=? 90))%N then (c + 32)%N else c.

Section Lower.

Context {ucd : Unicode}.

(** The lowercase mapping of one code point other than U+03A3. *)
Definition lower_full (c : char) : str :=
  if (c <? 128)%N then String (ascii_lower c) EmptyString
  else to_lower_full c.

Definition cased (c : char) : bool :=
  if (c <? 128)%N
  then (((65 <=? c) && (c <=? 90)) || ((97 <=? c) && (c <=? 122)))%N
  else is_cased c.

Definition case_ignorable (c : char) : bool :=
  if (c <? 128)%N then char_in c "'.:^`" else is_case_ignorable c.

(** The first character of [s] that is not case-ignorable is cased. *)
Fixpoint cased_next (s : str) : bool :=
  match s with
  | EmptyString => false
  | String c s' => if case_ignorable c then cased_next s' else cased c
  end.

(** The lowercase of a capital sigma (U+03A3): the final form U+03C2 after a
    cased letter and not before one, case-ignorable characters aside;
    otherwise U+03C3.  [before] holds the text before it, last character
    first. *)
Definition lower_sigma (before after : str) : char :=
  if cased_next before && negb (cased_next after) then 962%N else 963%N.

Fixpoint lower_from (before s : str) : str :=
  match s with
  | EmptyString => EmptyString
  | String c s' =>
      (if (c =? 931)%N then String (lower_sigma before s') EmptyString
       else lower_full c)
      ++ lower_from (String c before) s'
  end.

(** [s.lower()] *)
Definition lower (s : str) : str := lower_from EmptyString s.

End Lower.

Fixpoint lstrip_by (p : char -> bool) (s : str) : str :=
  match s with
  | EmptyString => EmptyString
  | String c s' => if p c then lstrip_by p s' else s
  end.

Fixpoint rstrip_by (p : char -> bool) (s : str) : str :=
  match s with
  | EmptyString => EmptyString
  | String c s' =>
      match rstrip_by p s' with
      | EmptyString => if p c then EmptyString else String c EmptyString
      | r => String c r
      end
  end.

(** [s.strip()] *)
Definition strip (s : str) : str :=
  rstrip_by is_space (lstrip_by is_space s).

(** [s.lstrip(chars)] *)
Definition lstrip_chars (chars s : str) : str :=
  lstrip_by (fun c => char_in c chars) s.

(** [sep.join(parts)] *)
Fixpoint join (sep : str) (parts : list str) : str :=
  match parts with
  | [] => EmptyString
  | [x] => x
  | x :: rest => x ++ sep ++ join sep rest
  end.

(** [s[n:]] for [n >= 0] *)
Fixpoint drop (n : nat) (s : str) : str :=
  match n, s with
  | O, _ => s
  | S _, EmptyString => EmptyString
  | S n', String _ s' => drop n' s'
  end.

(** [needle in hay] *)
Fixpoint contains (needle hay : str) : bool :=
  prefix needle hay ||
  match hay with
  | EmptyString => false
  | String _ hay' => contains needle hay'
  end.

(** The highest index at which [needle] starts in [hay], if any. *)
Fixpoint rfind_opt (needle hay : str) : option nat :=
  match hay with
  | EmptyString => if prefix needle EmptyString then Some O else None
  | String _ hay' =>
      match rfind_opt needle hay' with
      | Some p => Some (S p)
      | None => if prefix needle hay then Some O else None
      end
  end.

(** [hay.rfind(needle)]: that index, or [-1]. *)
Definition rfind (needle hay : str) : Z :=
  match rfind_opt needle hay with
  | Some p => Z.of_nat p
  | None => -1
  end.

(** [len(s.split())]: the number of maximal runs of non-space characters. *)
Fixpoint count_words_from (in_word : bool) (s : str) : nat :=
  match s with
  | EmptyString => O
  | String c s' =>
      if is_space c then count_words_from false s'
      else if in_word then count_words_from true s'
      else S (count_words_from true s')
  end.

Definition count_words (s : str) : nat := count_words_from false s.

(** ** JSON scalars and segments *)

Inductive pyval : Type :=
| VNone
| VBool (b : bool)
| VInt (z : Z)
| VFloat (q : Q)
| VStr (s : str).

(** The numeric value of a number ([bool] is a subtype of [int]). *)
Definition num_of (v : pyval) : option Q :=
  match v with
  | VBool b => Some (inject_Z (if b then 1 else 0))
  | VInt z => Some (inject_Z z)
  | VFloat q => Some q
  | _ => None
  end.

(** [v == w], the equality under which a [set] compares its members. *)
Definition py_eq (v w : pyval) : bool :=
  match v, w with
  | VNone, VNone => true
  | VStr s, VStr t => str_eqb s t
  | _, _ =>
      match num_of v, num_of w with
      | Some a, Some b => Qeq_bool a b
      | _, _ => false
      end
  end.

(** A segment is a [dict]; every field may be missing. *)
Record segment : Type := mkSegment {
  seg_text : option str;
  seg_start : option pyval;
  seg_end : option pyval;
  seg_completed : option bool;
  seg_no_speech_prob : option pyval
}.

Definition get {A : Type} (field : option A) (default : A) : A :=
  match field with
  | Some v => v
  | None => default
  end.

(** [s.get('text', '').strip()] *)
Definition trimmed_text (s : segment) : str := strip (get (seg_text s) "").

Definition segment_key : Type := (str * pyval * pyval)%type.

Definition key_of (s : segment) : segment_key :=
  (trimmed_text s, get (seg_start s) (VInt 0), get (seg_end s) (VInt 0)).

Definition key_eqb (k1 k2 : segment_key) : bool :=
  let '(t1, s1, e1) := k1 in
  let '(t2, s2, e2) := k2 in
  str_eqb t1 t2 && py_eq s1 s2 && py_eq e1 e2.

(** [key in logged_segments] *)
Definition key_in (k : segment_key) (logged : list segment_key) : bool :=
  existsb (key_eqb k) logged.

(** The outcome of [float(v)] inside [try ... except (ValueError, TypeError)]. *)
Inductive float_result : Type :=
| FloatOk (q : Q)
| FloatCaught
| FloatOverflow.

(** ** Exceptions, the environment of a delivery, and stateful code *)

Record exn : Type := mkExn {
  exn_type : str;   (* type(e).__name__ *)
  exn_msg : str     (* str(e) *)
}.

Inductive result (A : Type) : Type :=
| Returned (a : A)
| Raised (e : exn).

Arguments Returned {A} a.
Arguments Raised {A} e.

(** How the write of one record to a file ends. *)
Inductive write_outcome : Type :=
| Written            (* the record is in the file *)
| Refused (e : exn)  (* [open] or [makedirs] raises: the file is as it was *)
| Cut (e : exn)      (* the file was opened, writing raises: no record is
                        added, and a file opened with ['w'] has lost its
                        document *)
| Late (e : exn).    (* the record is in the file, then [fsync], [close] or
                        [chmod] raises *)

(** What the world does during one delivery: the clock, how the writes to
    each file end, whether [print] raises ([Some e]: a closed or broken
    stdout), and the answer of the Windows typing service. *)
Record env : Type := mkEnv {
  now : Z;
  json_write : write_outcome;
  text_write : write_outcome;
  trigger_write : write_outcome;
  console_write : option exn;
  wsl_typed : bool
}.

Definition written (outcome : write_outcome) : bool :=
  match outcome with
  | Written => true
  | _ => false
  end.

(** The record is in the file afterwards. *)
Definition in_file (outcome : write_outcome) : bool :=
  match outcome with
  | Written | Late _ => true
  | Refused _ | Cut _ => false
  end.

Definition console_ok (E : env) : bool :=
  match console_write E with
  | None => true
  | Some _ => false
  end.

(** Code that mutates a state [S] and returns or raises. *)
Definition M (S A : Type) : Type := S -> S * result A.

Definition ret {S A : Type} (a : A) : M S A := fun s => (s, Returned a).

Definition raise {S A : Type} (e : exn) : M S A := fun s => (s, Raised e).

Definition bind {S A B : Type} (c : M S A) (k : A -> M S B) : M S B :=
  fun s =>
    match c s with
    | (s', Returned a) => k a s'
    | (s', Raised e) => (s', Raised e)
    end.

Definition read {S : Type} : M S S := fun s => (s, Returned s).

Definition modify {S : Type} (f : S -> S) : M S unit := fun s => (f s, Returned tt).

(** [try: c  except Exception as e: h e] *)
Definition try_except {S A : Type} (c : M S A) (h : exn -> M S A) : M S A :=
  fun s =>
    match c s with
    | (s', Returned a) => (s', Returned a)
    | (s', Raised e) => h e s'
    end.

Definition when {S : Type} (b : bool) (c : M S unit) : M S unit :=
  if b then c else ret tt.

Declare Scope monad_scope.
Delimit Scope monad_scope with monad.
Notation "x <- c ;; k" := (bind c (fun x => k))
  (at level 61, c at next level, right associativity) : monad_scope.
Notation "c ;; k" := (bind c (fun _ => k))
  (at level 61, right associativity) : monad_scope.
Open Scope monad_scope.

(** Opening and writing a file of the environment: [record] puts the record
    into the file, [lost] is what a write cut short leaves of the file. *)
Definition write_file {S : Type} (outcome : write_outcome)
    (record lost : S -> S) : M S unit :=
  match outcome with
  | Written => modify record
  | Refused e => raise e
  | Cut e => modify lost ;; raise e
  | Late e => modify record ;; raise e
  end.

(** [with open(path, 'a') as f: ...] *)
Definition append_file {S : Type} (outcome : write_outcome)
    (record : S -> S) : M S unit :=
  write_file outcome record (fun s => s).

(** ** TranscriptionLogger *)

(** [self.stats]; the lists [segment_sizes], [processing_times] and
    [silence_periods] are never written and are left out. *)
Record stats : Type := mkStats {
  total_segments : nat;
  completed_segments : nat;
  incomplete_segments : nat;
  total_duration : Q;
  total_words : nat;
  trigger_words_detected : nat;
  trigger_statements_saved : nat;
  vad_triggers : nat;
  vad_silence_filters : nat;
  vad_total_events : nat;
  segment_durations : list Q
}.

Definition initial_stats : stats :=
  mkStats 0 0 0 (inject_Z 0) 0 0 0 0 0 0 [].

Record segment_info : Type := mkSegmentInfo {
  si_timestamp : Z;
  si_type : str;
  si_segment_index : nat;
  si_time_since_last : Q;
  si_data : segment;
  si_word_count : option nat;
  si_duration : option Q
}.

Definition details : Type := list (str * str).

(** An element of [self.json_segments]. *)
Inductive json_item : Type :=
| JSegment (info : segment_info)
| JVadEvent (timestamp : Z) (event : option str) (d : details).

(** A block appended to the text log. *)
Inductive text_block : Type :=
| TSegment (timestamp : Z) (number : nat) (complete : bool)
    (duration : option Q) (gap : Z) (text : option str)
    (timing : option (pyval * pyval)) (no_speech_prob : option pyval)
| TVadEvent (timestamp : Z) (event : option str) (d : details)
| TTriggerEvent (timestamp : Z) (event : str) (word statement : option str)
| TError (e : exn) (traceback : bool).

Record logger : Type := mkLogger {
  enable_json : bool;
  enable_text : bool;
  verbose : bool;
  logged_segments : list segment_key;
  lstats : stats;
  json_segments : list json_item;
  json_file : option (stats * list json_item);
  text_log : list text_block;
  last_segment_time : Z
}.

Definition new_logger (json text verb : bool) (started : Z) : logger :=
  mkLogger json text verb [] initial_stats [] None [] started.

Definition set_stats (f : stats -> stats) (l : logger) : logger :=
  mkLogger (enable_json l) (enable_text l) (verbose l) (logged_segments l)
    (f (lstats l)) (json_segments l) (json_file l) (text_log l)
    (last_segment_time l).

(** Lines 111-118: the key joins [logged_segments] and the clock reading
    becomes [last_segment_time]. *)
Definition add_key (k : segment_key) (t : Z) (l : logger) : logger :=
  mkLogger (enable_json l) (enable_text l) (verbose l) (k :: logged_segments l)
    (lstats l) (json_segments l) (json_file l) (text_log l) t.

Definition append_json (j : json_item) (l : logger) : logger :=
  mkLogger (enable_json l) (enable_text l) (verbose l) (logged_segments l)
    (lstats l) (json_segments l ++ [j]) (json_file l) (text_log l)
    (last_segment_time l).

Definition dump_json (l : logger) : logger :=
  mkLogger (enable_json l) (enable_text l) (verbose l) (logged_segments l)
    (lstats l) (json_segments l) (Some (lstats l, json_segments l)) (text_log l)
    (last_segment_time l).

(** The JSON log was opened with ['w'] and the dump did not complete. *)
Definition lose_json (l : logger) : logger :=
  mkLogger (enable_json l) (enable_text l) (verbose l) (logged_segments l)
    (lstats l) (json_segments l) None (text_log l) (last_segment_time l).

Definition append_text (b : text_block) (l : logger) : logger :=
  mkLogger (enable_json l) (enable_text l) (verbose l) (logged_segments l)
    (lstats l) (json_segments l) (json_file l) (text_log l ++ [b])
    (last_segment_time l).

Definition count_segment (completed : bool) (s : stats) : stats :=
  mkStats (S (total_segments s))
    (if completed then S (completed_segments s) else completed_segments s)
    (if completed then incomplete_segments s else S (incomplete_segments s))
    (total_duration s) (total_words s) (trigger_words_detected s)
    (trigger_statements_saved s) (vad_triggers s) (vad_silence_filters s)
    (vad_total_events s) (segment_durations s).

Definition add_words (n : nat) (s : stats) : stats :=
  mkStats (total_segments s) (completed_segments s) (incomplete_segments s)
    (total_duration s) (total_words s + n) (trigger_words_detected s)
    (trigger_statements_saved s) (vad_triggers s) (vad_silence_filters s)
    (vad_total_events s) (segment_durations s).

(** [max(a, b)] keeps [a] unless [b > a]. *)
Definition py_max (a b : Q) : Q := if Qle_bool b a then a else b.

Definition add_duration (duration end_time : Q) (s : stats) : stats :=
  mkStats (total_segments s) (completed_segments s) (incomplete_segments s)
    (py_max (total_duration s) end_time) (total_words s)
    (trigger_words_detected s) (trigger_statements_saved s) (vad_triggers s)
    (vad_silence_filters s) (vad_total_events s)
    (segment_durations s ++ [duration]).

Definition count_vad (silence_filter : bool) (s : stats) : stats :=
  mkStats (total_segments s) (completed_segments s) (incomplete_segments s)
    (total_duration s) (total_words s) (trigger_words_detected s)
    (trigger_statements_saved s) (vad_triggers s)
    (if silence_filter then S (vad_silence_filters s) else vad_silence_filters s)
    (S (vad_total_events s)) (segment_durations s).

Definition count_trigger (event_type : str) (s : stats) : stats :=
  mkStats (total_segments s) (completed_segments s) (incomplete_segments s)
    (total_duration s) (total_words s)
    (if str_eqb event_type "trigger_detected"
     then S (trigger_words_detected s) else trigger_words_detected s)
    (if str_eqb event_type "trigger_detected" then trigger_statements_saved s
     else if str_eqb event_type "statement_saved"
     then S (trigger_statements_saved s) else trigger_statements_saved s)
    (vad_triggers s) (vad_silence_filters s) (vad_total_events s)
    (segment_durations s).

Definition with_word_count (n : nat) (i : segment_info) : segment_info :=
  mkSegmentInfo (si_timestamp i) (si_type i) (si_segment_index i)
    (si_time_since_last i) (si_data i) (Some n) (si_duration i).

Definition with_duration (d : Q) (i : segment_info) : segment_info :=
  mkSegmentInfo (si_timestamp i) (si_type i) (si_segment_index i)
    (si_time_since_last i) (si_data i) (si_word_count i) (Some d).

(** The integer nearest to [q], the even one at a tie. *)
Definition round_half_even (q : Q) : Z :=
  let below := Qfloor q in
  match Qcompare (q - inject_Z below) (1 # 2) with
  | Lt => below
  | Gt => below + 1
  | Eq => if Z.even below then below else below + 1
  end.

(** [round(x, 3)] *)
Definition round3 (x : Q) : Q := round_half_even (x * 1000) # 1000.

(** A [timedelta] or a difference of clock readings, in seconds. *)
Definition in_seconds (microseconds : Z) : Q := microseconds # 1000000.

(** The largest magnitude below which [float(int)] does not overflow. *)
Definition float_int_limit : Z := 2 ^ 1024 - 2 ^ 970.

Section Logger.

(** [float(s)] on a [str]: the number the text denotes, or [None] where
    Python raises [ValueError]. *)
Variable float_of_str : str -> option Q.

Definition to_float (v : pyval) : float_result :=
  match v with
  | VNone => FloatCaught                       (* TypeError *)
  | VBool b => FloatOk (inject_Z (if b then 1 else 0))
  | VInt z => if Z.abs z <? float_int_limit then FloatOk (inject_Z z)
              else FloatOverflow                (* OverflowError *)
  | VFloat q => FloatOk q
  | VStr s => match float_of_str s with
              | Some q => FloatOk q
              | None => FloatCaught             (* ValueError *)
              end
  end.

Definition overflow_error : exn :=
  mkExn "OverflowError" "int too large to convert to float".

(** Lines 141-151: the duration of a segment that has both timing fields. *)
Definition record_timing (seg : segment) (info : segment_info)
  : M logger segment_info :=
  match seg_start seg, seg_end seg with
  | Some s, Some e =>
      match to_float s with
      | FloatOverflow => raise overflow_error
      | FloatCaught => ret info
      | FloatOk start_time =>
          match to_float e with
          | FloatOverflow => raise overflow_error
          | FloatCaught => ret info
          | FloatOk end_time =>
              let duration := Qminus end_time start_time in
              modify (set_stats (add_duration duration end_time)) ;;
              ret (with_duration (round3 duration) info)
          end
      end
  | _, _ => ret info
  end.

Definition segment_block (E : env) (l : logger) (seg : segment)
    (info : segment_info) (gap : Z) : text_block :=
  TSegment (now E) (total_segments (lstats l))
    (get (seg_completed seg) false) (si_duration info) gap (seg_text seg)
    (match seg_start seg, seg_end seg with
     | Some s, Some e => Some (s, e)
     | _, _ => None
     end)
    (if verbose l then seg_no_speech_prob seg else None).

(** [TranscriptionLogger.log_segment]; [None] is the bare [return] of a
    segment that was logged before. *)
Definition log_segment (E : env) (seg : segment)
  : M logger (option segment_info) :=
  l <- read ;;
  let segment_key := key_of seg in
  if key_in segment_key (logged_segments l) then ret None
  else
    let time_since_last := now E - last_segment_time l in
    modify (add_key segment_key (now E)) ;;
    let info := mkSegmentInfo (now E) "transcription"
                  (total_segments (lstats l))
                  (round3 (in_seconds time_since_last)) seg None None in
    modify (set_stats (count_segment (get (seg_completed seg) false))) ;;
    info <- match seg_text seg with
            | Some text =>
                let word_count := count_words text in
                modify (set_stats (add_words word_count)) ;;
                ret (with_word_count word_count info)
            | None => ret info
            end ;;
    info <- record_timing seg info ;;
    when (enable_json l)
      (modify (append_json (JSegment info)) ;;
       write_file (json_write E) dump_json lose_json) ;;
    when (enable_text l)
      (l' <- read ;;
       append_file (text_write E)
         (append_text (segment_block E l' seg info time_since_last))) ;;
    ret (Some info).

(** [TranscriptionLogger.log_vad_event] *)
Definition log_vad_event (E : env) (event_type : option str) (d : details)
  : M logger unit :=
  l <- read ;;
  modify (set_stats (count_vad
    (match event_type with
     | Some t => str_eqb t "vad_filter"
     | None => false
     end))) ;;
  when (enable_json l) (modify (append_json (JVadEvent (now E) event_type d))) ;;
  when (enable_text l && verbose l)
    (append_file (text_write E) (append_text (TVadEvent (now E) event_type d))).

(** [TranscriptionLogger.log_trigger_event] *)
Definition log_trigger_event (E : env) (event_type : str)
    (trigger_word statement : option str) : M logger unit :=
  l <- read ;;
  modify (set_stats (count_trigger event_type)) ;;
  when (enable_text l && verbose l)
    (append_file (text_write E)
       (append_text (TTriggerEvent (now E) event_type trigger_word statement))).

End Logger.

(** ** The session: command line, trigger state, sinks *)

Record args : Type := mkArgs {
  trigger_words : list str;       (* [None] and [[]] are both falsy *)
  text_stability_delay : Z;
  wsl_auto_type : bool;
  wsl_typing_available : bool;       (* WSL_TYPING_AVAILABLE *)
  disable_logging : bool;
  disable_json_log : bool;
  disable_text_log : bool;
  log_verbose : bool
}.

(** The dictionary [trigger_state]. *)
Record trigger_state : Type := mkTrigger {
  waiting : bool;
  trigger_word : option str;
  trigger_position : Z;
  trigger_segment_index : Z;
  start_time : option Z;
  last_change_time : option Z;
  stability_delay : Z;
  last_saved_text : str;
  cooldown_until : option Z;
  last_processed_segment_count : nat;
  waiting_segment_count : nat;
  collection_timeout : Z;
  max_collection_time : option Z
}.

Definition seconds (n : Z) : Z := n * 1000000.

Definition initial_trigger_state (a : args) : trigger_state :=
  mkTrigger false None (-1) (-1) None None (text_stability_delay a) ""
    None 0 0 (seconds 5) None.

(** One statement appended to the trigger output file. *)
Record trigger_entry : Type := mkEntry {
  entry_time : Z;
  entry_word : str;
  entry_statement : str
}.

(** A line printed to the terminal. *)
Inductive console_line : Type :=
| PDetected (word : str)
| PSaved (statement : str)
| PAutoTyping
| PTyped (success : bool)
| PWslUnavailable
| PWslError (e : exn)
| PWriteFailed (e : exn)
| PCritical (e : exn).

Record session : Type := mkSession {
  transcription_logger : option logger;
  trigger : trigger_state;
  trigger_output : list trigger_entry;
  console : list console_line
}.

Definition initial_session (a : args) (started : Z) : session :=
  mkSession
    (if disable_logging a then None
     else Some (new_logger (negb (disable_json_log a))
                  (negb (disable_text_log a)) (log_verbose a) started))
    (initial_trigger_state a) [] [].

Definition on_trigger (f : trigger_state -> trigger_state) (s : session) : session :=
  mkSession (transcription_logger s) (f (trigger s)) (trigger_output s) (console s).

Definition set_logger (l : logger) (s : session) : session :=
  mkSession (Some l) (trigger s) (trigger_output s) (console s).

Definition append_output (e : trigger_entry) (s : session) : session :=
  mkSession (transcription_logger s) (trigger s) (trigger_output s ++ [e]) (console s).

(** [print(...)]: raises when stdout is closed or broken. *)
Definition print (E : env) (p : console_line) : M session unit :=
  match console_write E with
  | Some e => raise e
  | None =>
      modify (fun s => mkSession (transcription_logger s) (trigger s)
                         (trigger_output s) (console s ++ [p]))
  end.

(** [if transcription_logger: transcription_logger.method(...)] *)
Definition if_logger (c : M logger unit) : M session unit :=
  fun s =>
    match transcription_logger s with
    | Some l => let (l', r) := c l in (set_logger l' s, r)
    | None => (s, Returned tt)
    end.

(** Lines 608-613: a trigger window opens. *)
Definition open_window (word : str) (actual_index : nat)
    (current_time : Z) (current_segment_count : nat) (t : trigger_state)
  : trigger_state :=
  mkTrigger true (Some word) (trigger_position t) (Z.of_nat actual_index)
    (Some current_time) (Some current_time) (stability_delay t)
    (last_saved_text t) (cooldown_until t) (last_processed_segment_count t)
    current_segment_count (collection_timeout t) (max_collection_time t).

Definition set_max_collection_time (deadline : Z) (t : trigger_state)
  : trigger_state :=
  mkTrigger (waiting t) (trigger_word t) (trigger_position t)
    (trigger_segment_index t) (start_time t) (last_change_time t)
    (stability_delay t) (last_saved_text t) (cooldown_until t)
    (last_processed_segment_count t) (waiting_segment_count t)
    (collection_timeout t) (Some deadline).

(** Lines 506-507: new segments arrived. *)
Definition note_change (current_time : Z) (current_segment_count : nat)
    (t : trigger_state) : trigger_state :=
  mkTrigger (waiting t) (trigger_word t) (trigger_position t)
    (trigger_segment_index t) (start_time t) (Some current_time)
    (stability_delay t) (last_saved_text t) (cooldown_until t)
    (last_processed_segment_count t) current_segment_count
    (collection_timeout t) (max_collection_time t).

(** Lines 578-579: a statement was saved. *)
Definition mark_saved (statement : str) (until : Z) (t : trigger_state)
  : trigger_state :=
  mkTrigger (waiting t) (trigger_word t) (trigger_position t)
    (trigger_segment_index t) (start_time t) (last_change_time t)
    (stability_delay t) statement (Some until)
    (last_processed_segment_count t) (waiting_segment_count t)
    (collection_timeout t) (max_collection_time t).

(** Lines 584-591: back to idle, everything seen so far is consumed. *)
Definition reset (current_segment_count : nat) (t : trigger_state)
  : trigger_state :=
  mkTrigger false None (-1) (-1) None None (stability_delay t)
    (last_saved_text t) (cooldown_until t) current_segment_count
    (waiting_segment_count t) (collection_timeout t) None.

(** Line 492 *)
Definition in_cooldown (t : trigger_state) (current_time : Z) : bool :=
  match cooldown_until t with
  | Some until => current_time <? until
  | None => false
  end.

(** ** Statement extraction (lines 522-535) *)

Definition all_text_of (segments : list segment) : str :=
  join " " (map trimmed_text segments).

Section Detection.

Context {ucd : Unicode}.

Definition post_trigger_text (word : str) (trigger_index : Z)
    (segments : list segment) : str :=
  let all_text := all_text_of segments in
  let trigger_word := lower word in
  let trigger_pos := rfind trigger_word (lower all_text) in
  if 0 <=? trigger_pos then
    lstrip_chars " ,.!?"
      (strip (drop (Z.to_nat trigger_pos + str_length trigger_word) all_text))
  else
    join " " (map trimmed_text (skipn (Z.to_nat (trigger_index + 1)) segments)).

(** Lines 538-540 *)
Definition worth_saving (post_trigger_text last_saved : str) : bool :=
  let statement := strip post_trigger_text in
  negb (str_eqb statement "")
  && negb (existsb (str_eqb statement) ["."; ","; ""])
  && negb (str_eqb statement last_saved).

(** ** Trigger scan (lines 595-620) *)

Fixpoint first_word_in (words : list str) (segment_text : str)
  : option str :=
  match words with
  | [] => None
  | w :: rest =>
      if contains (lower w) (lower segment_text) then Some w
      else first_word_in rest segment_text
  end.

(** The loop over [enumerate(new_segments)]; [actual_index] is the absolute
    index of the head of [new_segments]. *)
Fixpoint scan_segments (words : list str) (actual_index : nat)
    (new_segments : list segment) : option (nat * str) :=
  match new_segments with
  | [] => None
  | seg :: rest =>
      let segment_text := trimmed_text seg in
      if str_eqb segment_text "" then scan_segments words (S actual_index) rest
      else
        match first_word_in words segment_text with
        | Some w => Some (actual_index, w)
        | None => scan_segments words (S actual_index) rest
        end
  end.

End Detection.

(** ** trigger_word_callback and combined_callback *)

Definition attribute_error : exn :=
  mkExn "AttributeError" "'NoneType' object has no attribute 'lower'".

Definition type_error : exn :=
  mkExn "TypeError" "'NoneType' object is not iterable".

Record vad_event : Type := mkVad {
  vad_type : option str;
  vad_details : option details
}.

Fixpoint for_each {S A : Type} (items : list A) (body : A -> M S unit)
  : M S unit :=
  match items with
  | [] => ret tt
  | x :: rest => body x ;; for_each rest body
  end.

Section Callbacks.

Context {ucd : Unicode}.
Variable float_of_str : str -> option Q.
Variable a : args.

(** Lines 542-581: the guarded write of one statement. *)
Definition save_statement (E : env) (word : str) (statement : str)
  : M session unit :=
  try_except
    (append_file (trigger_write E)
       (append_output (mkEntry (now E) word statement)) ;;
     print E (PSaved statement) ;;
     (if wsl_auto_type a && wsl_typing_available a
      then try_except
             (print E PAutoTyping ;; print E (PTyped (wsl_typed E)))
             (fun e => print E (PWslError e))
      else when (wsl_auto_type a) (print E PWslUnavailable)) ;;
     if_logger (log_trigger_event E "statement_saved" (Some word) (Some statement)) ;;
     modify (on_trigger (mark_saved statement (now E + seconds 2))))
    (fun e => print E (PWriteFailed e)).

(** Lines 518-591 *)
Definition finalize (E : env) (segments : list segment) : M session unit :=
  s <- read ;;
  let t := trigger s in
  when (0 <=? trigger_segment_index t)
    (match trigger_word t with
     | None => raise attribute_error
     | Some word =>
         let post := post_trigger_text word (trigger_segment_index t) segments in
         when (worth_saving post (last_saved_text t))
           (save_statement E word (strip post))
     end) ;;
  modify (on_trigger (reset (List.length segments))).

Definition elapsed (current_time : Z) (since : option Z) : Z :=
  match since with
  | Some t => current_time - t
  | None => 0
  end.

(** Lines 509-516, on the state after lines 498-507. *)
Definition should_finalize (current_time deadline : Z) (t : trigger_state)
  : bool :=
  let collection_timeout_reached := deadline <=? current_time in
  let time_since_change := elapsed current_time (last_change_time t) in
  let stability_reached := stability_delay t <=? time_since_change in
  let time_since_trigger := elapsed current_time (start_time t) in
  let minimum_collection_time := seconds 2 in
  collection_timeout_reached
  || (stability_reached && (minimum_collection_time <=? time_since_trigger)).

(** Lines 496-591 *)
Definition waiting_branch (E : env) (segments : list segment) : M session unit :=
  let current_time := now E in
  let current_segment_count := List.length segments in
  s <- read ;;
  let deadline := match max_collection_time (trigger s) with
                  | None => current_time + collection_timeout (trigger s)
                  | Some d => d
                  end in
  modify (on_trigger (set_max_collection_time deadline)) ;;
  let segments_changed :=
    (waiting_segment_count (trigger s) <? current_segment_count)%nat in
  when segments_changed
    (modify (on_trigger (note_change current_time current_segment_count))) ;;
  s <- read ;;
  when (should_finalize current_time deadline (trigger s)) (finalize E segments).

(** Lines 593-620 *)
Definition idle_branch (E : env) (segments : list segment) : M session unit :=
  s <- read ;;
  let processed := last_processed_segment_count (trigger s) in
  let new_segments := skipn processed segments in
  match scan_segments (trigger_words a) processed new_segments with
  | None => ret tt
  | Some (actual_index, word) =>
      modify (on_trigger
        (open_window word actual_index (now E) (List.length segments))) ;;
      if_logger (log_trigger_event E "trigger_detected" (Some word) None) ;;
      print E (PDetected word)
  end.

Definition is_empty {A : Type} (l : list A) : bool :=
  match l with
  | [] => true
  | _ => false
  end.

(** [trigger_word_callback(text, segments)]; [segments] may be [None]. *)
Definition trigger_word_callback (E : env) (text : str)
    (segments : option (list segment)) : M session unit :=
  match segments with
  | None => ret tt
  | Some segs =>
      if is_empty (trigger_words a) || is_empty segs then ret tt
      else
        s <- read ;;
        if in_cooldown (trigger s) (now E) then ret tt
        else if waiting (trigger s) then waiting_branch E segs
        else idle_branch E segs
  end.

(** Lines 656-672: the body of the [try]. *)
Definition dispatch (E : env) (text : str)
    (segments : option (list segment)) (vad : option vad_event)
  : M session unit :=
  s <- read ;;
  match vad, transcription_logger s with
  | Some v, Some _ =>
      if_logger (log_vad_event E (vad_type v) (get (vad_details v) []))
  | _, _ =>
      match transcription_logger s with
      | Some _ =>
          match segments with
          | None => raise type_error
          | Some segs =>
              for_each segs (fun seg =>
                when (get (seg_completed seg) false)
                  (if_logger (log_segment float_of_str E seg ;; ret tt)))
          end
      | None => ret tt
      end ;;
      when (negb (is_empty (trigger_words a)))
        (trigger_word_callback E text segments)
  end.

(** Lines 673-685: the [except Exception] handler. *)
Definition on_error (E : env) (e : exn) : M session unit :=
  s <- read ;;
  match transcription_logger s with
  | Some l =>
      when (enable_text l)
        (if_logger (append_file (text_write E) (append_text (TError e (verbose l)))))
  | None => ret tt
  end ;;
  when (contains "critical" (lower (exn_msg e))) (print E (PCritical e)).

(** [combined_callback(text, segments, vad_event=None)] *)
Definition combined_callback (E : env) (text : str)
    (segments : option (list segment)) (vad : option vad_event)
  : M session unit :=
  try_except (dispatch E text segments vad) (on_error E).

(** One delivery of the transcript source. *)
Record delivery : Type := mkDelivery {
  d_env : env;
  d_text : str;
  d_segments : option (list segment);
  d_vad : option vad_event
}.

Definition deliver (d : delivery) (s : session) : session :=
  fst (combined_callback (d_env d) (d_text d) (d_segments d) (d_vad d) s).

(** The sessions a run can be in. *)
Inductive reachable : session -> Prop :=
| reach_start : forall started, reachable (initial_session a started)
| reach_deliver : forall s d, reachable s -> reachable (deliver d s).

End Callbacks.

(** ** Sequences of logger calls *)

Inductive logger_call : Type :=
| CallSegment (E : env) (seg : segment)
| CallVadEvent (E : env) (event_type : option str) (d : details)
| CallTriggerEvent (E : env) (event_type : str)
    (trigger_word statement : option str).

Definition run_call (float_of_str : str -> option Q) (c : logger_call)
    (l : logger) : logger :=
  match c with
  | CallSegment E seg => fst (log_segment float_of_str E seg l)
  | CallVadEvent E t d => fst (log_vad_event E t d l)
  | CallTriggerEvent E t w st => fst (log_trigger_event E t w st l)
  end.

Definition run_calls (float_of_str : str -> option Q)
    (cs : list logger_call) (l : logger) : logger :=
  fold_left (fun l c => run_call float_of_str c l) cs l.

(** Every counter of [s1] is at most its value in [s2]. *)
Definition stats_le (s1 s2 : stats) : Prop :=
  (total_segments s1 <= total_segments s2)%nat
  /\ (completed_segments s1 <= completed_segments s2)%nat
  /\ (incomplete_segments s1 <= incomplete_segments s2)%nat
  /\ (total_duration s1 <= total_duration s2)%Q
  /\ (total_words s1 <= total_words s2)%nat
  /\ (trigger_words_detected s1 <= trigger_words_detected s2)%nat
  /\ (trigger_statements_saved s1 <= trigger_statements_saved s2)%nat
  /\ (vad_triggers s1 <= vad_triggers s2)%nat
  /\ (vad_silence_filters s1 <= vad_silence_filters s2)%nat
  /\ (vad_total_events s1 <= vad_total_events s2)%nat
  /\ (List.length (segment_durations s1) <= List.length (segment_durations s2))%nat.

Definition balanced (s : stats) : Prop :=
  (completed_segments s + incomplete_segments s = total_segments s)%nat.

(** ** Occurrences of a word in a text *)

(** [needle] occurs in [hay] at index [p]: [hay[p : p + len(needle)] == needle]. *)
Definition occurs_at (needle hay : str) (p : nat) : Prop :=
  (p <= str_length hay)%nat
  /\ substring p (str_length needle) hay = needle.

Definition last_occurrence (needle hay : str) (p : nat) : Prop :=
  occurs_at needle hay p
  /\ forall q, occurs_at needle hay q -> (q <= p)%nat.

(** ** Trimming, and text whose lowercase keeps its indices *)

(** Every character of [s] satisfies [p]. *)
Fixpoint all_chars (p : char -> bool) (s : str) : bool :=
  match s with
  | EmptyString => true
  | String c s' => p c && all_chars p s'
  end.

(** [s] begins with a character that satisfies [p]. *)
Definition starts_with (p : char -> bool) (s : str) : bool :=
  match s with
  | EmptyString => false
  | String c _ => p c
  end.

(** [s] ends with a character that satisfies [p]. *)
Fixpoint ends_with (p : char -> bool) (s : str) : bool :=
  match s with
  | EmptyString => false
  | String c EmptyString => p c
  | String _ s' => ends_with p s'
  end.

(** [r] is [s] without the characters of [p] at both ends. *)
Definition trimmed_of (p : char -> bool) (s r : str) : Prop :=
  exists pre post,
    s = pre ++ r ++ post
    /\ all_chars p pre = true /\ all_chars p post = true
    /\ starts_with p r = false /\ ends_with p r = false.

(** [r] is [s] without the characters of [p] at its beginning. *)
Definition left_trimmed_of (p : char -> bool) (s r : str) : Prop :=
  exists pre,
    s = pre ++ r /\ all_chars p pre = true /\ starts_with p r = false.

(** [r] is what follows in [tail], white space trimmed at both ends and then
    the leading characters among space, comma, period, exclamation mark and
    question mark stripped. *)
Definition cleaned (tail r : str) : Prop :=
  exists core,
    trimmed_of is_space tail core
    /\ left_trimmed_of (fun c => char_in c " ,.!?") core r.

Section Plain.

Context {ucd : Unicode}.

(** The lowercase of a code point that lowers to one code point. *)
Definition lower_char (c : char) : char := ord (lower_full c).

(** A code point whose lowercase is one code point, whatever stands around
    it: not the capital sigma U+03A3, and not one that lowers to several code
    points, as U+0130 does. *)
Definition plain (c : char) : bool :=
  negb (c =? 931)%N && (str_length (lower_full c) =? 1)%nat.

Definition plain_text (s : str) : bool := all_chars plain s.

(** The lowercase of [s] taken code point by code point. *)
Fixpoint lower_chars (s : str) : str :=
  match s with
  | EmptyString => EmptyString
  | String c s' => String (lower_char c) (lower_chars s')
  end.

(** [word] stands at index [p] of [text], letter case aside. *)
Definition matches_at (word text : str) (p : nat) : Prop :=
  (p <= str_length text)%nat
  /\ lower (substring p (str_length word) text) = lower word.

(** [p] is the last index at which [word] stands in [text], letter case
    aside. *)
Definition last_match (word text : str) (p : nat) : Prop :=
  matches_at word text p
  /\ forall q, matches_at word text q -> (q <= p)%nat.

End Plain.

(** [s.isascii()] *)
Definition is_ascii (s : str) : bool := all_chars (fun c => (c <? 128)%N) s.

(** ** The waiting branch in two steps *)

(** The candidate statement of a finalization in state [t]. *)
Definition candidate {ucd : Unicode} (t : trigger_state)
    (segments : list segment) : str :=
  post_trigger_text (get (trigger_word t) "") (trigger_segment_index t) segments.

(** The trigger state after lines 498-507 of a waiting-state delivery. *)
Definition refreshed (current_time : Z) (count : nat) (t : trigger_state)
  : trigger_state :=
  let deadline := match max_collection_time t with
                  | None => current_time + collection_timeout t
                  | Some d => d
                  end in
  let t1 := set_max_collection_time deadline t in
  if (waiting_segment_count t <? count)%nat
  then note_change current_time count t1 else t1.

Definition due (current_time : Z) (count : nat) (t : trigger_state) : bool :=
  should_finalize current_time
    (match max_collection_time t with
     | None => current_time + collection_timeout t
     | Some d => d
     end)
    (refreshed current_time count t).

(** ** The trigger detector in the words of the specification *)

(** What holds of the trigger state throughout a run. *)
Definition well_formed (a : args) (t : trigger_state) : Prop :=
  (waiting t = true ->
   exists w t0 tc,
     trigger_word t = Some w /\ start_time t = Some t0
     /\ last_change_time t = Some tc /\ 0 <= trigger_segment_index t)
  /\ (waiting t = false -> max_collection_time t = None)
  /\ collection_timeout t = seconds 5
  /\ stability_delay t = text_stability_delay a.

(** A delivery that [trigger_word_callback] does not ignore: trigger words
    are configured, there are segments, and no cooldown is running. *)
Definition processed (a : args) (E : env) (segments : list segment)
    (s : session) : Prop :=
  trigger_words a <> [] /\ segments <> []
  /\ in_cooldown (trigger s) (now E) = false.


(** The collection deadline in force at a waiting-state delivery. *)
Definition deadline_at (current_time : Z) (t : trigger_state) : Z :=
  match max_collection_time t with
  | Some d => d
  | None => current_time + seconds 5
  end.

(** The last-change time in force at a waiting-state delivery of [count]
    segments. *)
Definition last_change_at (current_time : Z) (count : nat) (t : trigger_state)
  : option Z :=
  if (waiting_segment_count t <? count)%nat then Some current_time
  else last_change_time t.

(** Finalization is due: the deadline is reached, or the text has been stable
    for the stability delay and the trigger is at least 2 seconds old. *)
Definition finalization_due (current_time : Z) (count : nat)
    (t : trigger_state) : Prop :=
  deadline_at current_time t <= current_time
  \/ (stability_delay t <= elapsed current_time (last_change_at current_time count t)
      /\ seconds 2 <= elapsed current_time (start_time t)).

(** The "statement_saved" event cannot be written to the text log. *)
Definition event_log_fails (E : env) (s : session) : bool :=
  match transcription_logger s with
  | Some l => enable_text l && verbose l && negb (written (text_write E))
  | None => false
  end.

(** The guarded block of a save runs to its end: the write of the statement
    to the sink, the messages on the console and the logging of the event all
    go through. *)
Definition save_succeeds (E : env) (s : session) : bool :=
  written (trigger_write E) && console_ok E && negb (event_log_fails E s).

(** How a computation ends whose last step is a [print]. *)
Definition console_result (E : env) : result unit :=
  match console_write E with
  | None => Returned tt
  | Some e => Raised e
  end.

(** The callback went into finalization: the detector is idle again, or the
    finalization was cut short by an exception. *)
Definition finalizes (r : session * result unit) : Prop :=
  waiting (trigger (fst r)) = false \/ exists e, snd r = Raised e.

(** A finalization in state [t] tries to save a statement while the console
    cannot be written. *)
Definition cut_short {ucd : Unicode} (E : env) (t : trigger_state)
    (segments : list segment) : bool :=
  worth_saving (candidate t segments) (last_saved_text t)
  && negb (console_ok E).

(** ** The first match of a scan *)

(** [w] is in [text], letter case aside. *)
Definition substring_match {ucd : Unicode} (w : str) (seg : segment) : Prop :=
  exists p, occurs_at (lower w) (lower (trimmed_text seg)) p.

(** The same, for segments whose trimmed text is not empty. *)
Definition nonempty_match {ucd : Unicode} (w : str) (seg : segment) : Prop :=
  trimmed_text seg <> "" /\ substring_match w seg.

(** [w] is the first of [words], in configured order, to match [seg]. *)
Definition first_word (matches : str -> segment -> Prop)
    (words : list str) (seg : segment) (w : str) : Prop :=
  exists k,
    nth_error words k = Some w /\ matches w seg
    /\ forall k' w', (k' < k)%nat -> nth_error words k' = Some w' ->
                     ~ matches w' seg.

(** Segment [i], with word [w], is the first match at or after the
    watermark [processed]. *)
Definition first_match (matches : str -> segment -> Prop)
    (words : list str) (processed : nat) (segments : list segment)
    (i : nat) (w : str) : Prop :=
  (processed <= i)%nat
  /\ exists seg,
       nth_error segments i = Some seg /\ first_word matches words seg w
       /\ forall j seg' w',
            (processed <= j < i)%nat -> nth_error segments j = Some seg' ->
            In w' words -> ~ matches w' seg'.

(** No segment at or after the watermark matches any word. *)
Definition no_match (matches : str -> segment -> Prop)
    (words : list str) (processed : nat) (segments : list segment) : Prop :=
  forall j seg w,
    (processed <= j)%nat -> nth_error segments j = Some seg -> In w words ->
    ~ matches w seg.

(** The number of trigger activations counted so far. *)
Definition activations (s : session) : nat :=
  match transcription_logger s with
  | Some l => trigger_words_detected (lstats l)
  | None => O
  end.

(** A statement worth saving, in the words of the specification. *)
Definition meaningful (statement last_saved : str) : Prop :=
  statement <> "" /\ statement <> "." /\ statement <> ","
  /\ statement <> last_saved.


(** ** What the logger keeps *)

(** No two keys of [logged] are equal. *)
Fixpoint distinct_keys (logged : list segment_key) : bool :=
  match logged with
  | [] => true
  | k :: rest => negb (key_in k rest) && distinct_keys rest
  end.

(** The [segment_index] fields of the segment entries, in list order. *)
Fixpoint segment_indices (items : list json_item) : list nat :=
  match items with
  | [] => []
  | JSegment info :: rest => si_segment_index info :: segment_indices rest
  | JVadEvent _ _ _ :: rest => segment_indices rest
  end.

(** Strictly increasing and all below [bound]. *)
Fixpoint increasing_below (bound : nat) (indices : list nat) : Prop :=
  match indices with
  | [] => True
  | i :: rest =>
      (i < bound)%nat /\ (forall j, In j rest -> (i < j)%nat)
      /\ increasing_below bound rest
  end.

(** [d] is [x] rounded to three decimals: a multiple of 1/1000 nearest to
    [x], the one with the even numerator when two are as near. *)
Definition rounded3 (x d : Q) : Prop :=
  exists k : Z,
    d = (k # 1000)
    /\ (- (1 # 2) <= inject_Z k - x * 1000 <= 1 # 2)%Q
    /\ ((inject_Z k - x * 1000 == 1 # 2)%Q
        \/ (x * 1000 - inject_Z k == 1 # 2)%Q -> Z.even k = true).

(** The duration an entry shows is [end - start] of its own timing fields,
    rounded to three decimals, and the session's total duration has reached
    its end. *)
Definition duration_ok (float_of_str : str -> option Q)
    (info : segment_info) (st : stats) : Prop :=
  forall d,
    si_duration info = Some d ->
    exists vs ve start_time end_time,
      seg_start (si_data info) = Some vs /\ seg_end (si_data info) = Some ve
      /\ to_float float_of_str vs = FloatOk start_time
      /\ to_float float_of_str ve = FloatOk end_time
      /\ rounded3 (end_time - start_time) d
      /\ (end_time <= total_duration st)%Q.

(** ** What the trigger detector keeps *)

(** The number of statements counted as saved. *)
Definition savings (s : session) : nat :=
  match transcription_logger s with
  | Some l => trigger_statements_saved (lstats l)
  | None => O
  end.

Definition has_logger (s : session) : bool :=
  match transcription_logger s with
  | Some _ => true
  | None => false
  end.

(** The part of a session the trigger detector answers for. *)
Definition ledger (s : session)
  : trigger_state * list trigger_entry * nat * nat * bool :=
  (trigger s, trigger_output s, activations s, savings s, has_logger s).

(** An entry of the trigger output as the detector writes them: a trimmed
    statement that is neither empty nor a bare "." or ",", under one of the
    configured trigger words. *)
Definition entry_ok (a : args) (e : trigger_entry) : Prop :=
  entry_statement e <> "" /\ entry_statement e <> "."
  /\ entry_statement e <> ","
  /\ strip (entry_statement e) = entry_statement e
  /\ In (entry_word e) (trigger_words a).

(** An open window holds a configured word and an index between the
    watermark and the segment count it has seen. *)
Definition window_ok (a : args) (t : trigger_state) : Prop :=
  waiting t = true ->
  exists w i,
    trigger_word t = Some w /\ In w (trigger_words a)
    /\ trigger_segment_index t = Z.of_nat i
    /\ (last_processed_segment_count t <= i < waiting_segment_count t)%nat.

(** ** What the router keeps *)

(** The statistics that count segments. *)
Definition segment_counts (st : stats) : nat * nat * nat * nat * Q * list Q :=
  (total_segments st, completed_segments st, incomplete_segments st,
   total_words st, total_duration st, segment_durations st).

(** The segment records of a session: the recorded keys, the segment
    statistics, the JSON list and the JSON file; [None] without a logger. *)
Definition segment_books (s : session) :=
  option_map
    (fun l => (logged_segments l, segment_counts (lstats l),
               json_segments l, json_file l))
    (transcription_logger s).

(** The keys recorded so far. *)
Definition recorded (s : session) : list segment_key :=
  match transcription_logger s with
  | Some l => logged_segments l
  | None => []
  end.

(** A computation that leaves a view of the session as it was. *)
Definition keeps {X A : Type} (view : session -> X) (c : M session A) : Prop :=
  forall s, view (fst (c s)) = view s.

(** The loop of [dispatch] over the delivered segments. *)
Definition log_completed (float_of_str : str -> option Q) (E : env)
    (segments : list segment) : M session unit :=
  for_each segments (fun seg =>
    when (get (seg_completed seg) false)
      (if_logger (log_segment float_of_str E seg ;; ret tt))).

(** ** The Windows typing service ([utils/windows_sidecar.py]) *)

(** [s.replace(c, replacement)] for a pattern of one character. *)
Fixpoint replace_char (c : char) (replacement : str) (s : str) : str :=
  match s with
  | EmptyString => EmptyString
  | String d s' =>
      (if N.eqb d c then replacement else String d EmptyString)
      ++ replace_char c replacement s'
  end.

(** The dictionary [special_chars], in insertion order. *)
Definition special_chars : list (char * str) :=
  [(ord "+", "{+}"); (ord "^", "{^}"); (ord "%", "{%}"); (ord "~", "{~}");
   (ord "(", "{(}"); (ord ")", "{)}"); (ord "{", "{{}"); (ord "}", "{}}");
   (ord "[", "{[}"); (ord "]", "{]}")].

(** [WindowsAutomation._escape_sendkeys]: one [replace] after the other. *)
Definition _escape_sendkeys (text : str) : str :=
  fold_left (fun escaped rule => replace_char (fst rule) (snd rule) escaped)
    special_chars text.

(** What the loop of replacements makes of one character. *)
Definition sent_for (c : char) : str :=
  if char_in c "+^%~()" then "{{{}}" ++ String c "{}}"
  else if N.eqb c (ord "{") then "{{{}}"
  else if N.eqb c (ord "}") then "{}}"
  else if N.eqb c (ord "[") then "{[}"
  else if N.eqb c (ord "]") then "{]}"
  else String c EmptyString.

Fixpoint sent_for_all (text : str) : str :=
  match text with
  | EmptyString => EmptyString
  | String c rest => sent_for c ++ sent_for_all rest
  end.

Fixpoint no_special (text : str) : bool :=
  match text with
  | EmptyString => true
  | String c rest => negb (char_in c "+^%~(){}[]") && no_special rest
  end.

Unset Elimination Schemes.

(** A JSON value, as [request.get_json()] and [response.json()] give it. *)
Inductive json_value : Type :=
| JNull
| JBool (b : bool)
| JInt (z : Z)
| JFloat (q : Q)
| JStr (s : str)
| JList (items : list json_value)
| JDict (fields : list (str * json_value)).   (* keys are unique *)

Set Elimination Schemes.

(** [if v:] *)
Definition truthy (v : json_value) : bool :=
  match v with
  | JNull => false
  | JBool b => b
  | JInt z => negb (z =? 0)
  | JFloat q => negb (Qeq_bool q 0)
  | JStr s => negb (str_eqb s EmptyString)
  | JList items => negb (is_empty items)
  | JDict fields => negb (is_empty fields)
  end.

(** [type(v).__name__] *)
Definition type_name (v : json_value) : str :=
  match v with
  | JNull => "NoneType"
  | JBool _ => "bool"
  | JInt _ => "int"
  | JFloat _ => "float"
  | JStr _ => "str"
  | JList _ => "list"
  | JDict _ => "dict"
  end.

(** The body of an HTTP message as [get_json()] or [.json()] sees it: the
    call raises, or gives a JSON value. *)
Inductive json_body : Type :=
| NotJson (e : exn)
| Json (v : json_value).

(** What a request comes to: an exception of [requests], or a reply. *)
Inductive http_outcome : Type :=
| HttpRaise (e : exn)
| HttpReply (status : Z) (body : json_body).

(** [d.get(key)] *)
Fixpoint dict_get (key : str) (d : list (str * json_value))
  : option json_value :=
  match d with
  | [] => None
  | (k, v) :: rest => if str_eqb k key then Some v else dict_get key rest
  end.

(** [v == s] for a [str] [s] *)
Definition is_str (v : option json_value) (s : str) : bool :=
  match v with
  | Some (JStr t) => str_eqb t s
  | _ => false
  end.

(** The messages of the exceptions are those of CPython 3.11. *)
Definition no_attribute (v : json_value) (method : str) : exn :=
  mkExn "AttributeError"
    ("'" ++ type_name v ++ "' object has no attribute '" ++ method ++ "'").

Definition not_subscriptable (v : json_value) : exn :=
  mkExn "TypeError" ("'" ++ type_name v ++ "' object is not subscriptable").

Definition not_iterable (v : json_value) : exn :=
  mkExn "TypeError" ("argument of type '" ++ type_name v ++ "' is not iterable").

(** What running PowerShell comes to: [subprocess.run] raises (not found,
    timeout), or it ends with a return code and an error stream that is
    empty, decodable or not decodable. *)
Inductive stderr_bytes : Type :=
| NoStderr
| Stderr (text : str)
| StderrUndecodable (e : exn).

Inductive ps_outcome : Type :=
| PsRaise (e : exn)
| PsDone (returncode : Z) (stderr : stderr_bytes).

(** The server: whether PowerShell was found, and the commands run so far
    (delay and escaped text). *)
Record automation : Type := mkAutomation {
  ps_available : bool;
  ps_commands : list (json_value * str)
}.

Definition run_powershell (delay_ms : json_value) (escaped_text : str)
    (ps : ps_outcome) : M automation (Z * stderr_bytes) :=
  modify (fun w => mkAutomation (ps_available w)
                     (ps_commands w ++ [(delay_ms, escaped_text)])) ;;
  match ps with
  | PsRaise e => raise e
  | PsDone returncode stderr => ret (returncode, stderr)
  end.

(** [WindowsAutomation.type_text]; only a [str] has [replace]. *)
Definition automation_type_text (ps : ps_outcome) (text : json_value)
    (delay_ms : json_value) : M automation (bool * option str) :=
  w <- read ;;
  if negb (ps_available w) then ret (false, Some "PowerShell not available")
  else
    try_except
      (escaped_text <- match text with
                       | JStr s => ret (_escape_sendkeys s)
                       | v => raise (no_attribute v "replace")
                       end ;;
       result <- run_powershell delay_ms escaped_text ps ;;
       let success := fst result =? 0 in
       match snd result with
       | NoStderr => ret (success, None)
       | Stderr msg => ret (success, Some msg)
       | StderrUndecodable e => raise e
       end)
      (fun e => ret (false, Some (exn_msg e))).

(** The [/health] endpoint. *)
Definition health_check (timestamp : Q) : M automation http_outcome :=
  w <- read ;;
  ret (HttpReply 200
         (Json (JDict [("status", JStr "healthy");
                       ("powershell_available", JBool (ps_available w));
                       ("timestamp", JFloat timestamp)]))).

Fixpoint digits (d : Decimal.uint) : str :=
  match d with
  | Decimal.Nil => EmptyString
  | Decimal.D0 d' => String 48%N (digits d')
  | Decimal.D1 d' => String 49%N (digits d')
  | Decimal.D2 d' => String 50%N (digits d')
  | Decimal.D3 d' => String 51%N (digits d')
  | Decimal.D4 d' => String 52%N (digits d')
  | Decimal.D5 d' => String 53%N (digits d')
  | Decimal.D6 d' => String 54%N (digits d')
  | Decimal.D7 d' => String 55%N (digits d')
  | Decimal.D8 d' => String 56%N (digits d')
  | Decimal.D9 d' => String 57%N (digits d')
  end.

(** [str(n)] *)
Definition decimal (n : nat) : str := digits (Nat.to_uint n).

Definition missing_text : http_outcome :=
  HttpReply 400 (Json (JDict [("error", JStr "Missing text parameter")])).

(** [error_msg or 'Unknown error'] *)
Definition or_unknown (error_msg : option str) : str :=
  match error_msg with
  | Some m => if str_eqb m "" then "Unknown error" else m
  | None => "Unknown error"
  end.

(** ['text' in data]: a key of a [dict], a substring of a [str], an element
    of a [list]; other values are not iterable. *)
Definition has_text {S : Type} (data : json_value) : M S bool :=
  match data with
  | JDict fields => ret (match dict_get "text" fields with
                         | Some _ => true
                         | None => false
                         end)
  | JStr s => ret (contains "text" s)
  | JList items => ret (existsb (fun v => is_str (Some v) "text") items)
  | v => raise (not_iterable v)
  end.

(** [data['text']] *)
Definition text_of {S : Type} (data : json_value) : M S json_value :=
  match data with
  | JDict fields =>
      match dict_get "text" fields with
      | Some v => ret v
      | None => raise (mkExn "KeyError" "'text'")
      end
  | JStr _ =>
      raise (mkExn "TypeError" "string indices must be integers, not 'str'")
  | JList _ =>
      raise (mkExn "TypeError"
               "list indices must be integers or slices, not str")
  | v => raise (not_subscriptable v)
  end.

(** [data.get('delay_ms', 50)] *)
Definition delay_of {S : Type} (data : json_value) : M S json_value :=
  match data with
  | JDict fields => ret (get (dict_get "delay_ms" fields) (JInt 50))
  | v => raise (no_attribute v "get")
  end.

(** [text[:50]], evaluated for the log line. *)
Definition first_fifty {S : Type} (text : json_value) : M S unit :=
  match text with
  | JStr _ | JList _ => ret tt
  | JDict _ => raise (mkExn "TypeError" "unhashable type: 'slice'")
  | v => raise (not_subscriptable v)
  end.

(** [len(text)] *)
Definition len (text : json_value) : nat :=
  match text with
  | JStr s => str_length s
  | JList items => List.length items
  | JDict fields => List.length fields
  | _ => O
  end.

(** The [/type] endpoint. *)
Definition type_endpoint (ps : ps_outcome) (request : json_body)
  : M automation http_outcome :=
  try_except
    (data <- match request with
             | NotJson e => raise e
             | Json v => ret v
             end ;;
     present <- (if truthy data then has_text data else ret false) ;;
     if negb present then ret missing_text
     else
       text <- text_of data ;;
       delay_ms <- delay_of data ;;
       first_fifty text ;;
       outcome <- automation_type_text ps text delay_ms ;;
       if fst outcome then
         ret (HttpReply 200
                (Json (JDict [("status", JStr "success");
                              ("message",
                               JStr ("Typed " ++ decimal (len text)
                                     ++ " characters"));
                              ("text_length", JInt (Z.of_nat (len text)))])))
       else
         ret (HttpReply 500
                (Json (JDict [("status", JStr "error");
                              ("message", JStr (or_unknown (snd outcome)))]))))
    (fun e => ret (HttpReply 500
                     (Json (JDict [("status", JStr "error");
                                   ("message", JStr (exn_msg e))])))).

(** ** The typing client ([utils/run_input.py]) *)

Inductive typer_line : Type :=
| TCannotConnect (e : exn)
| TNotAvailable
| TSidecarError (message : json_value)
| THttpError (status : Z)
| TCommunicationError (e : exn).

(** The client: the requests sent to [/type] (text and delay) and the lines
    printed. *)
Record typer : Type := mkTyper {
  typer_requests : list (str * Z);
  typer_console : list typer_line
}.

(** [print(...)]; [stdout] says whether it raises. *)
Definition typer_print (stdout : option exn) (p : typer_line)
  : M typer unit :=
  match stdout with
  | Some e => raise e
  | None => modify (fun w => mkTyper (typer_requests w) (typer_console w ++ [p]))
  end.

(** [response.json()] followed by a [.get] on the result. *)
Definition json_object {S : Type} (body : json_body)
  : M S (list (str * json_value)) :=
  match body with
  | NotJson e => raise e
  | Json (JDict fields) => ret fields
  | Json v => raise (no_attribute v "get")
  end.

(** [WindowsAutomationClient._check_sidecar_availability]; the result is
    only ever tested for truth. *)
Definition _check_sidecar_availability (stdout : option exn)
    (health : http_outcome) : M typer bool :=
  try_except
    (match health with
     | HttpRaise e => raise e
     | HttpReply status body =>
         if status =? 200 then
           health_data <- json_object body ;;
           ret (is_str (dict_get "status" health_data) "healthy"
                && truthy (get (dict_get "powershell_available" health_data)
                             (JBool false)))
         else ret false
     end)
    (fun e => typer_print stdout (TCannotConnect e) ;; ret false).

(** [WindowsAutomationClient.type_text] *)
Definition client_type_text (stdout : option exn) (available : bool)
    (post : http_outcome) (text : str) (delay_ms : Z) : M typer bool :=
  if negb available then typer_print stdout TNotAvailable ;; ret false
  else
    try_except
      (modify (fun w => mkTyper (typer_requests w ++ [(text, delay_ms)])
                          (typer_console w)) ;;
       match post with
       | HttpRaise e => raise e
       | HttpReply status body =>
           if status =? 200 then
             result <- json_object body ;;
             ret (is_str (dict_get "status" result) "success")
           else
             try_except
               (error_data <- json_object body ;;
                typer_print stdout
                  (TSidecarError
                     (get (dict_get "message" error_data)
                        (JStr "Unknown error"))))
               (fun _ => typer_print stdout (THttpError status)) ;;
             ret false
       end)
      (fun e => typer_print stdout (TCommunicationError e) ;; ret false).


(** ** VAD parameters passed to the client (lines 695-715) *)

Record vad_args : Type := mkVadArgs {
  vad_threshold : Q;
  vad_neg_threshold : option Q;
  vad_min_speech_duration_ms : Z;
  vad_max_speech_duration_s : Z;
  vad_min_silence_duration_ms : Z;
  vad_speech_pad_ms : Z;
  vad_window_size_samples : Z;
  vad_return_seconds : bool
}.

(** The values [argparse] gives when no VAD option is on the command line. *)
Definition default_vad_args : vad_args :=
  mkVadArgs (1 # 2) None 250 30 2000 400 64 false.

Definition entry_if (b : bool) (key : str) (v : pyval)
  : list (str * pyval) :=
  if b then [(key, v)] else [].

(** The dictionary [vad_parameters], in insertion order. *)
Definition vad_parameters (v : vad_args) : list (str * pyval) :=
  (entry_if (negb (Qeq_bool (vad_threshold v) (1 # 2)))
     "threshold" (VFloat (vad_threshold v))
   ++ match vad_neg_threshold v with
      | Some q => [("neg_threshold", VFloat q)]
      | None => []
      end
   ++ entry_if (negb (vad_min_speech_duration_ms v =? 250))
        "min_speech_duration_ms" (VInt (vad_min_speech_duration_ms v))
   ++ entry_if (negb (vad_max_speech_duration_s v =? 30))
        "max_speech_duration_s" (VInt (vad_max_speech_duration_s v))
   ++ entry_if (negb (vad_min_silence_duration_ms v =? 2000))
        "min_silence_duration_ms" (VInt (vad_min_silence_duration_ms v))
   ++ entry_if (negb (vad_speech_pad_ms v =? 400))
        "speech_pad_ms" (VInt (vad_speech_pad_ms v))
   ++ entry_if (negb (vad_window_size_samples v =? 64))
        "window_size_samples" (VInt (vad_window_size_samples v))
   ++ entry_if (vad_return_seconds v) "return_seconds" (VBool true))%list.

(** [vad_parameters if vad_parameters else None] *)
Definition vad_params_to_use (v : vad_args) : option (list (str * pyval)) :=
  match vad_parameters v with
  | [] => None
  | params => Some params
  end.

(** ** Sample data *)

Definition digit_of (c : char) : option Z :=
  if ((48 <=? c) && (c <=? 57))%N then Some (Z.of_N (c - 48)) else None.

Fixpoint read_decimal (s : str) (num : Z) (den : positive)
    (after_dot any_digit : bool) : option Q :=
  match s with
  | EmptyString => if any_digit then Some (num # den) else None
  | String c s' =>
      if N.eqb c (ord ".") then
        if after_dot then None else read_decimal s' num den true any_digit
      else
        match digit_of c with
        | Some d =>
            read_decimal s' (10 * num + d)
              (if after_dot then (10 * den)%positive else den) after_dot true
        | None => None
        end
  end.

(** An instance of [float_of_str]: [float] on the plain decimal literals the
    server emits (["{:.3f}"]); other texts are taken as not numeric. *)
Definition decimal_of_str (s : str) : option Q :=
  match s with
  | String 45%N s' => option_map Qopp (read_decimal s' 0 1 false false)
  | _ => read_decimal s 0 1 false false
  end.

Definition between (low c high : char) : bool :=
  ((low <=? c) && (c <=? high))%N.

(** An instance of the Unicode data: the rows of Latin-1, of U+0130 (capital
    I with dot above, whose lowercase is i followed by U+0307), of the Greek
    letters and of the combining marks U+0300 to U+036F; the sample texts use
    no other code point. *)
Definition sample_unicode : Unicode := {|
  to_lower_full c :=
    (if c =? 304 then String 105 (String 775 EmptyString)
     else if (between 192 c 222 && negb (c =? 215))
             || (between 913 c 937 && negb (c =? 930))
     then String (c + 32) EmptyString
     else String c EmptyString)%N;
  is_cased c :=
    ((c =? 170) || (c =? 181) || (c =? 186)
     || (between 192 c 255 && negb (c =? 215) && negb (c =? 247))
     || (c =? 304) || (c =? 305)
     || (between 913 c 937 && negb (c =? 930)) || between 945 c 969)%N;
  is_case_ignorable c :=
    ((c =? 168) || (c =? 173) || (c =? 175) || (c =? 180)
     || (c =? 183) || (c =? 184) || between 768 c 879)%N
|}.

(** A delivery during which every write goes through. *)
Definition quiet (t : Z) : env := mkEnv t Written Written Written None false.

(** A delivery during which stdout is closed. *)
Definition stdout_closed : exn :=
  mkExn "ValueError" "I/O operation on closed file.".

Definition muted (t : Z) : env :=
  mkEnv t Written Written Written (Some stdout_closed) false.

Definition spoken (text : str) (start_ end_ : str) : segment :=
  mkSegment (Some text) (Some (VStr start_)) (Some (VStr end_)) (Some true) None.

Definition demo_args : args :=
  mkArgs ["hello"] 1500000 false false false false false false.

Definition heard : list segment :=
  [spoken "hello world" "0.000" "1.000"; spoken "how are you" "1.000" "2.000"].

Definition hears (t : Z) (segments : list segment) : delivery :=
  mkDelivery (quiet t) "" (Some segments) None.

Definition demo_segment : segment := spoken "hello world" "0.000" "1.500".

Definition demo_calls : list logger_call := [CallSegment (quiet 5) demo_segment].

Definition demo_logger : logger :=
  run_calls decimal_of_str demo_calls (new_logger true true false 0).

(** The entry [demo_logger] holds. *)
Definition demo_entry : segment_info :=
  Eval vm_compute in
    match json_segments demo_logger with
    | JSegment info :: _ => info
    | _ => mkSegmentInfo 0 "" 0 0 demo_segment None None
    end.

Definition no_words_args : args :=
  mkArgs [] 1500000 false false false false false false.

Definition partial_segment : segment :=
  mkSegment (Some "hello wor") (Some (VStr "0.000")) (Some (VStr "0.900"))
    (Some false) None.

(** "Istanbul Izmir hello world" with U+0130, the capital I with dot above,
    for each I. *)
Definition dotted : str :=
  String 304%N "stanbul " ++ String 304%N "zmir hello world".

Section Samples.

#[local] Existing Instance sample_unicode.

(** The session one second in, after "hello" was heard. *)
Definition listening : session :=
  deliver decimal_of_str demo_args (hears (seconds 1) heard)
    (initial_session demo_args 0).

(** The session after the statement was saved at four seconds. *)
Definition consumed : session :=
  deliver decimal_of_str demo_args (hears (seconds 4) heard) listening.


End Samples.

(** * Properties *)

(** ** Strings *)

Lemma str_eqb_refl (s : str) : str_eqb s s = true.
Proof.
  induction s as [|c s IH]; [reflexivity|]. cbn. now rewrite N.eqb_refl.
Qed.

Lemma str_eqb_eq (s t : str) : str_eqb s t = true <-> s = t.
Proof.
  split; [|intros ->; apply str_eqb_refl].
  revert t. induction s as [|c s IH]; intros [|d t]; cbn;
    try reflexivity; try discriminate.
  rewrite andb_true_iff. intros [Hc Hs]. apply N.eqb_eq in Hc.
  now rewrite Hc, (IH t Hs).
Qed.

Lemma str_eqb_neq (s t : str) : str_eqb s t = false <-> s <> t.
Proof.
  split.
  - intros H Heq. apply str_eqb_eq in Heq. congruence.
  - intros H. destruct (str_eqb s t) eqn:Heq; [|reflexivity].
    apply str_eqb_eq in Heq. contradiction.
Qed.

Lemma str_eqb_sym (s t : str) : str_eqb s t = str_eqb t s.
Proof.
  revert t. induction s as [|c s IH]; intros [|d t]; cbn; try reflexivity.
  now rewrite N.eqb_sym, IH.
Qed.

Lemma prefix_correct (needle hay : str) :
  prefix needle hay = true <-> substring 0 (str_length needle) hay = needle.
Proof.
  revert hay. induction needle as [|c needle IH]; intros [|d hay]; cbn;
    try (split; [reflexivity|reflexivity]); try (split; discriminate).
  rewrite andb_true_iff, IH, N.eqb_eq. split.
  - now intros [-> ->].
  - intros [= -> H]. now split.
Qed.

(** ** Equality of dedup keys *)

Lemma py_eq_refl (v : pyval) : py_eq v v = true.
Proof.
  destruct v; simpl; try reflexivity;
    try (apply Qeq_bool_iff; reflexivity).
  apply str_eqb_refl.
Qed.

Lemma py_eq_sym (v w : pyval) : py_eq v w = py_eq w v.
Proof.
  assert (Hq : forall x y, Qeq_bool x y = Qeq_bool y x).
  { intros x y. destruct (Qeq_bool x y) eqn:H1, (Qeq_bool y x) eqn:H2; trivial.
    - apply Qeq_bool_iff in H1. symmetry in H1. apply Qeq_bool_iff in H1. congruence.
    - apply Qeq_bool_iff in H2. symmetry in H2. apply Qeq_bool_iff in H2. congruence. }
  destruct v, w; simpl; trivial; try apply Hq.
  apply str_eqb_sym.
Qed.

Lemma py_eq_trans (u v w : pyval) :
  py_eq u v = true -> py_eq v w = true -> py_eq u w = true.
Proof.
  assert (Hq : forall x y z, Qeq_bool x y = true -> Qeq_bool y z = true ->
                             Qeq_bool x z = true).
  { intros x y z H1 H2. apply Qeq_bool_iff in H1, H2. apply Qeq_bool_iff.
    now rewrite H1. }
  destruct u, v, w; simpl; trivial; try discriminate; try apply Hq.
  intros H1 H2. apply str_eqb_eq in H1, H2. subst. apply str_eqb_refl.
Qed.

Lemma key_eqb_refl (k : segment_key) : key_eqb k k = true.
Proof.
  destruct k as [[t s] e]. simpl.
  now rewrite str_eqb_refl, !py_eq_refl.
Qed.

Lemma key_eqb_sym (k1 k2 : segment_key) : key_eqb k1 k2 = key_eqb k2 k1.
Proof.
  destruct k1 as [[t1 s1] e1], k2 as [[t2 s2] e2]. simpl.
  now rewrite str_eqb_sym, (py_eq_sym s1), (py_eq_sym e1).
Qed.

Lemma key_eqb_trans (k1 k2 k3 : segment_key) :
  key_eqb k1 k2 = true -> key_eqb k2 k3 = true -> key_eqb k1 k3 = true.
Proof.
  destruct k1 as [[t1 s1] e1], k2 as [[t2 s2] e2], k3 as [[t3 s3] e3]. simpl.
  rewrite !andb_true_iff. intros [[Ht Hs] He] [[Ht' Hs'] He'].
  apply str_eqb_eq in Ht, Ht'. subst.
  rewrite str_eqb_refl. eauto using py_eq_trans.
Qed.

(** Membership does not tell equal keys apart. *)
Lemma key_in_compat (k k' : segment_key) (logged : list segment_key) :
  key_eqb k' k = true -> key_in k logged = true -> key_in k' logged = true.
Proof.
  unfold key_in. intros Hk Hin.
  apply existsb_exists in Hin as [x [Hx Hkx]].
  apply existsb_exists. exists x. split; [assumption|].
  eapply key_eqb_trans; eassumption.
Qed.

(** ** The logger *)

(** Case analysis on an innermost scrutinee of the goal. *)
Ltac break_match :=
  match goal with
  | |- context [match ?x with _ => _ end] =>
      lazymatch x with
      | context [match _ with _ => _ end] => fail
      | _ => let H := fresh "Hm" in destruct x eqn:H
      end
  end.

Ltac run_logger :=
  unfold log_segment, log_vad_event, log_trigger_event, record_timing,
    append_file, write_file, bind, read, modify, when, ret, raise; simpl.

Section LoggerFacts.

Variable float_of_str : str -> option Q.

Lemma log_segment_skips (E : env) (seg : segment) (l : logger) :
  key_in (key_of seg) (logged_segments l) = true ->
  log_segment float_of_str E seg l = (l, Returned None).
Proof.
  intros H. unfold log_segment, bind, read, ret. simpl. now rewrite H.
Qed.

Lemma log_segment_logged (E : env) (seg : segment) (l : logger) :
  logged_segments (fst (log_segment float_of_str E seg l)) =
  if key_in (key_of seg) (logged_segments l) then logged_segments l
  else key_of seg :: logged_segments l.
Proof.
  run_logger. repeat (break_match; simpl; try reflexivity).
Qed.

Lemma run_call_keeps_keys (c : logger_call) (k : segment_key) (l : logger) :
  key_in k (logged_segments l) = true ->
  key_in k (logged_segments (run_call float_of_str c l)) = true.
Proof.
  intros H. destruct c; simpl.
  - rewrite log_segment_logged. destruct (key_in (key_of seg) _); trivial.
    unfold key_in in *. cbn [existsb]. rewrite H. apply orb_true_r.
  - run_logger. repeat (break_match; simpl; trivial).
  - run_logger. repeat (break_match; simpl; trivial).
Qed.

Lemma run_calls_keep_keys (cs : list logger_call) (k : segment_key) (l : logger) :
  key_in k (logged_segments l) = true ->
  key_in k (logged_segments (run_calls float_of_str cs l)) = true.
Proof.
  revert l. induction cs as [|c cs IH]; intros l H; simpl; trivial.
  apply IH. now apply run_call_keeps_keys.
Qed.

Lemma log_segment_records_key (E : env) (seg : segment) (l : logger) :
  key_in (key_of seg)
    (logged_segments (fst (log_segment float_of_str E seg l))) = true.
Proof.
  rewrite log_segment_logged.
  destruct (key_in (key_of seg) (logged_segments l)) eqn:H; trivial.
  unfold key_in. cbn [existsb]. now rewrite key_eqb_refl.
Qed.

Lemma py_max_ge (a b : Q) : (a <= py_max a b)%Q.
Proof.
  unfold py_max. destruct (Qle_bool b a) eqn:H.
  - apply Qle_refl.
  - apply Qnot_lt_le. intros Hlt. apply Qlt_le_weak in Hlt.
    apply Qle_bool_iff in Hlt. congruence.
Qed.

Lemma stats_le_refl (s : stats) : stats_le s s.
Proof. unfold stats_le. repeat split; try lia; apply Qle_refl. Qed.

Ltac solve_stats :=
  unfold stats_le, balanced; simpl; intros;
  repeat (break_match; simpl); repeat split; try lia; try apply Qle_refl; try apply py_max_ge;
  try (rewrite length_app; simpl; lia).

Lemma run_call_stats_le (c : logger_call) (l : logger) :
  stats_le (lstats l) (lstats (run_call float_of_str c l)).
Proof.
  destruct c; simpl; run_logger; repeat (break_match; simpl);
    solve_stats.
Qed.

Lemma run_call_balanced (c : logger_call) (l : logger) :
  balanced (lstats l) -> balanced (lstats (run_call float_of_str c l)).
Proof.
  destruct c; simpl; run_logger; repeat (break_match; simpl);
    solve_stats.
Qed.

Lemma log_segment_counts_once (E : env) (seg : segment) (l : logger) :
  key_in (key_of seg) (logged_segments l) = false ->
  total_segments (lstats (fst (log_segment float_of_str E seg l))) =
  S (total_segments (lstats l)).
Proof.
  intros H. run_logger. rewrite H. repeat (break_match; simpl); reflexivity.
Qed.

Lemma log_segment_stores_once (E : env) (seg : segment) (l : logger)
    (info : segment_info) :
  key_in (key_of seg) (logged_segments l) = false ->
  snd (log_segment float_of_str E seg l) = Returned (Some info) ->
  let l' := fst (log_segment float_of_str E seg l) in
  json_segments l' =
    (if enable_json l then json_segments l ++ [JSegment info]
     else json_segments l)%list
  /\ (enable_text l = true -> exists b, text_log l' = (text_log l ++ [b])%list).
Proof.
  intros H. run_logger. rewrite H.
  repeat (break_match; simpl); intros Hr; try discriminate;
    injection Hr as <-; (split; [reflexivity|]); intros; try discriminate;
    eauto.
Qed.

Lemma run_calls_balanced (cs : list logger_call) (l : logger) :
  balanced (lstats l) -> balanced (lstats (run_calls float_of_str cs l)).
Proof.
  revert l. induction cs as [|c cs IH]; intros l H; simpl; trivial.
  apply IH. now apply run_call_balanced.
Qed.

(** C5. Recording is idempotent on the dedup key: once [log_segment] has been
    called on a segment, whatever that call did and whatever logger calls
    follow, a call on a segment with an equal key returns at once and leaves
    the whole logger (entries, statistics, files) as it was.  Recording the
    identical segment twice therefore gives what recording it once gives: for
    a key not seen before, one more segment in the statistics and, when the
    first call returns its entry, that single entry appended to the JSON list
    and one block to the text log. *)
Theorem log_segment_idempotent (E E' : env) (seg seg' : segment)
    (between : list logger_call) (l : logger) :
  key_eqb (key_of seg') (key_of seg) = true ->
  let once := fst (log_segment float_of_str E seg l) in
  let later := run_calls float_of_str between once in
  let twice := fst (log_segment float_of_str E' seg once) in
  log_segment float_of_str E' seg' later = (later, Returned None)
  /\ twice = once
  /\ (key_in (key_of seg) (logged_segments l) = false ->
      total_segments (lstats twice) = S (total_segments (lstats l))
      /\ forall info,
           snd (log_segment float_of_str E seg l) = Returned (Some info) ->
           json_segments twice =
             (if enable_json l then json_segments l ++ [JSegment info]
              else json_segments l)%list
           /\ (enable_text l = true ->
               exists b, text_log twice = (text_log l ++ [b])%list)).
Proof.
  intros Hkey once later twice.
  assert (Honce : key_in (key_of seg) (logged_segments once) = true)
    by apply log_segment_records_key.
  assert (Htwice : twice = once).
  { unfold twice. now rewrite log_segment_skips. }
  split; [|split].
  - apply log_segment_skips. apply key_in_compat with (k := key_of seg); trivial.
    now apply run_calls_keep_keys.
  - exact Htwice.
  - intros Hfresh. rewrite Htwice. split.
    + now apply log_segment_counts_once.
    + intros info Hret. now apply log_segment_stores_once.
Qed.

(** C6. In every statistics state reached from the initial one by calls of
    [log_segment], [log_vad_event] and [log_trigger_event],
    completed + incomplete = total, and no call makes any counter smaller. *)
Theorem stats_invariant (cs : list logger_call) (json text verb : bool)
    (started : Z) :
  let l := run_calls float_of_str cs (new_logger json text verb started) in
  balanced (lstats l)
  /\ forall c, stats_le (lstats l) (lstats (run_call float_of_str c l)).
Proof.
  intros l. split.
  - apply run_calls_balanced. reflexivity.
  - intros c. apply run_call_stats_le.
Qed.

(** C10. The dedup key takes the empty string for a missing text and 0 for a
    missing start or end; so of two segments with the same trimmed text, one
    with start and end equal to 0 and one without these fields, the one
    delivered second is skipped. *)
Theorem missing_fields_default (E1 E2 : env) (zero bare : segment)
    (s e : pyval) (l : logger) :
  seg_start zero = Some s -> py_eq s (VInt 0) = true ->
  seg_end zero = Some e -> py_eq e (VInt 0) = true ->
  seg_start bare = None -> seg_end bare = None ->
  trimmed_text zero = trimmed_text bare ->
  (forall seg,
     key_of seg =
       (strip (match seg_text seg with Some t => t | None => "" end),
        match seg_start seg with Some v => v | None => VInt 0 end,
        match seg_end seg with Some v => v | None => VInt 0 end))
  /\ (let l1 := fst (log_segment float_of_str E1 zero l) in
      log_segment float_of_str E2 bare l1 = (l1, Returned None))
  /\ (let l1 := fst (log_segment float_of_str E1 bare l) in
      log_segment float_of_str E2 zero l1 = (l1, Returned None)).
Proof.
  intros Hs Hs0 He He0 Hbs Hbe Htext.
  assert (Hk : key_eqb (key_of bare) (key_of zero) = true).
  { unfold key_of. rewrite Hs, He, Hbs, Hbe, Htext. unfold get, key_eqb.
    rewrite str_eqb_refl, (py_eq_sym _ s), (py_eq_sym _ e), Hs0, He0.
    reflexivity. }
  split; [reflexivity|]. split; simpl.
  - apply log_segment_skips. eapply key_in_compat; [exact Hk|].
    apply log_segment_records_key.
  - apply log_segment_skips. eapply key_in_compat.
    + rewrite key_eqb_sym. exact Hk.
    + apply log_segment_records_key.
Qed.

End LoggerFacts.

Lemma log_segment_idempotent_witness :
  let seg := spoken "hello world" "0.000" "1.500" in
  let l := new_logger true true false 0 in
  key_eqb (key_of seg) (key_of seg) = true
  /\ log_segment decimal_of_str (quiet 9) seg
       (fst (log_segment decimal_of_str (quiet 5) seg l))
     = (fst (log_segment decimal_of_str (quiet 5) seg l), Returned None).
Proof.
  intros seg l. split; [reflexivity|].
  exact (proj1 (log_segment_idempotent decimal_of_str (quiet 5) (quiet 9)
                  seg seg [] l eq_refl)).
Defined.

Lemma missing_fields_default_witness :
  let zero := mkSegment (Some " ok ") (Some (VFloat 0)) (Some (VInt 0)) (Some true) None in
  let bare := mkSegment (Some "ok") None None (Some true) None in
  let l := new_logger true true false 0 in
  py_eq (VFloat 0) (VInt 0) = true
  /\ trimmed_text zero = trimmed_text bare
  /\ snd (log_segment decimal_of_str (quiet 9) bare
            (fst (log_segment decimal_of_str (quiet 5) zero l)))
     = Returned None.
Proof.
  intros zero bare l. split; [reflexivity|]. split; [reflexivity|].
  pose proof (missing_fields_default decimal_of_str (quiet 5) (quiet 9)
                zero bare (VFloat 0) (VInt 0) l
                eq_refl eq_refl eq_refl eq_refl eq_refl eq_refl eq_refl) as H.
  destruct H as [_ [H _]]. exact (f_equal snd H).
Defined.

(** ** Searching a text *)

Lemma occurs_at_0 (needle hay : str) :
  occurs_at needle hay 0 <-> prefix needle hay = true.
Proof.
  unfold occurs_at. rewrite prefix_correct. split.
  - now intros [_ H].
  - intros H. split; [lia | exact H].
Qed.

Lemma occurs_at_S (needle : str) (c : char) (hay : str) (q : nat) :
  occurs_at needle (String c hay) (S q) <-> occurs_at needle hay q.
Proof.
  unfold occurs_at. simpl. split; intros [H1 H2]; (split; [lia | exact H2]).
Qed.

Lemma occurs_at_empty (needle : str) (p : nat) :
  occurs_at needle EmptyString p -> p = O.
Proof. unfold occurs_at. simpl. intros [H _]. lia. Qed.

Lemma rfind_opt_Some (needle hay : str) (p : nat) :
  rfind_opt needle hay = Some p -> last_occurrence needle hay p.
Proof.
  revert p. induction hay as [|c hay IH]; intros p; cbn [rfind_opt].
  - destruct (prefix needle EmptyString) eqn:Hp; intros Heq; [|discriminate].
    injection Heq as <-. split.
    + now apply occurs_at_0.
    + intros q Hq. apply occurs_at_empty in Hq. lia.
  - destruct (rfind_opt needle hay) as [p'|] eqn:Hr.
    + intros [= <-]. destruct (IH p' eq_refl) as [Hocc Hmax]. split.
      * now apply occurs_at_S.
      * intros [|q] Hq; [lia|]. apply occurs_at_S in Hq.
        apply Hmax in Hq. lia.
    + destruct (prefix needle (String c hay)) eqn:Hp; intros Heq; [|discriminate].
      injection Heq as <-. split.
      * now apply occurs_at_0.
      * intros [|q] Hq; [lia|]. apply occurs_at_S in Hq.
        exfalso. revert q Hq. clear -Hr.
        induction hay as [|d hay IH]; cbn [rfind_opt] in Hr; intros q Hq.
        -- apply occurs_at_empty in Hq as Hq0. subst q.
           apply occurs_at_0 in Hq. now rewrite Hq in Hr.
        -- destruct (rfind_opt needle hay) eqn:Hr'; [discriminate|].
           destruct q as [|q].
           ++ apply occurs_at_0 in Hq. now rewrite Hq in Hr.
           ++ apply occurs_at_S in Hq. now apply (IH eq_refl q).
Qed.

Lemma rfind_opt_None (needle hay : str) :
  rfind_opt needle hay = None -> forall p, ~ occurs_at needle hay p.
Proof.
  induction hay as [|c hay IH]; cbn [rfind_opt]; intros Hr p Hp.
  - apply occurs_at_empty in Hp as Hp0. subst p.
    apply occurs_at_0 in Hp. now rewrite Hp in Hr.
  - destruct (rfind_opt needle hay) eqn:Hr'; [discriminate|].
    destruct p as [|p].
    + apply occurs_at_0 in Hp. now rewrite Hp in Hr.
    + apply occurs_at_S in Hp. now apply (IH eq_refl p).
Qed.

Lemma contains_occurs (needle hay : str) :
  contains needle hay = true <-> exists p, occurs_at needle hay p.
Proof.
  induction hay as [|c hay IH]; cbn [contains].
  - rewrite orb_false_r. split.
    + intros H. exists O. now apply occurs_at_0.
    + intros [p Hp]. apply occurs_at_empty in Hp as Hp0. subst p.
      now apply occurs_at_0.
  - rewrite orb_true_iff, IH. split.
    + intros [H|[p Hp]].
      * exists O. now apply occurs_at_0.
      * exists (S p). now apply occurs_at_S.
    + intros [[|p] Hp].
      * left. now apply occurs_at_0.
      * right. exists p. now apply occurs_at_S in Hp.
Qed.

Example strip_example : strip "  hello world  " = "hello world".
Proof. reflexivity. Qed.

Example rfind_example : rfind "hello" "hello hello there" = 6.
Proof. reflexivity. Qed.

Example count_words_example : count_words " how  are you " = 3%nat.
Proof. reflexivity. Qed.

Example lower_example {ucd : Unicode} : lower "Hello, World" = "hello, world".
Proof. reflexivity. Qed.

(** ** Statement extraction *)

(** C3 on a text whose lowercase is longer than the text.  The lowercase of
    the capital I with dot above (U+0130) has two code points, so in
    "Istanbul Izmir hello world" written with that letter the word "hello"
    stands at index 15 of the text and at index 17 of its lowercase.  The
    code looks for the word in the lowercase and cuts the text itself at what
    it finds: the candidate is "orld", where "world" follows the occurrence,
    and that is what a run saves. *)
Theorem statement_extraction_misplaced :
  let segments := [spoken dotted "0.000" "2.000"] in
  let opened := deliver (ucd := sample_unicode) decimal_of_str demo_args
                  (hears (seconds 1) segments) (initial_session demo_args 0) in
  let saved := deliver (ucd := sample_unicode) decimal_of_str demo_args
                 (hears (seconds 4) segments) opened in
  all_text_of segments = dotted
  /\ substring 15 5 dotted = "hello"
  /\ strip (drop (15 + 5) dotted) = "world"
  /\ last_occurrence "hello" (lower (ucd := sample_unicode) dotted) 17
  /\ post_trigger_text (ucd := sample_unicode) "hello" 0 segments = "orld"
  /\ trigger_word (trigger opened) = Some "hello"
  /\ trigger_output saved = [mkEntry (seconds 4) "hello" "orld"].
Proof.
  cbn zeta. split; [reflexivity|]. split; [reflexivity|].
  split; [reflexivity|]. split; [apply rfind_opt_Some; reflexivity|].
  split; [reflexivity|]. split; reflexivity.
Qed.

(** ** The trigger detector *)

Lemma if_logger_frame (c : M logger unit) (s : session) :
  trigger (fst (if_logger c s)) = trigger s
  /\ trigger_output (fst (if_logger c s)) = trigger_output s
  /\ console (fst (if_logger c s)) = console s.
Proof.
  unfold if_logger. destruct (transcription_logger s) as [l|]; simpl; auto.
  destruct (c l); simpl; auto.
Qed.

Ltac run_session :=
  unfold save_statement, if_logger, print, try_except,
    log_trigger_event, append_file, write_file, bind, read, modify, when,
    ret, raise;
  simpl.

Lemma bind_returned {S A B : Type} (c : M S A) (k : A -> M S B) (s s' : S)
    (x : A) :
  c s = (s', Returned x) -> bind c k s = k x s'.
Proof. intros H. unfold bind. now rewrite H. Qed.

Lemma bind_raised {S A B : Type} (c : M S A) (k : A -> M S B) (s s' : S)
    (e : exn) :
  c s = (s', Raised e) -> bind c k s = (s', Raised e).
Proof. intros H. unfold bind. now rewrite H. Qed.

Section TriggerFacts.

Context {ucd : Unicode}.
Variable float_of_str : str -> option Q.
Variable a : args.

(** What a save comes to: it ends as its last [print] does, marks the
    statement as saved when the whole block went through, and leaves the
    entry in the file when the write got that far. *)
Lemma save_statement_spec (E : env) (word statement : str) (s : session) :
  let s' := fst (save_statement a E word statement s) in
  snd (save_statement a E word statement s) = console_result E
  /\ trigger s' =
       (if save_succeeds E s
        then mark_saved statement (now E + seconds 2) (trigger s)
        else trigger s)
  /\ trigger_output s' =
       (if in_file (trigger_write E)
        then trigger_output s ++ [mkEntry (now E) word statement]
        else trigger_output s)%list.
Proof.
  unfold save_succeeds, event_log_fails, console_result, console_ok.
  run_session.
  destruct (trigger_write E), (console_write E); simpl; auto;
    destruct (wsl_auto_type a), (wsl_typing_available a); simpl;
    (destruct (transcription_logger s) as [l|]; simpl; [|auto]);
    destruct (enable_text l), (verbose l); simpl; auto;
    destruct (text_write E); simpl; auto.
Qed.

Lemma finalize_spec (E : env) (segments : list segment) (s : session)
    (w : str) :
  trigger_word (trigger s) = Some w ->
  0 <= trigger_segment_index (trigger s) ->
  let t := trigger s in
  let post := candidate t segments in
  let attempt := worth_saving post (last_saved_text t) in
  let s' := fst (finalize a E segments s) in
  snd (finalize a E segments s) =
    (if attempt then console_result E else Returned tt)
  /\ trigger s' =
       (if cut_short E t segments then t
        else reset (List.length segments)
               (if attempt && save_succeeds E s
                then mark_saved (strip post) (now E + seconds 2) t else t))
  /\ trigger_output s' =
       (if attempt && in_file (trigger_write E)
        then trigger_output s ++ [mkEntry (now E) w (strip post)]
        else trigger_output s)%list.
Proof.
  intros Hw Hidx. unfold cut_short, candidate. rewrite Hw. cbn [get].
  unfold finalize, bind, read, when, modify. cbn [fst snd].
  rewrite Hw. apply Z.leb_le in Hidx. rewrite Hidx.
  destruct (worth_saving _ _) eqn:Hattempt; cbn [andb].
  - pose proof (save_statement_spec E w
                  (strip (post_trigger_text w (trigger_segment_index (trigger s))
                            segments)) s) as [Hr [Ht Ho]].
    destruct (save_statement a E w _ s) as [s1 r]. cbn [fst snd] in *.
    subst r. unfold save_succeeds, console_result, console_ok in *.
    destruct (console_write E); cbn [negb fst snd andb] in *;
      rewrite ?andb_false_r in *; cbn [negb fst snd andb trigger on_trigger
        trigger_output] in *; rewrite ?Ht, Ho; auto.
  - cbn. auto.
Qed.

Lemma save_succeeds_on_trigger (E : env) (f : trigger_state -> trigger_state)
    (s : session) :
  save_succeeds E (on_trigger f s) = save_succeeds E s.
Proof. reflexivity. Qed.

Lemma waiting_branch_eq (E : env) (segments : list segment) (s : session) :
  waiting_branch a E segments s =
  let count := List.length segments in
  let s2 := on_trigger (refreshed (now E) count) s in
  if due (now E) count (trigger s) then finalize a E segments s2
  else (s2, Returned tt).
Proof.
  unfold waiting_branch, due, refreshed, bind, read, modify, when, ret,
    on_trigger.
  cbn -[finalize should_finalize Nat.ltb].
  destruct (waiting_segment_count (trigger s) <? List.length segments)%nat;
    cbn -[finalize should_finalize Nat.ltb];
    destruct (should_finalize _ _ _); reflexivity.
Qed.

Lemma waiting_branch_spec (E : env) (segments : list segment) (s : session)
    (w : str) :
  trigger_word (trigger s) = Some w ->
  0 <= trigger_segment_index (trigger s) ->
  let count := List.length segments in
  let t := refreshed (now E) count (trigger s) in
  let post := candidate (trigger s) segments in
  let attempt := worth_saving post (last_saved_text (trigger s)) in
  let s' := fst (waiting_branch a E segments s) in
  snd (waiting_branch a E segments s) =
    (if due (now E) count (trigger s) && attempt then console_result E
     else Returned tt)
  /\ trigger s' =
       (if due (now E) count (trigger s)
        then if cut_short E (trigger s) segments then t
             else reset count
                    (if attempt && save_succeeds E s
                     then mark_saved (strip post) (now E + seconds 2) t else t)
        else t)
  /\ trigger_output s' =
       (if due (now E) count (trigger s) && (attempt && in_file (trigger_write E))
        then trigger_output s ++ [mkEntry (now E) w (strip post)]
        else trigger_output s)%list.
Proof.
  intros Hw Hidx. cbn zeta. rewrite waiting_branch_eq. cbn zeta.
  destruct (due (now E) (List.length segments) (trigger s)); [|cbn; auto].
  set (s2 := on_trigger (refreshed (now E) (List.length segments)) s).
  assert (Ht2 : trigger s2 = refreshed (now E) (List.length segments) (trigger s))
    by reflexivity.
  assert (Hsame : trigger_word (trigger s2) = trigger_word (trigger s)
                  /\ trigger_segment_index (trigger s2) =
                     trigger_segment_index (trigger s)
                  /\ last_saved_text (trigger s2) = last_saved_text (trigger s)).
  { rewrite Ht2. unfold refreshed.
    destruct (waiting_segment_count (trigger s) <? List.length segments)%nat;
      auto. }
  destruct Hsame as [Hw2 [Hi2 Hl2]].
  pose proof (finalize_spec E segments s2 w) as H.
  rewrite Hw2, Hi2 in H. specialize (H Hw Hidx). cbn zeta in H.
  unfold cut_short, candidate in *. rewrite Hw2, Hi2, Hl2, Ht2 in H.
  exact H.
Qed.

Lemma due_iff (current_time : Z) (count : nat) (t : trigger_state) :
  collection_timeout t = seconds 5 ->
  due current_time count t = true <-> finalization_due current_time count t.
Proof.
  intros Hct. unfold due, finalization_due, should_finalize, refreshed,
    deadline_at, last_change_at. rewrite Hct.
  destruct (waiting_segment_count t <? count)%nat; cbn [last_change_time
    start_time stability_delay note_change set_max_collection_time];
    rewrite orb_true_iff, andb_true_iff, !Z.leb_le; reflexivity.
Qed.

Lemma first_word_in_Some (words : list str) (seg : segment) (w : str) :
  first_word_in words (trimmed_text seg) = Some w ->
  first_word substring_match words seg w.
Proof.
  unfold first_word, substring_match. revert w.
  induction words as [|x words IH]; intros w; cbn [first_word_in];
    [discriminate|].
  destruct (contains (lower x) (lower (trimmed_text seg))) eqn:Hc.
  - intros [= <-]. exists O. split; [reflexivity|]. split.
    + now apply contains_occurs.
    + intros k' w' Hlt. lia.
  - intros H. destruct (IH w H) as [k [Hk [Hm Hbefore]]].
    exists (S k). split; [exact Hk|]. split; [exact Hm|].
    intros [|k'] w' Hlt Hn.
    + injection Hn as <-. intros Hocc. apply contains_occurs in Hocc.
      congruence.
    + apply (Hbefore k' w'); [lia | exact Hn].
Qed.

Lemma first_word_in_None (words : list str) (seg : segment) (w : str) :
  first_word_in words (trimmed_text seg) = None ->
  In w words -> ~ substring_match w seg.
Proof.
  unfold substring_match.
  induction words as [|x words IH]; cbn [first_word_in]; [now intros _ []|].
  destruct (contains (lower x) (lower (trimmed_text seg))) eqn:Hc;
    [discriminate|].
  intros H [<-|Hin].
  - intros Hocc. apply contains_occurs in Hocc. congruence.
  - now apply IH.
Qed.

Lemma first_word_nonempty (words : list str) (seg : segment) (w : str) :
  trimmed_text seg <> "" ->
  first_word substring_match words seg w ->
  first_word nonempty_match words seg w.
Proof.
  intros Hne [k [Hk [Hm Hbefore]]]. exists k. split; [exact Hk|].
  split; [now split|]. intros k' w' Hlt Hn [_ Hm']. now apply (Hbefore k' w').
Qed.

Lemma scan_segments_Some (words : list str) (new_segments : list segment) :
  forall base i w,
    scan_segments words base new_segments = Some (i, w) ->
    exists j seg,
      i = (base + j)%nat /\ nth_error new_segments j = Some seg
      /\ first_word nonempty_match words seg w
      /\ forall j' seg' w',
           (j' < j)%nat -> nth_error new_segments j' = Some seg' ->
           In w' words -> ~ nonempty_match w' seg'.
Proof.
  induction new_segments as [|seg rest IH]; intros base i w;
    cbn [scan_segments]; [discriminate|].
  assert (Hrest :
    scan_segments words (S base) rest = Some (i, w) ->
    (forall w', In w' words -> ~ nonempty_match w' seg) ->
    exists j seg0,
      i = (base + j)%nat /\ nth_error (seg :: rest) j = Some seg0
      /\ first_word nonempty_match words seg0 w
      /\ forall j' seg' w',
           (j' < j)%nat -> nth_error (seg :: rest) j' = Some seg' ->
           In w' words -> ~ nonempty_match w' seg').
  { intros Hs Hhead. destruct (IH _ _ _ Hs) as [j [seg0 [Hi [Hn [Hf Hb]]]]].
    exists (S j), seg0. split; [lia|]. split; [exact Hn|]. split; [exact Hf|].
    intros [|j'] seg' w' Hlt Hn' Hin.
    - injection Hn' as <-. now apply Hhead.
    - apply (Hb j' seg' w'); [lia | exact Hn' | exact Hin]. }
  destruct (str_eqb (trimmed_text seg) "") eqn:Hempty.
  - intros Hs. apply Hrest; [exact Hs|].
    intros w' _ [Hne _]. apply str_eqb_eq in Hempty. contradiction.
  - apply str_eqb_neq in Hempty.
    destruct (first_word_in words (trimmed_text seg)) as [w0|] eqn:Hw.
    + intros [= <- <-]. exists O, seg. split; [lia|]. split; [reflexivity|].
      split; [apply first_word_nonempty; [exact Hempty|]; now apply first_word_in_Some|].
      intros j' seg' w' Hlt. lia.
    + intros Hs. apply Hrest; [exact Hs|].
      intros w' Hin [_ Hm]. now apply (first_word_in_None words seg w' Hw).
Qed.

Lemma scan_segments_None (words : list str) (new_segments : list segment) :
  forall base,
    scan_segments words base new_segments = None ->
    forall j seg w,
      nth_error new_segments j = Some seg -> In w words ->
      ~ nonempty_match w seg.
Proof.
  induction new_segments as [|seg rest IH]; intros base;
    cbn [scan_segments]; intros Hs j seg0 w Hn Hin.
  - destruct j; discriminate.
  - destruct j as [|j]; cbn [nth_error] in Hn.
    + injection Hn as <-. intros [Hne Hm].
      apply str_eqb_neq in Hne. rewrite Hne in Hs.
      destruct (first_word_in words (trimmed_text seg)) eqn:Hw; [discriminate|].
      now apply (first_word_in_None words seg w Hw).
    + apply (IH (S base)) with (j := j); trivial.
      destruct (str_eqb (trimmed_text seg) ""); [exact Hs|].
      destruct (first_word_in words (trimmed_text seg)); [discriminate|exact Hs].
Qed.

(** The scan finds the first match at or after the watermark, or there is
    none. *)
Lemma scan_first_match (words : list str) (processed : nat)
    (segments : list segment) :
  match scan_segments words processed (skipn processed segments) with
  | Some (i, w) => first_match nonempty_match words processed segments i w
  | None => no_match nonempty_match words processed segments
  end.
Proof.
  destruct (scan_segments words processed (skipn processed segments))
    as [[i w]|] eqn:Hs.
  - apply scan_segments_Some in Hs as [j [seg [-> [Hn [Hf Hb]]]]].
    rewrite nth_error_skipn in Hn.
    split; [lia|]. exists seg. split; [exact Hn|]. split; [exact Hf|].
    intros j' seg' w' Hj Hn' Hin.
    apply (Hb (j' - processed)%nat seg' w'); [lia| |exact Hin].
    rewrite nth_error_skipn. now replace (processed + (j' - processed))%nat with j' by lia.
  - intros j seg w Hj Hn Hin.
    apply (scan_segments_None _ _ _ Hs (j - processed)%nat seg w); [|exact Hin].
    rewrite nth_error_skipn. now replace (processed + (j - processed))%nat with j by lia.
Qed.

Lemma idle_branch_spec (E : env) (segments : list segment) (s : session) :
  let processed := last_processed_segment_count (trigger s) in
  let found := scan_segments (trigger_words a) processed
                 (skipn processed segments) in
  let s' := fst (idle_branch a E segments s) in
  trigger s' =
    match found with
    | Some (i, w) => open_window w i (now E) (List.length segments) (trigger s)
    | None => trigger s
    end
  /\ trigger_output s' = trigger_output s
  /\ activations s' =
       match found, transcription_logger s with
       | Some _, Some _ => S (activations s)
       | _, _ => activations s
       end
  /\ (found = None -> s' = s).
Proof.
  cbn zeta. unfold idle_branch, activations. run_session.
  destruct (scan_segments _ _ _) as [[i w]|]; [|cbn; auto].
  destruct (transcription_logger s) as [l|] eqn:Hl; cbn;
    [destruct (enable_text l && verbose l); cbn;
       [destruct (text_write E); cbn|]|];
    rewrite ?Hl; destruct (console_write E); cbn; rewrite ?Hl;
    repeat split; auto; intros H; discriminate H.
Qed.

Lemma is_empty_false {A : Type} (l : list A) : l <> [] -> is_empty l = false.
Proof. destruct l; [contradiction|reflexivity]. Qed.

Lemma callback_waiting (E : env) (text : str) (segments : list segment)
    (s : session) :
  processed a E segments s -> waiting (trigger s) = true ->
  trigger_word_callback a E text (Some segments) s = waiting_branch a E segments s.
Proof.
  intros [Hw [Hs Hc]] Hwait. unfold trigger_word_callback.
  rewrite (is_empty_false _ Hw), (is_empty_false _ Hs). cbn [orb].
  unfold bind at 1, read at 1. cbn [fst snd]. now rewrite Hc, Hwait.
Qed.

Lemma callback_idle (E : env) (text : str) (segments : list segment)
    (s : session) :
  processed a E segments s -> waiting (trigger s) = false ->
  trigger_word_callback a E text (Some segments) s = idle_branch a E segments s.
Proof.
  intros [Hw [Hs Hc]] Hwait. unfold trigger_word_callback.
  rewrite (is_empty_false _ Hw), (is_empty_false _ Hs). cbn [orb].
  unfold bind at 1, read at 1. cbn [fst snd]. now rewrite Hc, Hwait.
Qed.

(** A delivery is processed, or the detector returns at once. *)
Lemma callback_cases (E : env) (text : str)
    (segments : option (list segment)) (s : session) :
  trigger_word_callback a E text segments s = (s, Returned tt)
  \/ exists segs, segments = Some segs /\ processed a E segs s.
Proof.
  destruct segments as [segs|]; [|now left]. unfold trigger_word_callback.
  destruct (trigger_words a) as [|w ws] eqn:Hw; [now left|].
  destruct segs as [|seg segs]; [now left|]. cbn [is_empty orb].
  unfold bind at 1, read at 1. cbn [fst snd].
  destruct (in_cooldown (trigger s) (now E)) eqn:Hc; [now left|].
  right. exists (seg :: segs). split; [reflexivity|].
  unfold processed. rewrite Hw. repeat split; trivial; discriminate.
Qed.

Lemma refreshed_well_formed (current_time : Z) (count : nat)
    (t : trigger_state) :
  waiting t = true -> well_formed a t ->
  well_formed a (refreshed current_time count t)
  /\ waiting (refreshed current_time count t) = true.
Proof.
  intros Hwait [Hw [Hi [Hct Hsd]]].
  destruct (Hw Hwait) as [w [t0 [tc [H1 [H2 [H3 H4]]]]]].
  unfold refreshed, well_formed.
  destruct (waiting_segment_count t <? count)%nat; cbn; rewrite Hwait;
    (split; [|reflexivity]); (split; [|split; [discriminate|auto]]);
    intros _; eauto 10.
Qed.

Lemma callback_well_formed (E : env) (text : str)
    (segments : option (list segment)) (s : session) :
  well_formed a (trigger s) ->
  well_formed a (trigger (fst (trigger_word_callback a E text segments s))).
Proof.
  intros Hwf.
  destruct (callback_cases E text segments s) as [->|[segs [-> Hp]]];
    [exact Hwf|].
  destruct (waiting (trigger s)) eqn:Hwait.
  - rewrite (callback_waiting E text segs s Hp Hwait).
    destruct Hwf as [Hw Hrest].
    destruct (Hw Hwait) as [w [t0 [tc [H1 [H2 [H3 H4]]]]]].
    destruct (waiting_branch_spec E segs s w H1 H4) as [_ [-> _]].
    destruct (refreshed_well_formed (now E) (List.length segs) (trigger s)
                Hwait (conj Hw Hrest)) as [[_ [_ [Hct Hsd]]] _].
    destruct (due _ _ _); [|now apply refreshed_well_formed].
    destruct (cut_short _ _ _); [now apply refreshed_well_formed|].
    destruct (_ && _); cbn; (split; [discriminate|]); auto.
  - rewrite (callback_idle E text segs s Hp Hwait).
    destruct (idle_branch_spec E segs s) as [-> _].
    destruct (scan_segments _ _ _) as [[i w]|]; [|exact Hwf].
    destruct Hwf as [_ [_ [Hct Hsd]]]. unfold well_formed. cbn.
    split; [|split; [discriminate|auto]].
    intros _. exists w, (now E), (now E). repeat split. lia.
Qed.

Lemma bind_fst {S A B : Type} (c : M S A) (k : A -> M S B) (s : S) :
  fst (bind c k s) =
  match snd (c s) with
  | Returned x => fst (k x (fst (c s)))
  | Raised _ => fst (c s)
  end.
Proof. unfold bind. destruct (c s) as [s' [x|e]]; reflexivity. Qed.

Lemma for_each_frame {A X : Type} (proj : session -> X)
    (body : A -> M session unit) :
  (forall x s, proj (fst (body x s)) = proj s) ->
  forall items s, proj (fst (for_each items body s)) = proj s.
Proof.
  intros Hbody. induction items as [|x rest IH]; intros s; [reflexivity|].
  cbn [for_each]. rewrite bind_fst.
  destruct (snd (body x s)); [rewrite IH|]; apply Hbody.
Qed.

Lemma log_body_frame (E : env) (seg : segment) (s : session) :
  let body := when (get (seg_completed seg) false)
                (if_logger (log_segment float_of_str E seg ;; ret tt)) in
  trigger (fst (body s)) = trigger s
  /\ trigger_output (fst (body s)) = trigger_output s.
Proof.
  cbn zeta. unfold when. destruct (get (seg_completed seg) false).
  - split; apply if_logger_frame.
  - split; reflexivity.
Qed.

Lemma on_error_frame (E : env) (e : exn) (s : session) :
  trigger (fst (on_error E e s)) = trigger s
  /\ trigger_output (fst (on_error E e s)) = trigger_output s.
Proof.
  unfold on_error, when. run_session.
  destruct (transcription_logger s) as [l|] eqn:Hl; cbn.
  - destruct (enable_text l); cbn; rewrite ?Hl; cbn;
      [destruct (text_write E); cbn|];
      destruct (contains "critical" (lower (exn_msg e))); cbn;
      try destruct (console_write E); cbn; auto.
  - destruct (contains "critical" (lower (exn_msg e))); cbn;
      try destruct (console_write E); cbn; auto.
Qed.

Lemma dispatch_trigger (E : env) (text : str)
    (segments : option (list segment)) (vad : option vad_event) (s : session) :
  trigger (fst (dispatch float_of_str a E text segments vad s)) = trigger s
  \/ exists s1,
       trigger s1 = trigger s
       /\ trigger (fst (dispatch float_of_str a E text segments vad s)) =
          trigger (fst (trigger_word_callback a E text segments s1)).
Proof.
  assert (Hrest :
    forall c : M session unit,
      (forall s0, trigger (fst (c s0)) = trigger s0) ->
      forall r,
        r = (c ;; when (negb (is_empty (trigger_words a)))
                    (trigger_word_callback a E text segments)) s ->
        trigger (fst r) = trigger s
        \/ exists s1,
             trigger s1 = trigger s
             /\ trigger (fst r) =
                trigger (fst (trigger_word_callback a E text segments s1))).
  { intros c Hc r ->. rewrite bind_fst.
    destruct (snd (c s)); [|left; apply Hc].
    unfold when. destruct (negb (is_empty (trigger_words a))).
    - right. exists (fst (c s)). split; [apply Hc|reflexivity].
    - left. apply Hc. }
  remember (dispatch float_of_str a E text segments vad s) as r eqn:Hr.
  unfold dispatch in Hr. unfold bind at 1, read at 1 in Hr.
  destruct vad as [v|]; destruct (transcription_logger s) as [l|].
  - left. subst r. apply if_logger_frame.
  - apply (Hrest (ret tt)); [reflexivity|exact Hr].
  - eapply Hrest; [|exact Hr]. intros s0.
    destruct segments as [segs|]; [|reflexivity].
    apply (for_each_frame trigger). intros seg s1. apply log_body_frame.
  - apply (Hrest (ret tt)); [reflexivity|exact Hr].
Qed.

Lemma combined_trigger (E : env) (text : str)
    (segments : option (list segment)) (vad : option vad_event) (s : session) :
  let s' := fst (combined_callback float_of_str a E text segments vad s) in
  trigger s' = trigger s
  \/ exists s1,
       trigger s1 = trigger s
       /\ trigger s' = trigger (fst (trigger_word_callback a E text segments s1)).
Proof.
  cbn zeta. unfold combined_callback, try_except.
  pose proof (dispatch_trigger E text segments vad s) as H.
  destruct (dispatch float_of_str a E text segments vad s) as [s1 [[]|e]];
    cbn [fst] in *; [exact H|].
  destruct (on_error_frame E e s1) as [-> _]. exact H.
Qed.

(** Throughout a run the trigger state is well formed: while waiting, the
    word, the start and last-change times and a non-negative index are set;
    while idle there is no deadline; the two delays keep their values. *)
Theorem reachable_well_formed (s : session) :
  reachable float_of_str a s -> well_formed a (trigger s).
Proof.
  induction 1 as [started|s d Hs IH].
  - unfold well_formed. cbn. repeat split; auto; discriminate.
  - unfold deliver.
    destruct (combined_trigger (d_env d) (d_text d) (d_segments d) (d_vad d) s)
      as [->|[s1 [H1 ->]]]; [exact IH|].
    apply callback_well_formed. now rewrite H1.
Qed.

Lemma worth_saving_meaningful (post last_saved : str) :
  worth_saving post last_saved = true <-> meaningful (strip post) last_saved.
Proof.
  unfold worth_saving, meaningful. cbn [existsb].
  rewrite !andb_true_iff, !negb_true_iff, !orb_false_iff, !str_eqb_neq.
  tauto.
Qed.

(** C1. At a processed delivery in the waiting state, the detector goes into
    finalization exactly when the collection deadline is reached, or the time
    since the last change is at least the stability delay and the time since
    the trigger is at least 2 seconds.  A finalization leaves the detector
    idle, unless it is cut short by an exception; while the console can be
    written none is, and the detector is idle afterwards exactly when the
    condition held.  The deadline is absent when the window opens, is set to
    the time of the first such delivery plus 5 seconds, and stays as set
    while the detector waits; the last-change time is the time of this
    delivery when the segment count exceeds the count recorded at the
    previous change, and is the recorded one otherwise. *)
Theorem finalization_rule (E : env) (text : str) (segments : list segment)
    (s : session) :
  reachable float_of_str a s ->
  processed a E segments s ->
  let t := trigger s in
  let r := trigger_word_callback a E text (Some segments) s in
  let t' := trigger (fst r) in
  let count := List.length segments in
  (waiting t = false -> waiting t' = true -> max_collection_time t' = None)
  /\ (waiting t = true ->
      exists t0 tc,
        start_time t = Some t0 /\ last_change_time t = Some tc
        /\ let deadline := match max_collection_time t with
                           | Some d => d
                           | None => now E + seconds 5
                           end in
           let changed := (waiting_segment_count t <? count)%nat in
           let last_change := if changed then now E else tc in
           let due := deadline <= now E
                      \/ (text_stability_delay a <= now E - last_change
                          /\ seconds 2 <= now E - t0) in
           (finalizes r <-> due)
           /\ (console_write E = None -> (waiting t' = false <-> due))
           /\ (waiting t' = true ->
               max_collection_time t' = Some deadline
               /\ last_change_time t' = Some last_change
               /\ waiting_segment_count t' =
                  if changed then count else waiting_segment_count t)).
Proof.
  intros Hreach Hp. cbn zeta.
  pose proof (reachable_well_formed s Hreach) as Hwf.
  destruct Hwf as [Hw [Hidle [Hct Hsd]]]. split.
  - intros Hwait. rewrite (callback_idle E text segments s Hp Hwait).
    destruct (idle_branch_spec E segments s) as [-> _].
    destruct (scan_segments _ _ _) as [[i w]|]; cbn; [|congruence].
    intros _. now apply Hidle.
  - intros Hwait. destruct (Hw Hwait) as [w [t0 [tc [H1 [H2 [H3 H4]]]]]].
    exists t0, tc. split; [exact H2|]. split; [exact H3|].
    rewrite (callback_waiting E text segments s Hp Hwait). unfold finalizes.
    destruct (waiting_branch_spec E segments s w H1 H4) as [-> [-> _]].
    pose proof (due_iff (now E) (List.length segments) (trigger s) Hct) as Hdue.
    unfold finalization_due, deadline_at, last_change_at in Hdue.
    rewrite H2, H3, Hsd in Hdue. cbn [elapsed] in Hdue.
    assert (Hlc :
      elapsed (now E)
        (if (waiting_segment_count (trigger s) <? List.length segments)%nat
         then Some (now E) else Some tc)
      = now E - (if (waiting_segment_count (trigger s) <? List.length segments)%nat
                 then now E else tc)).
    { destruct (_ <? _)%nat; reflexivity. }
    rewrite Hlc in Hdue. clear Hlc.
    assert (Hwait' : waiting (refreshed (now E) (List.length segments)
                                (trigger s)) = true).
    { unfold refreshed. destruct (_ <? _)%nat; exact Hwait. }
    assert (Hkept :
      max_collection_time (refreshed (now E) (List.length segments) (trigger s))
      = Some match max_collection_time (trigger s) with
             | Some d => d
             | None => now E + seconds 5
             end
      /\ last_change_time (refreshed (now E) (List.length segments) (trigger s))
         = Some (if (waiting_segment_count (trigger s) <? List.length segments)%nat
                 then now E else tc)
      /\ waiting_segment_count
           (refreshed (now E) (List.length segments) (trigger s))
         = if (waiting_segment_count (trigger s) <? List.length segments)%nat
           then List.length segments else waiting_segment_count (trigger s)).
    { unfold refreshed. rewrite Hct. destruct (_ <? _)%nat; cbn; auto. }
    unfold cut_short, console_result, console_ok.
    destruct (due (now E) (List.length segments) (trigger s)) eqn:Hd;
      cbn [andb].
    + assert (Hyes : match max_collection_time (trigger s) with
                     | Some d => d
                     | None => now E + seconds 5
                     end <= now E
                     \/ text_stability_delay a <=
                        now E - (if (waiting_segment_count (trigger s)
                                     <? List.length segments)%nat
                                 then now E else tc)
                        /\ seconds 2 <= now E - t0) by now apply Hdue.
      split; [|split].
      * split; [intros _; exact Hyes|]. intros _.
        destruct (worth_saving _ _); cbn [andb negb].
        -- destruct (console_write E) as [e|]; cbn [negb].
           ++ right. now exists e.
           ++ left. destruct (save_succeeds E s); reflexivity.
        -- left. reflexivity.
      * intros ->. cbn [negb]. rewrite andb_false_r.
        split; [intros _; exact Hyes|]. intros _.
        destruct (_ && _); reflexivity.
      * destruct (worth_saving _ _); cbn [andb negb].
        -- destruct (console_write E) as [e|]; cbn [negb].
           ++ intros _. exact Hkept.
           ++ intros Habs. destruct (save_succeeds E s); discriminate Habs.
        -- intros Habs. discriminate Habs.
    + assert (Hno : ~ (match max_collection_time (trigger s) with
                       | Some d => d
                       | None => now E + seconds 5
                       end <= now E
                       \/ text_stability_delay a <=
                          now E - (if (waiting_segment_count (trigger s)
                                       <? List.length segments)%nat
                                   then now E else tc)
                          /\ seconds 2 <= now E - t0)).
      { intros Hrhs. apply Hdue in Hrhs. discriminate Hrhs. }
      split; [|split].
      * split; [|intros Hrhs; contradiction].
        intros [Habs|[e Habs]]; [congruence|discriminate Habs].
      * intros _. split; [congruence|intros Hrhs; contradiction].
      * intros _. exact Hkept.
Qed.

(** X24. While the console can be written, every finalization returns
    normally and leaves the detector idle: not waiting, no trigger word,
    index -1, no start time, no last-change time, no deadline, and the
    watermark at the current segment count, whatever the file writes do.
    When the write to the trigger output does not go through, the last saved
    text and the cooldown are as before, and so is the file unless the
    exception came after the entry was written. *)
Theorem finalization_resets (E : env) (text : str)
    (segments : list segment) (s : session) :
  reachable float_of_str a s ->
  processed a E segments s ->
  waiting (trigger s) = true ->
  finalization_due (now E) (List.length segments) (trigger s) ->
  console_write E = None ->
  let r := trigger_word_callback a E text (Some segments) s in
  let t' := trigger (fst r) in
  snd r = Returned tt
  /\ waiting t' = false /\ trigger_word t' = None
  /\ trigger_segment_index t' = -1
  /\ start_time t' = None /\ last_change_time t' = None
  /\ max_collection_time t' = None
  /\ last_processed_segment_count t' = List.length segments
  /\ (written (trigger_write E) = false ->
      last_saved_text t' = last_saved_text (trigger s)
      /\ cooldown_until t' = cooldown_until (trigger s))
  /\ (in_file (trigger_write E) = false ->
      trigger_output (fst r) = trigger_output s).
Proof.
  intros Hreach Hp Hwait Hdue Hconsole. cbn zeta.
  pose proof (reachable_well_formed s Hreach) as [Hw [_ [Hct _]]].
  destruct (Hw Hwait) as [w [t0 [tc [H1 [_ [_ H4]]]]]].
  apply (due_iff _ _ _ Hct) in Hdue.
  rewrite (callback_waiting E text segments s Hp Hwait).
  destruct (waiting_branch_spec E segments s w H1 H4) as [-> [-> ->]].
  rewrite Hdue. unfold cut_short, console_result, save_succeeds, console_ok.
  rewrite Hconsole. cbn [andb negb]. rewrite ?andb_false_r, ?andb_true_r.
  assert (Hkeep :
    last_saved_text (refreshed (now E) (List.length segments) (trigger s))
      = last_saved_text (trigger s)
    /\ cooldown_until (refreshed (now E) (List.length segments) (trigger s))
      = cooldown_until (trigger s)).
  { unfold refreshed. destruct (_ <? _)%nat; split; reflexivity. }
  destruct Hkeep as [Hl Hc].
  split; [now destruct (worth_saving _ _)|].
  do 7 (split; [try reflexivity; destruct (_ && _); reflexivity|]).
  split.
  - intros ->. cbn [andb]. rewrite andb_false_r. cbn. now split.
  - intros ->. now rewrite andb_false_r.
Qed.

(** C4. At a finalization the trimmed candidate is written to the trigger
    output and the cooldown opened only if it is not empty, is neither "."
    nor ",", and differs from the statement saved last; otherwise nothing is
    written and the last saved text and the cooldown stay as they were.  When
    it is so and the write, the messages on the console and the event log go
    through, one entry with the trimmed statement is appended, the last saved
    text becomes that statement and the cooldown ends 2 seconds after the
    delivery. *)
Theorem save_rule (E : env) (text : str) (segments : list segment)
    (s : session) :
  reachable float_of_str a s ->
  processed a E segments s ->
  waiting (trigger s) = true ->
  finalization_due (now E) (List.length segments) (trigger s) ->
  let t := trigger s in
  let s' := fst (trigger_word_callback a E text (Some segments) s) in
  let statement := strip (candidate t segments) in
  (~ meaningful statement (last_saved_text t) ->
   trigger_output s' = trigger_output s
   /\ last_saved_text (trigger s') = last_saved_text t
   /\ cooldown_until (trigger s') = cooldown_until t)
  /\ (trigger_output s' <> trigger_output s
      \/ cooldown_until (trigger s') <> cooldown_until t ->
      meaningful statement (last_saved_text t))
  /\ (meaningful statement (last_saved_text t) ->
      save_succeeds E s = true ->
      exists w,
        trigger_word t = Some w
        /\ trigger_output s' =
           (trigger_output s ++ [mkEntry (now E) w statement])%list
        /\ last_saved_text (trigger s') = statement
        /\ cooldown_until (trigger s') = Some (now E + seconds 2)).
Proof.
  intros Hreach Hp Hwait Hdue. cbn zeta.
  pose proof (reachable_well_formed s Hreach) as [Hw [_ [Hct _]]].
  destruct (Hw Hwait) as [w [t0 [tc [H1 [_ [_ H4]]]]]].
  apply (due_iff _ _ _ Hct) in Hdue.
  rewrite (callback_waiting E text segments s Hp Hwait).
  destruct (waiting_branch_spec E segments s w H1 H4) as [_ [-> ->]].
  rewrite Hdue. cbn [andb].
  assert (Hkeep :
    last_saved_text (refreshed (now E) (List.length segments) (trigger s))
      = last_saved_text (trigger s)
    /\ cooldown_until (refreshed (now E) (List.length segments) (trigger s))
      = cooldown_until (trigger s)).
  { unfold refreshed. destruct (_ <? _)%nat; split; reflexivity. }
  destruct Hkeep as [Hl Hc].
  pose proof (worth_saving_meaningful (candidate (trigger s) segments)
                (last_saved_text (trigger s))) as Hm.
  unfold cut_short.
  destruct (worth_saving _ _) eqn:Hworth; cbn [andb].
  - assert (Hyes : meaningful (strip (candidate (trigger s) segments))
                     (last_saved_text (trigger s))) by now apply Hm.
    split; [intros Hno; contradiction|]. split; [intros _; exact Hyes|].
    intros _ Hok. rewrite Hok. exists w. split; [exact H1|].
    unfold save_succeeds in Hok. rewrite !andb_true_iff in Hok.
    destruct Hok as [[Hwritten Hconsole] _]. rewrite Hconsole.
    destruct (trigger_write E); try discriminate Hwritten.
    cbn. auto.
  - assert (Hsame :
      trigger_output s = trigger_output s
      /\ last_saved_text (reset (List.length segments)
           (refreshed (now E) (List.length segments) (trigger s)))
         = last_saved_text (trigger s)
      /\ cooldown_until (reset (List.length segments)
           (refreshed (now E) (List.length segments) (trigger s)))
         = cooldown_until (trigger s)).
    { cbn. auto. }
    split; [intros _; exact Hsame|]. split.
    + destruct Hsame as [_ [_ Hcool]]. intros [Hout|Hcd]; [now elim Hout|].
      now elim Hcd.
    + intros Hyes. apply Hm in Hyes. discriminate.
Qed.





End TriggerFacts.

(** ** The callback boundary *)

Section RouterFacts.

Context {ucd : Unicode}.
Variable float_of_str : str -> option Q.
Variable a : args.

(** When the text log can be written, the handler records the error and
    prints it when its message mentions "critical"; it ends as that [print]
    does. *)
Lemma on_error_spec (E : env) (e : exn) (s : session) :
  text_write E = Written ->
  let critical := contains "critical" (lower (exn_msg e)) in
  let s' := fst (on_error E e s) in
  snd (on_error E e s) = (if critical then console_result E else Returned tt)
  /\ console s' =
       (console s ++ if critical && console_ok E
                     then [PCritical e] else [])%list
  /\ forall l,
       transcription_logger s = Some l ->
       exists l',
         transcription_logger s' = Some l'
         /\ text_log l' =
              (if enable_text l then text_log l ++ [TError e (verbose l)]
               else text_log l)%list.
Proof.
  intros Hw. unfold on_error, when, console_result, console_ok.
  run_session. rewrite Hw.
  destruct (transcription_logger s) as [l|] eqn:Hl; cbn.
  - destruct (enable_text l) eqn:Ht; cbn; rewrite ?Hl; cbn;
      destruct (contains "critical" (lower (exn_msg e))); cbn;
      try destruct (console_write E); cbn;
      rewrite ?app_nil_r;
      (split; [reflexivity|]); (split; [reflexivity|]);
      intros l0 [= <-]; rewrite ?Ht; eauto.
  - destruct (contains "critical" (lower (exn_msg e))); cbn;
      try destruct (console_write E); cbn;
      rewrite ?app_nil_r;
      (split; [reflexivity|]); (split; [reflexivity|]);
      intros l0 H0; discriminate H0.
Qed.

(** No exception leaves [combined_callback] while the text log and the
    console can be written. *)
Lemma callback_error_contained (E : env) (text : str)
    (segments : option (list segment)) (vad : option vad_event) (s : session) :
  text_write E = Written ->
  console_write E = None ->
  snd (combined_callback float_of_str a E text segments vad s) = Returned tt.
Proof.
  intros Hw Hc. unfold combined_callback, try_except.
  destruct (dispatch float_of_str a E text segments vad s) as [s1 [[]|e]];
    [reflexivity|].
  destruct (on_error_spec E e s1 Hw) as [-> _].
  unfold console_result. rewrite Hc. now destruct (contains _ _).
Qed.

End RouterFacts.

(** ** The specification on sample runs *)

Section SampleRuns.

#[local] Existing Instance sample_unicode.

Lemma listening_reachable : reachable decimal_of_str demo_args listening.
Proof. apply reach_deliver, reach_start. Qed.

Lemma finalization_rule_witness :
  let E := quiet (seconds 4) in
  reachable decimal_of_str demo_args listening
  /\ processed demo_args E heard listening
  /\ waiting (trigger (fst (trigger_word_callback demo_args E ""
                              (Some heard) listening))) = false.
Proof.
  intros E.
  assert (Hr : reachable decimal_of_str demo_args listening)
    by (apply reach_deliver, reach_start).
  assert (Hp : processed demo_args E heard listening)
    by (repeat split; discriminate).
  split; [exact Hr|]. split; [exact Hp|].
  destruct (finalization_rule decimal_of_str demo_args E "" heard listening
              Hr Hp) as [_ H].
  destruct (H eq_refl) as [t0 [tc [H0 [Hc [_ [Hiff _]]]]]].
  vm_compute in H0, Hc. injection H0 as <-. injection Hc as <-.
  apply (Hiff eq_refl). right. split; vm_compute; discriminate.
Defined.

Lemma finalization_resets_witness :
  let E := mkEnv (seconds 4) Written Written
             (Refused (mkExn "OSError" "disk full")) None false in
  let r := trigger_word_callback demo_args E "" (Some heard) listening in
  finalization_due (now E) (List.length heard) (trigger listening)
  /\ snd r = Returned tt
  /\ waiting (trigger (fst r)) = false
  /\ last_processed_segment_count (trigger (fst r)) = 2%nat
  /\ trigger_output (fst r) = [].
Proof.
  intros E r.
  assert (Hr : reachable decimal_of_str demo_args listening)
    by (apply reach_deliver, reach_start).
  assert (Hp : processed demo_args E heard listening)
    by (repeat split; discriminate).
  assert (Hd : finalization_due (now E) (List.length heard) (trigger listening))
    by (right; split; vm_compute; discriminate).
  split; [exact Hd|].
  destruct (finalization_resets decimal_of_str demo_args E "" heard listening
              Hr Hp eq_refl Hd eq_refl)
    as [H1 [H2 [_ [_ [_ [_ [_ [H8 [_ H10]]]]]]]]].
  split; [exact H1|]. split; [exact H2|]. split; [exact H8|].
  exact (H10 eq_refl).
Defined.

(** C7 on a session whose stdout is gone (the reader of a pipe has exited).
    The statement is written to the trigger output, the [print] that reports
    it raises, the [print] of the handler raises again, and the reset is
    skipped: the detector is still waiting, with the statement in the file
    and no cooldown.  [combined_callback] catches the exception, and the next
    delivery finalizes the same window and writes the statement once more. *)
Theorem finalization_cut_short :
  let gone := mkExn "BrokenPipeError" "[Errno 32] Broken pipe" in
  let E := mkEnv (seconds 4) Written Written Written (Some gone) false in
  let r := trigger_word_callback demo_args E "" (Some heard) listening in
  let entry := mkEntry (seconds 4) "hello" "world how are you" in
  finalization_due (now E) (List.length heard) (trigger listening)
  /\ snd r = Raised gone
  /\ waiting (trigger (fst r)) = true
  /\ trigger_word (trigger (fst r)) = Some "hello"
  /\ last_processed_segment_count (trigger (fst r)) = 0%nat
  /\ last_saved_text (trigger (fst r)) = ""
  /\ cooldown_until (trigger (fst r)) = None
  /\ trigger_output (fst r) = [entry]
  /\ (let s1 := deliver decimal_of_str demo_args
                  (mkDelivery E "" (Some heard) None) listening in
      let E2 := mkEnv (seconds 5) Written Written Written (Some gone) false in
      let s2 := deliver decimal_of_str demo_args
                  (mkDelivery E2 "" (Some heard) None) s1 in
      waiting (trigger s1) = true
      /\ trigger_output s1 = [entry]
      /\ trigger_output s2 = [entry; mkEntry (seconds 5) "hello" "world how are you"]).
Proof.
  cbn zeta. split; [right; split; vm_compute; discriminate|].
  vm_compute. repeat split; reflexivity.
Qed.

Lemma save_rule_witness :
  let E := quiet (seconds 4) in
  let s' := fst (trigger_word_callback demo_args E "" (Some heard) listening) in
  finalization_due (now E) (List.length heard) (trigger listening)
  /\ meaningful "world how are you" (last_saved_text (trigger listening))
  /\ last_saved_text (trigger s') = "world how are you"
  /\ cooldown_until (trigger s') = Some (seconds 6).
Proof.
  intros E s'.
  assert (Hr : reachable decimal_of_str demo_args listening)
    by (apply reach_deliver, reach_start).
  assert (Hp : processed demo_args E heard listening)
    by (repeat split; discriminate).
  assert (Hd : finalization_due (now E) (List.length heard) (trigger listening))
    by (right; split; vm_compute; discriminate).
  assert (Hm : meaningful "world how are you"
                 (last_saved_text (trigger listening)))
    by (repeat split; discriminate).
  split; [exact Hd|]. split; [exact Hm|].
  destruct (save_rule decimal_of_str demo_args E "" heard listening
              Hr Hp eq_refl Hd) as [_ [_ H]].
  destruct (H Hm eq_refl) as [w [_ [_ [Hs Hc]]]].
  split; [exact Hs | exact Hc].
Defined.




(** C8 on a session whose text log can no longer be written: the error of
    [log_segment] is caught, the handler's own write of it raises again, and
    that exception leaves [combined_callback]. *)
Theorem callback_error_escapes :
  let denied := mkExn "PermissionError" "[Errno 13] Permission denied" in
  let E := mkEnv (seconds 1) Written (Refused denied) Written None false in
  let s := initial_session demo_args 0 in
  snd (combined_callback decimal_of_str demo_args E "" (Some heard) None s)
  = Raised denied.
Proof. reflexivity. Qed.

End SampleRuns.

(** ** More about the logger *)

Lemma py_max_le_r (a b : Q) : (b <= py_max a b)%Q.
Proof.
  unfold py_max. destruct (Qle_bool b a) eqn:H.
  - now apply Qle_bool_iff.
  - apply Qle_refl.
Qed.

Lemma round_half_even_near (q : Q) :
  let k := round_half_even q in
  (- (1 # 2) <= inject_Z k - q <= 1 # 2)%Q
  /\ ((inject_Z k - q == 1 # 2)%Q \/ (q - inject_Z k == 1 # 2)%Q ->
      Z.even k = true).
Proof.
  cbn zeta. unfold round_half_even.
  pose proof (Qfloor_le q) as Hlow. pose proof (Qlt_floor q) as Hhigh.
  rewrite inject_Z_plus in Hhigh. change (inject_Z 1) with 1%Q in Hhigh.
  destruct (Qcompare (q - inject_Z (Qfloor q)) (1 # 2)) eqn:Hcmp.
  - apply Qeq_alt in Hcmp.
    destruct (Z.even (Qfloor q)) eqn:Heven.
    + split; [lra|]. intros _. exact Heven.
    + rewrite inject_Z_plus. change (inject_Z 1) with 1%Q.
      split; [lra|]. intros _. rewrite Z.even_add, Heven. reflexivity.
  - apply Qlt_alt in Hcmp. split; [lra|]. intros [H|H]; lra.
  - apply Qgt_alt in Hcmp. rewrite inject_Z_plus. change (inject_Z 1) with 1%Q.
    split; [lra|]. intros [H|H]; lra.
Qed.

Lemma round3_rounded (x : Q) : rounded3 x (round3 x).
Proof.
  exists (round_half_even (x * 1000)). split; [reflexivity|].
  apply round_half_even_near.
Qed.

Section LoggerInvariants.

Variable float_of_str : str -> option Q.

Lemma run_calls_invariant (P : logger -> Prop) :
  (forall c l, P l -> P (run_call float_of_str c l)) ->
  forall cs l, P l -> P (run_calls float_of_str cs l).
Proof.
  intros Hstep. induction cs as [|c cs IH]; intros l Hl; [exact Hl|].
  cbn. apply IH, Hstep, Hl.
Qed.

(** What a call of [log_segment] on a key not seen before leaves behind. *)
Lemma log_segment_fresh (E : env) (seg : segment) (l : logger) :
  key_in (key_of seg) (logged_segments l) = false ->
  let l' := fst (log_segment float_of_str E seg l) in
  logged_segments l' = key_of seg :: logged_segments l
  /\ total_segments (lstats l') = S (total_segments (lstats l))
  /\ (json_segments l' = json_segments l
      \/ exists info,
           json_segments l' = (json_segments l ++ [JSegment info])%list
           /\ si_segment_index info = total_segments (lstats l)
           /\ si_data info = seg
           /\ duration_ok float_of_str info (lstats l'))
  /\ (json_file l' = json_file l
      \/ json_file l' = Some (lstats l', json_segments l')
      \/ json_file l' = None).
Proof.
  intros Hfresh. unfold duration_ok. run_logger. rewrite Hfresh.
  repeat (break_match; cbn);
    (split; [reflexivity|]); (split; [reflexivity|]);
    (split; [first [left; reflexivity
                   | right; eexists; split; [reflexivity|];
                     split; [reflexivity|]; split; [reflexivity|];
                     cbn; intros d Hd; try discriminate Hd;
                     injection Hd as <-;
                     do 4 eexists;
                     repeat (split; [eassumption || reflexivity
                                     || apply round3_rounded|]);
                     apply py_max_le_r]
           | first [left; reflexivity | right; left; reflexivity
                   | right; right; reflexivity]]).
Qed.

Lemma event_call_shape (c : logger_call) (l : logger) :
  (forall E seg, c <> CallSegment E seg) ->
  let l' := run_call float_of_str c l in
  logged_segments l' = logged_segments l
  /\ total_segments (lstats l') = total_segments (lstats l)
  /\ (json_segments l' = json_segments l
      \/ exists t ev d,
           json_segments l' = (json_segments l ++ [JVadEvent t ev d])%list)
  /\ json_file l' = json_file l.
Proof.
  intros Hc. destruct c as [E seg|E ev d|E ev w st];
    [now elim (Hc E seg)| |]; cbn; run_logger;
    repeat (break_match; cbn); repeat split; eauto.
Qed.

Lemma stats_le_trans (s1 s2 s3 : stats) :
  stats_le s1 s2 -> stats_le s2 s3 -> stats_le s1 s3.
Proof.
  unfold stats_le. intros H1 H2.
  repeat match goal with H : _ /\ _ |- _ => destruct H end.
  repeat split; try lia. eapply Qle_trans; eassumption.
Qed.

Lemma segment_indices_app (items more : list json_item) :
  segment_indices (items ++ more) =
  (segment_indices items ++ segment_indices more)%list.
Proof.
  induction items as [|[info|t ev d] items IH]; cbn; congruence.
Qed.

Lemma increasing_below_weaken (n m : nat) (indices : list nat) :
  (n <= m)%nat -> increasing_below n indices -> increasing_below m indices.
Proof.
  intros Hle. induction indices as [|i rest IH]; cbn; [trivial|].
  intros [Hi [Hrest Hinc]]. repeat split; [lia|exact Hrest|now apply IH].
Qed.

Lemma increasing_below_snoc (n : nat) (indices : list nat) :
  increasing_below n indices -> increasing_below (S n) (indices ++ [n]).
Proof.
  induction indices as [|i rest IH]; cbn.
  - intros _. repeat split; [lia|intros j []].
  - intros [Hi [Hrest Hinc]]. repeat split; [lia| |now apply IH].
    intros j Hj. apply in_app_or in Hj as [Hj|[<-|[]]]; [now apply Hrest|lia].
Qed.

(** X1. The total counts each recorded key once. *)
Theorem recorded_keys_counted (cs : list logger_call) (json text verb : bool)
    (started : Z) :
  let l := run_calls float_of_str cs (new_logger json text verb started) in
  List.length (logged_segments l) = total_segments (lstats l)
  /\ distinct_keys (logged_segments l) = true.
Proof.
  cbn zeta.
  apply (run_calls_invariant
           (fun l => List.length (logged_segments l) = total_segments (lstats l)
                     /\ distinct_keys (logged_segments l) = true));
    [|split; reflexivity].
  intros c l [Hlen Hdist].
  destruct c as [E seg|E ev d|E ev w st].
  - cbn [run_call].
    destruct (key_in (key_of seg) (logged_segments l)) eqn:Hin.
    + rewrite (log_segment_skips float_of_str E seg l Hin). now split.
    + destruct (log_segment_fresh E seg l Hin) as [-> [-> _]].
      cbn [List.length distinct_keys]. rewrite Hin, Hdist. split; [lia|reflexivity].
  - destruct (event_call_shape (CallVadEvent E ev d) l) as [-> [-> _]];
      [discriminate|now split].
  - destruct (event_call_shape (CallTriggerEvent E ev w st) l) as [-> [-> _]];
      [discriminate|now split].
Qed.

(** X2. The segment entries of the JSON list carry strictly increasing
    indices, all below the total. *)
Theorem entry_indices_increase (cs : list logger_call) (json text verb : bool)
    (started : Z) :
  let l := run_calls float_of_str cs (new_logger json text verb started) in
  increasing_below (total_segments (lstats l))
    (segment_indices (json_segments l)).
Proof.
  cbn zeta.
  apply (run_calls_invariant
           (fun l => increasing_below (total_segments (lstats l))
                       (segment_indices (json_segments l))));
    [|exact I].
  intros c l Hinv.
  destruct c as [E seg|E ev d|E ev w st].
  - cbn [run_call].
    destruct (key_in (key_of seg) (logged_segments l)) eqn:Hin.
    + now rewrite (log_segment_skips float_of_str E seg l Hin).
    + destruct (log_segment_fresh E seg l Hin)
        as [_ [-> [[->|[info [-> [Hidx _]]]] _]]].
      * eapply increasing_below_weaken; [|exact Hinv]. lia.
      * rewrite segment_indices_app. cbn [segment_indices]. rewrite Hidx.
        now apply increasing_below_snoc.
  - destruct (event_call_shape (CallVadEvent E ev d) l)
      as [_ [-> [[->|[t [ev' [d' ->]]]] _]]]; [discriminate|exact Hinv|].
    rewrite segment_indices_app. cbn. now rewrite app_nil_r.
  - destruct (event_call_shape (CallTriggerEvent E ev w st) l)
      as [_ [-> [[->|[t [ev' [d' ->]]]] _]]]; [discriminate|exact Hinv|].
    rewrite segment_indices_app. cbn. now rewrite app_nil_r.
Qed.


(** X4. The JSON file never runs ahead of the logger: what it holds is a
    prefix of the entries in memory, with statistics no larger than the
    current ones. *)
Theorem json_file_behind (cs : list logger_call) (json text verb : bool)
    (started : Z) (st : stats) (items : list json_item) :
  let l := run_calls float_of_str cs (new_logger json text verb started) in
  json_file l = Some (st, items) ->
  (exists rest, json_segments l = (items ++ rest)%list)
  /\ stats_le st (lstats l).
Proof.
  cbn zeta. revert st items.
  apply (run_calls_invariant
           (fun l => forall st items,
              json_file l = Some (st, items) ->
              (exists rest, json_segments l = (items ++ rest)%list)
              /\ stats_le st (lstats l)));
    [|discriminate].
  intros c l Hinv st items Hfile.
  assert (Hold :
    json_file l = Some (st, items) ->
    (exists more, json_segments (run_call float_of_str c l) =
                  (json_segments l ++ more)%list) ->
    (exists rest, json_segments (run_call float_of_str c l) =
                  (items ++ rest)%list)
    /\ stats_le st (lstats (run_call float_of_str c l))).
  { intros Hf [more Hmore]. destruct (Hinv st items Hf) as [[rest Hrest] Hle].
    split.
    - exists (rest ++ more)%list. now rewrite Hmore, Hrest, app_assoc.
    - eapply stats_le_trans; [exact Hle|apply run_call_stats_le]. }
  destruct c as [E seg|E ev d|E ev w st0].
  - cbn [run_call] in *.
    destruct (key_in (key_of seg) (logged_segments l)) eqn:Hk.
    + rewrite (log_segment_skips float_of_str E seg l Hk) in *. now apply Hinv.
    + destruct (log_segment_fresh E seg l Hk)
        as [_ [_ [Hj [Hf|[Hf|Hf]]]]]; rewrite Hf in Hfile.
      * apply Hold; [exact Hfile|].
        destruct Hj as [->|[info [-> _]]]; [exists []; now rewrite app_nil_r|eauto].
      * injection Hfile as <- <-. split; [exists []; now rewrite app_nil_r|].
        apply stats_le_refl.
      * discriminate Hfile.
  - destruct (event_call_shape (CallVadEvent E ev d) l)
      as [_ [_ [Hj Hf]]]; [discriminate|]. rewrite Hf in Hfile.
    apply Hold; [exact Hfile|].
    destruct Hj as [->|[t [ev' [d' ->]]]]; [exists []; now rewrite app_nil_r|eauto].
  - destruct (event_call_shape (CallTriggerEvent E ev w st0) l)
      as [_ [_ [Hj Hf]]]; [discriminate|]. rewrite Hf in Hfile.
    apply Hold; [exact Hfile|].
    destruct Hj as [->|[t [ev' [d' ->]]]]; [exists []; now rewrite app_nil_r|eauto].
Qed.

(** X5. When JSON logging is on and [log_segment] returns an entry, the JSON
    file holds exactly the statistics and the entries of that moment. *)
Theorem json_file_current (E : env) (seg : segment) (l : logger)
    (info : segment_info) :
  enable_json l = true ->
  snd (log_segment float_of_str E seg l) = Returned (Some info) ->
  let l' := fst (log_segment float_of_str E seg l) in
  json_file l' = Some (lstats l', json_segments l')
  /\ In (JSegment info) (json_segments l').
Proof.
  intros Hj. run_logger. rewrite Hj.
  repeat (break_match; cbn); intros Hr; try discriminate Hr;
    injection Hr as <-; (split; [reflexivity|]);
    apply in_or_app; right; now left.
Qed.

End LoggerInvariants.

(** ** More about the trigger detector *)

Lemma if_logger_ledger (c : M logger unit) (s : session) :
  (forall l,
     trigger_words_detected (lstats (fst (c l))) = trigger_words_detected (lstats l)
     /\ trigger_statements_saved (lstats (fst (c l)))
        = trigger_statements_saved (lstats l)) ->
  ledger (fst (if_logger c s)) = ledger s.
Proof.
  intros Hc. unfold ledger, activations, savings, has_logger, if_logger.
  destruct (transcription_logger s) as [l|] eqn:Hl; cbn; [|now rewrite Hl].
  destruct (Hc l) as [H1 H2]. destruct (c l) as [l' r]. cbn in *.
  now rewrite H1, H2.
Qed.

Lemma rstrip_by_idem (p : char -> bool) (s : str) :
  rstrip_by p (rstrip_by p s) = rstrip_by p s.
Proof.
  induction s as [|c s IH]; [reflexivity|]. cbn [rstrip_by].
  destruct (rstrip_by p s) as [|d r] eqn:Hr.
  - destruct (p c) eqn:Hc; [reflexivity|]. cbn. now rewrite Hc.
  - cbn [rstrip_by] in *. now rewrite IH.
Qed.

Lemma lstrip_by_head (p : char -> bool) (s : str) :
  lstrip_by p s = EmptyString
  \/ exists c r, lstrip_by p s = String c r /\ p c = false.
Proof.
  induction s as [|c s IH]; [now left|]. cbn.
  destruct (p c) eqn:Hc; [exact IH|]. right. eauto.
Qed.

Lemma rstrip_by_head (p : char -> bool) (c : char) (r : str) :
  p c = false -> exists r', rstrip_by p (String c r) = String c r'.
Proof.
  intros Hc. cbn [rstrip_by]. destruct (rstrip_by p r); [rewrite Hc|]; eauto.
Qed.

(** A trimmed text has nothing left to trim. *)
Lemma strip_idem (s : str) : strip (strip s) = strip s.
Proof.
  unfold strip. destruct (lstrip_by_head is_space s) as [->|[c [r [-> Hc]]]];
    [reflexivity|].
  destruct (rstrip_by_head is_space c r Hc) as [r' Hr]. rewrite Hr.
  cbn [lstrip_by]. rewrite Hc, <- Hr. apply rstrip_by_idem.
Qed.

Section LedgerFacts.

Context {ucd : Unicode}.
Variable float_of_str : str -> option Q.
Variable a : args.

Lemma log_segment_trigger_counts (E : env) (seg : segment) (l : logger) :
  let l' := fst ((log_segment float_of_str E seg ;; ret tt) l) in
  trigger_words_detected (lstats l') = trigger_words_detected (lstats l)
  /\ trigger_statements_saved (lstats l') = trigger_statements_saved (lstats l).
Proof.
  cbn zeta. run_logger. repeat (break_match; cbn); split; reflexivity.
Qed.

Lemma log_vad_event_trigger_counts (E : env) (ev : option str) (d : details)
    (l : logger) :
  let l' := fst (log_vad_event E ev d l) in
  trigger_words_detected (lstats l') = trigger_words_detected (lstats l)
  /\ trigger_statements_saved (lstats l') = trigger_statements_saved (lstats l).
Proof.
  cbn zeta. run_logger. repeat (break_match; cbn); split; reflexivity.
Qed.

Lemma on_error_ledger (E : env) (e : exn) (s : session) :
  ledger (fst (on_error E e s)) = ledger s.
Proof.
  unfold ledger, activations, savings, has_logger, on_error, when.
  run_session.
  destruct (transcription_logger s) as [l|] eqn:Hl; cbn.
  - destruct (enable_text l); cbn; rewrite ?Hl; cbn;
      [destruct (text_write E); cbn|];
      destruct (contains "critical" (lower (exn_msg e))); cbn;
      try destruct (console_write E); cbn;
      rewrite ?Hl; reflexivity.
  - destruct (contains "critical" (lower (exn_msg e))); cbn;
      try destruct (console_write E); cbn;
      rewrite ?Hl; reflexivity.
Qed.

(** A delivery changes the ledger as the trigger detector does, if at all. *)
Lemma combined_ledger (E : env) (text : str)
    (segments : option (list segment)) (vad : option vad_event) (s : session) :
  let s' := fst (combined_callback float_of_str a E text segments vad s) in
  ledger s' = ledger s
  \/ (trigger_words a <> []
      /\ exists s1,
           ledger s1 = ledger s
           /\ ledger s' = ledger (fst (trigger_word_callback a E text segments s1))).
Proof.
  cbn zeta.
  assert (Hrest :
    forall c : M session unit,
      (forall s0, ledger (fst (c s0)) = ledger s0) ->
      forall r,
        r = (c ;; when (negb (is_empty (trigger_words a)))
                    (trigger_word_callback a E text segments)) s ->
        ledger (fst r) = ledger s
        \/ (trigger_words a <> []
            /\ exists s1,
                 ledger s1 = ledger s
                 /\ ledger (fst r) =
                    ledger (fst (trigger_word_callback a E text segments s1)))).
  { intros c Hc r ->. rewrite bind_fst.
    destruct (snd (c s)); [|left; apply Hc].
    unfold when. destruct (trigger_words a) as [|w ws] eqn:Hw; cbn.
    - left. apply Hc.
    - right. split; [discriminate|]. exists (fst (c s)).
      split; [apply Hc|reflexivity]. }
  assert (Hdispatch :
    ledger (fst (dispatch float_of_str a E text segments vad s)) = ledger s
    \/ (trigger_words a <> []
        /\ exists s1,
             ledger s1 = ledger s
             /\ ledger (fst (dispatch float_of_str a E text segments vad s)) =
                ledger (fst (trigger_word_callback a E text segments s1)))).
  { remember (dispatch float_of_str a E text segments vad s) as r eqn:Hr.
    unfold dispatch in Hr. unfold bind at 1, read at 1 in Hr.
    destruct vad as [v|]; destruct (transcription_logger s) as [l|].
    - left. subst r. apply if_logger_ledger. intros l0.
      apply log_vad_event_trigger_counts.
    - apply (Hrest (ret tt)); [reflexivity|exact Hr].
    - eapply Hrest; [|exact Hr]. intros s0.
      destruct segments as [segs|]; [|reflexivity].
      apply (for_each_frame ledger). intros seg s1. unfold when.
      destruct (get (seg_completed seg) false); [|reflexivity].
      apply if_logger_ledger. intros l0. apply log_segment_trigger_counts.
    - apply (Hrest (ret tt)); [reflexivity|exact Hr]. }
  unfold combined_callback, try_except.
  destruct (dispatch float_of_str a E text segments vad s) as [s1 [[]|e]];
    cbn [fst] in *; [exact Hdispatch|].
  now rewrite on_error_ledger.
Qed.

Lemma ledger_trigger (s1 s2 : session) :
  ledger s1 = ledger s2 -> trigger s1 = trigger s2.
Proof. unfold ledger. now intros [= -> _ _ _ _]. Qed.

(** A property of the ledger that the trigger detector keeps holds
    throughout a run. *)
Lemma reachable_ledger (P : session -> Prop) :
  (forall s1 s2, ledger s1 = ledger s2 -> P s1 -> P s2) ->
  (forall started, P (initial_session a started)) ->
  (forall E text segments s,
     trigger_words a <> [] -> well_formed a (trigger s) -> P s ->
     P (fst (trigger_word_callback a E text segments s))) ->
  forall s, reachable float_of_str a s -> P s.
Proof.
  intros Hledger Hinit Hstep s Hs.
  induction Hs as [started|s d Hs IH]; [apply Hinit|].
  pose proof (reachable_well_formed float_of_str a s Hs) as Hwf.
  unfold deliver.
  destruct (combined_ledger (d_env d) (d_text d) (d_segments d) (d_vad d) s)
    as [H|[Hw [s1 [H1 H2]]]].
  - apply (Hledger s); [now symmetry|exact IH].
  - apply (Hledger (fst (trigger_word_callback a (d_env d) (d_text d)
                           (d_segments d) s1))); [now symmetry|].
    apply Hstep; [exact Hw| |].
    + now rewrite (ledger_trigger s1 s H1).
    + apply (Hledger s); [now symmetry|exact IH].
Qed.

Lemma save_statement_counts (E : env) (word statement : str) (s : session) :
  let s' := fst (save_statement a E word statement s) in
  activations s' = activations s
  /\ has_logger s' = has_logger s
  /\ savings s' =
       if written (trigger_write E) && console_ok E && has_logger s
       then S (savings s) else savings s.
Proof.
  unfold activations, savings, has_logger, console_ok. run_session.
  destruct (trigger_write E), (console_write E); cbn;
    try (destruct (transcription_logger s); now auto);
    destruct (wsl_auto_type a), (wsl_typing_available a); cbn;
    (destruct (transcription_logger s) as [l|] eqn:Hl; cbn; rewrite ?Hl; [|auto]);
    destruct (enable_text l), (verbose l); cbn; auto;
    destruct (text_write E); cbn; auto.
Qed.

Lemma finalize_counts (E : env) (segments : list segment) (s : session)
    (w : str) :
  trigger_word (trigger s) = Some w ->
  0 <= trigger_segment_index (trigger s) ->
  let attempt := worth_saving (candidate (trigger s) segments)
                   (last_saved_text (trigger s)) in
  let s' := fst (finalize a E segments s) in
  activations s' = activations s
  /\ has_logger s' = has_logger s
  /\ savings s' =
       if attempt
          && (written (trigger_write E) && console_ok E && has_logger s)
       then S (savings s) else savings s.
Proof.
  intros Hw Hidx. unfold candidate. rewrite Hw. cbn [get].
  unfold finalize, bind, read, when, modify. cbn [fst snd].
  rewrite Hw. apply Z.leb_le in Hidx. rewrite Hidx.
  destruct (worth_saving _ _) eqn:Hattempt; cbn [andb].
  - pose proof (save_statement_counts E w
                  (strip (post_trigger_text w (trigger_segment_index (trigger s))
                            segments)) s) as [H1 [H2 H3]].
    destruct (save_statement a E w _ s) as [s1 [[]|e]]; cbn [fst snd] in *;
      auto.
  - cbn. auto.
Qed.

Lemma waiting_branch_counts (E : env) (segments : list segment) (s : session)
    (w : str) :
  trigger_word (trigger s) = Some w ->
  0 <= trigger_segment_index (trigger s) ->
  let attempt := worth_saving (candidate (trigger s) segments)
                   (last_saved_text (trigger s)) in
  let s' := fst (waiting_branch a E segments s) in
  activations s' = activations s
  /\ has_logger s' = has_logger s
  /\ savings s' =
       if due (now E) (List.length segments) (trigger s)
          && (attempt
              && (written (trigger_write E) && console_ok E && has_logger s))
       then S (savings s) else savings s.
Proof.
  intros Hw Hidx. cbn zeta. rewrite waiting_branch_eq. cbn zeta.
  destruct (due (now E) (List.length segments) (trigger s)); [|cbn; auto].
  set (s2 := on_trigger (refreshed (now E) (List.length segments)) s).
  assert (Hsame : trigger_word (trigger s2) = trigger_word (trigger s)
                  /\ trigger_segment_index (trigger s2) =
                     trigger_segment_index (trigger s)
                  /\ last_saved_text (trigger s2) = last_saved_text (trigger s)).
  { change (trigger s2)
      with (refreshed (now E) (List.length segments) (trigger s)).
    unfold refreshed.
    destruct (waiting_segment_count (trigger s) <? List.length segments)%nat;
      auto. }
  destruct Hsame as [Hw2 [Hi2 Hl2]].
  pose proof (finalize_counts E segments s2 w) as H.
  rewrite Hw2, Hi2 in H. specialize (H Hw Hidx). cbn zeta in H.
  unfold candidate in *. rewrite Hw2, Hi2, Hl2 in H.
  exact H.
Qed.


End LedgerFacts.

Section DetectorInvariants.

Context {ucd : Unicode}.
Variable float_of_str : str -> option Q.
Variable a : args.

Lemma refreshed_fields (current_time : Z) (count : nat) (t : trigger_state) :
  let t' := refreshed current_time count t in
  waiting t' = waiting t /\ trigger_word t' = trigger_word t
  /\ trigger_segment_index t' = trigger_segment_index t
  /\ start_time t' = start_time t
  /\ last_saved_text t' = last_saved_text t
  /\ cooldown_until t' = cooldown_until t
  /\ last_processed_segment_count t' = last_processed_segment_count t
  /\ (waiting_segment_count t <= waiting_segment_count t')%nat.
Proof.
  cbn zeta. unfold refreshed.
  destruct (waiting_segment_count t <? count)%nat eqn:Hlt; cbn;
    repeat split; try lia.
  apply Nat.ltb_lt in Hlt. lia.
Qed.

(** X6. Every entry of the trigger output holds a trimmed statement that is
    neither empty nor "." nor ",", under a configured trigger word; and an
    open window holds a configured word and an index at or above the
    watermark and below the segment count it has seen. *)
Theorem output_entries_sound (s : session) :
  reachable float_of_str a s ->
  (forall e, In e (trigger_output s) -> entry_ok a e)
  /\ window_ok a (trigger s).
Proof.
  apply (reachable_ledger float_of_str a
           (fun s => (forall e, In e (trigger_output s) -> entry_ok a e)
                     /\ window_ok a (trigger s))).
  - unfold ledger. intros s1 s2 [= Ht Ho _ _ _]. now rewrite Ht, Ho.
  - intros started. split; [intros e []|discriminate].
  - intros E text segments s0 _ Hwf [Hout Hwin].
    destruct (callback_cases a E text segments s0) as [->|[segs [-> Hp]]];
      [now split|].
    destruct (waiting (trigger s0)) eqn:Hwait.
    + rewrite (callback_waiting a E text segs s0 Hp Hwait).
      destruct (Hwin Hwait) as [w [i [Hw [Hin [Hidx Hrange]]]]].
      assert (Hi : 0 <= trigger_segment_index (trigger s0)) by lia.
      destruct (waiting_branch_spec a E segs s0 w Hw Hi) as [_ [-> ->]].
      destruct (refreshed_fields (now E) (List.length segs) (trigger s0))
        as [F1 [F2 [F3 [_ [_ [_ [F7 F8]]]]]]].
      split.
      * intros e He.
        destruct (due _ _ _); cbn [andb] in He; [|now apply Hout].
        destruct (worth_saving _ _) eqn:Hworth; cbn [andb] in He;
          [|now apply Hout].
        destruct (in_file (trigger_write E)); [|now apply Hout].
        apply in_app_or in He as [He|[<-|[]]]; [now apply Hout|].
        apply (worth_saving_meaningful float_of_str) in Hworth
          as [M1 [M2 [M3 _]]].
        unfold entry_ok. cbn [entry_statement entry_word].
        repeat split; trivial. apply strip_idem.
      * assert (Hopen : window_ok a (refreshed (now E) (List.length segs)
                                       (trigger s0))).
        { intros _. exists w, i. rewrite F2, F3, F7.
          repeat split; trivial; lia. }
        destruct (due _ _ _); [|exact Hopen].
        destruct (cut_short _ _ _); [exact Hopen|].
        destruct (_ && _); discriminate.
    + rewrite (callback_idle a E text segs s0 Hp Hwait).
      destruct (idle_branch_spec a E segs s0) as [-> [-> _]].
      split; [exact Hout|].
      pose proof (scan_first_match (trigger_words a)
                    (last_processed_segment_count (trigger s0)) segs) as Hscan.
      destruct (scan_segments _ _ _) as [[i w]|]; [|exact Hwin].
      destruct Hscan as [Hle [seg [Hn [[k [Hk _]] _]]]].
      intros _. exists w, i. cbn. repeat split; trivial.
      * eapply nth_error_In, Hk.
      * apply nth_error_Some. congruence.
Qed.


(** X8. Without trigger words the detector never leaves its initial state
    and nothing is written to the trigger output. *)
Theorem no_trigger_words_inert (s : session) :
  trigger_words a = [] ->
  reachable float_of_str a s ->
  trigger s = initial_trigger_state a /\ trigger_output s = [].
Proof.
  intros Hw. apply (reachable_ledger float_of_str a
    (fun s => trigger s = initial_trigger_state a /\ trigger_output s = [])).
  - unfold ledger. intros s1 s2 [= Ht Ho _ _ _]. now rewrite Ht, Ho.
  - intros started. now split.
  - intros E text segments s0 Hne. contradiction.
Qed.

Lemma callback_in_cooldown (E : env) (text : str)
    (segments : option (list segment)) (s : session) :
  in_cooldown (trigger s) (now E) = true ->
  trigger_word_callback a E text segments s = (s, Returned tt).
Proof.
  intros Hc. unfold trigger_word_callback.
  destruct segments as [segs|]; [|reflexivity].
  destruct (is_empty (trigger_words a) || is_empty segs); [reflexivity|].
  unfold bind, read. cbn. now rewrite Hc.
Qed.

Lemma callback_nothing_new (E : env) (text : str)
    (segments : list segment) (s : session) :
  waiting (trigger s) = false ->
  (List.length segments <= last_processed_segment_count (trigger s))%nat ->
  trigger_word_callback a E text (Some segments) s = (s, Returned tt).
Proof.
  intros Hwait Hlen. unfold trigger_word_callback.
  destruct (is_empty (trigger_words a) || is_empty segments); [reflexivity|].
  unfold bind at 1, read at 1. cbn [fst snd].
  destruct (in_cooldown (trigger s) (now E)); [reflexivity|].
  rewrite Hwait. unfold idle_branch, bind, read. cbn [fst snd].
  now rewrite (skipn_all2 _ Hlen).
Qed.

(** X9. While a window is open and finalization is not due, a processed
    delivery returns normally and leaves the window as it is: the detector
    keeps waiting with the same word, index and start time, opens no second
    window, counts no activation and writes nothing, whatever the segments
    say. *)
Theorem window_stable (E : env) (text : str) (segments : list segment)
    (s : session) :
  reachable float_of_str a s ->
  processed a E segments s ->
  waiting (trigger s) = true ->
  ~ finalization_due (now E) (List.length segments) (trigger s) ->
  let r := trigger_word_callback a E text (Some segments) s in
  let t' := trigger (fst r) in
  snd r = Returned tt
  /\ waiting t' = true
  /\ trigger_word t' = trigger_word (trigger s)
  /\ trigger_segment_index t' = trigger_segment_index (trigger s)
  /\ start_time t' = start_time (trigger s)
  /\ trigger_output (fst r) = trigger_output s
  /\ activations (fst r) = activations s
  /\ savings (fst r) = savings s.
Proof.
  intros Hreach Hp Hwait Hnot. cbn zeta.
  pose proof (reachable_well_formed float_of_str a s Hreach) as [Hw [_ [Hct _]]].
  destruct (Hw Hwait) as [w [t0 [tc [H1 [_ [_ H4]]]]]].
  assert (Hd : due (now E) (List.length segments) (trigger s) = false).
  { destruct (due _ _ _) eqn:Hd; [|reflexivity].
    elim Hnot. now apply (due_iff _ _ _ Hct). }
  rewrite (callback_waiting a E text segments s Hp Hwait).
  destruct (waiting_branch_spec a E segments s w H1 H4) as [-> [-> ->]].
  destruct (waiting_branch_counts a E segments s w H1 H4) as [-> [_ ->]].
  rewrite Hd. cbn [andb].
  destruct (refreshed_fields (now E) (List.length segments) (trigger s))
    as [F1 [F2 [F3 [F4 _]]]].
  rewrite F1, F2, F3, F4. auto 10.
Qed.

(** X10. After a statement is saved, every delivery earlier than two seconds
    after the save is ignored by the detector: the session stays exactly as
    the save left it. *)
Theorem cooldown_after_save (E : env) (text : str)
    (segments : list segment) (s : session)
    (E2 : env) (text2 : str) (segments2 : option (list segment)) :
  reachable float_of_str a s ->
  processed a E segments s ->
  waiting (trigger s) = true ->
  finalization_due (now E) (List.length segments) (trigger s) ->
  meaningful (strip (candidate (trigger s) segments))
    (last_saved_text (trigger s)) ->
  save_succeeds E s = true ->
  now E2 < now E + seconds 2 ->
  let s' := fst (trigger_word_callback a E text (Some segments) s) in
  trigger_word_callback a E2 text2 segments2 s' = (s', Returned tt).
Proof.
  intros Hreach Hp Hwait Hdue Hm Hok Hsoon. cbn zeta.
  pose proof (reachable_well_formed float_of_str a s Hreach) as [Hw [_ [Hct _]]].
  destruct (Hw Hwait) as [w [t0 [tc [H1 [_ [_ H4]]]]]].
  apply (due_iff _ _ _ Hct) in Hdue.
  apply (worth_saving_meaningful float_of_str) in Hm.
  apply callback_in_cooldown.
  rewrite (callback_waiting a E text segments s Hp Hwait).
  destruct (waiting_branch_spec a E segments s w H1 H4) as [_ [-> _]].
  assert (Hcut : cut_short E (trigger s) segments = false).
  { unfold cut_short. unfold save_succeeds in Hok.
    rewrite !andb_true_iff in Hok. destruct Hok as [[_ ->] _].
    now rewrite andb_false_r. }
  rewrite Hdue, Hcut, Hm, Hok. unfold in_cooldown. cbn.
  now apply Z.ltb_lt.
Qed.

(** X11. What a finalization has consumed is never scanned again: after a
    finalization that ran to its end, a delivery of no more segments than
    were present then opens no window and changes nothing, whatever the texts
    of the segments have become. *)
Theorem consumed_never_rescanned (E : env) (text : str)
    (segments : list segment) (s : session)
    (E2 : env) (text2 : str) (segments2 : list segment) :
  reachable float_of_str a s ->
  processed a E segments s ->
  waiting (trigger s) = true ->
  finalization_due (now E) (List.length segments) (trigger s) ->
  snd (trigger_word_callback a E text (Some segments) s) = Returned tt ->
  (List.length segments2 <= List.length segments)%nat ->
  let s' := fst (trigger_word_callback a E text (Some segments) s) in
  trigger_word_callback a E2 text2 (Some segments2) s' = (s', Returned tt).
Proof.
  intros Hreach Hp Hwait Hdue Hret Hlen. cbn zeta.
  pose proof (reachable_well_formed float_of_str a s Hreach) as [Hw [_ [Hct _]]].
  destruct (Hw Hwait) as [w [t0 [tc [H1 [_ [_ H4]]]]]].
  apply (due_iff _ _ _ Hct) in Hdue.
  assert (Hafter :
    waiting (trigger (fst (trigger_word_callback a E text (Some segments) s)))
      = false
    /\ last_processed_segment_count
         (trigger (fst (trigger_word_callback a E text (Some segments) s)))
       = List.length segments).
  { rewrite (callback_waiting a E text segments s Hp Hwait) in *.
    destruct (waiting_branch_spec a E segments s w H1 H4) as [Hsnd [-> _]].
    rewrite Hsnd, Hdue in *. unfold cut_short, console_result, console_ok in *.
    destruct (worth_saving _ _); cbn [andb] in *.
    - destruct (console_write E); [discriminate Hret|]. cbn [negb].
      destruct (save_succeeds E s); split; reflexivity.
    - split; reflexivity. }
  destruct Hafter as [Hidle Hmark].
  apply callback_nothing_new; [exact Hidle|]. now rewrite Hmark.
Qed.

End DetectorInvariants.

(** ** More about the router *)

Lemma keeps_bind {X A B : Type} (view : session -> X) (c : M session A)
    (k : A -> M session B) :
  keeps view c -> (forall x, keeps view (k x)) -> keeps view (bind c k).
Proof.
  intros Hc Hk s. rewrite bind_fst.
  destruct (snd (c s)); [rewrite Hk|]; apply Hc.
Qed.

Lemma keeps_read_bind {X B : Type} (view : session -> X)
    (k : session -> M session B) :
  (forall x, keeps view (k x)) -> keeps view (bind read k).
Proof. intros Hk. apply keeps_bind; [intros s; reflexivity|exact Hk]. Qed.

Lemma keeps_try {X A : Type} (view : session -> X) (c : M session A)
    (h : exn -> M session A) :
  keeps view c -> (forall e, keeps view (h e)) -> keeps view (try_except c h).
Proof.
  intros Hc Hh s. unfold try_except.
  pose proof (Hc s) as H. destruct (c s) as [s1 [x|e]]; cbn [fst] in *;
    [exact H|]. now rewrite Hh.
Qed.

Lemma keeps_when {X : Type} (view : session -> X) (b : bool)
    (c : M session unit) :
  keeps view c -> keeps view (when b c).
Proof. intros Hc. destruct b; [exact Hc|intros s; reflexivity]. Qed.

Lemma keeps_for_each {X A : Type} (view : session -> X) (items : list A)
    (body : A -> M session unit) :
  (forall x, keeps view (body x)) -> keeps view (for_each items body).
Proof. intros Hb s. now apply for_each_frame. Qed.

Lemma keeps_books_trigger (f : trigger_state -> trigger_state) :
  keeps segment_books (modify (on_trigger f)).
Proof. intros s. reflexivity. Qed.

Lemma keeps_books_print (E : env) (p : console_line) :
  keeps segment_books (print E p).
Proof. intros s. unfold print. destruct (console_write E); reflexivity. Qed.

Lemma keeps_books_output (outcome : write_outcome) (e : trigger_entry) :
  keeps segment_books (append_file outcome (append_output e)).
Proof.
  intros s. unfold append_file, write_file. destruct outcome; reflexivity.
Qed.

Lemma keeps_books_logger (c : M logger unit) :
  (forall l,
     logged_segments (fst (c l)) = logged_segments l
     /\ segment_counts (lstats (fst (c l))) = segment_counts (lstats l)
     /\ json_segments (fst (c l)) = json_segments l
     /\ json_file (fst (c l)) = json_file l) ->
  keeps segment_books (if_logger c).
Proof.
  intros Hc s. unfold segment_books, if_logger.
  destruct (transcription_logger s) as [l|] eqn:Hl; cbn; [|now rewrite Hl].
  destruct (Hc l) as [H1 [H2 [H3 H4]]]. destruct (c l) as [l' r]. cbn in *.
  now rewrite H1, H2, H3, H4.
Qed.

Lemma keeps_books_trigger_event (E : env) (ev : str)
    (w st : option str) :
  keeps segment_books (if_logger (log_trigger_event E ev w st)).
Proof.
  apply keeps_books_logger. intros l. unfold segment_counts. run_logger.
  repeat (break_match; cbn); auto.
Qed.

Lemma keeps_books_error_log (E : env) (b : text_block) :
  keeps segment_books (if_logger (append_file (text_write E) (append_text b))).
Proof.
  apply keeps_books_logger. intros l. unfold append_file, write_file.
  destruct (text_write E); cbn; auto.
Qed.

Section RouterInvariants.

Context {ucd : Unicode}.
Variable float_of_str : str -> option Q.
Variable a : args.

Lemma save_statement_keeps_books (E : env) (w st : str) :
  keeps segment_books (save_statement a E w st).
Proof.
  unfold save_statement. apply keeps_try.
  - apply keeps_bind; [apply keeps_books_output|intros _].
    apply keeps_bind; [apply keeps_books_print|intros _].
    apply keeps_bind.
    + destruct (wsl_auto_type a && wsl_typing_available a).
      * apply keeps_try; [|intros e; apply keeps_books_print].
        apply keeps_bind; [apply keeps_books_print|intros _].
        apply keeps_books_print.
      * apply keeps_when, keeps_books_print.
    + intros _. apply keeps_bind; [apply keeps_books_trigger_event|intros _].
      apply keeps_books_trigger.
  - intros e. apply keeps_books_print.
Qed.

Lemma finalize_keeps_books (E : env) (segments : list segment) :
  keeps segment_books (finalize a E segments).
Proof.
  unfold finalize. apply keeps_read_bind. intros s0.
  apply keeps_bind; [|intros _; apply keeps_books_trigger].
  apply keeps_when. destruct (trigger_word (trigger s0)); [|intros s; reflexivity].
  apply keeps_when, save_statement_keeps_books.
Qed.

(** The trigger detector leaves the segment records alone. *)
Lemma callback_keeps_books (E : env) (text : str)
    (segments : option (list segment)) :
  keeps segment_books (trigger_word_callback a E text segments).
Proof.
  unfold trigger_word_callback.
  destruct segments as [segs|]; [|intros s; reflexivity].
  destruct (is_empty (trigger_words a) || is_empty segs);
    [intros s; reflexivity|].
  apply keeps_read_bind. intros s0.
  destruct (in_cooldown (trigger s0) (now E)); [intros s; reflexivity|].
  destruct (waiting (trigger s0)).
  - unfold waiting_branch. apply keeps_read_bind. intros s1.
    apply keeps_bind; [apply keeps_books_trigger|intros _].
    apply keeps_bind; [apply keeps_when, keeps_books_trigger|intros _].
    apply keeps_read_bind. intros s2.
    apply keeps_when, finalize_keeps_books.
  - unfold idle_branch. apply keeps_read_bind. intros s1.
    destruct (scan_segments _ _ _) as [[i w]|]; [|intros s; reflexivity].
    apply keeps_bind; [apply keeps_books_trigger|intros _].
    apply keeps_bind; [apply keeps_books_trigger_event|intros _].
    apply keeps_books_print.
Qed.

Lemma on_error_keeps_books (E : env) (e : exn) :
  keeps segment_books (on_error E e).
Proof.
  unfold on_error. apply keeps_read_bind. intros s0.
  apply keeps_bind; [|intros _; apply keeps_when, keeps_books_print].
  destruct (transcription_logger s0) as [l|]; [|intros s; reflexivity].
  apply keeps_when, keeps_books_error_log.
Qed.

(** Without a VAD sub-event, [dispatch] is the loop and then the detector. *)
Lemma dispatch_segments (E : env) (text : str) (segments : list segment)
    (s : session) :
  dispatch float_of_str a E text (Some segments) None s =
  (log_completed float_of_str E segments ;;
   when (negb (is_empty (trigger_words a)))
     (trigger_word_callback a E text (Some segments))) s.
Proof.
  unfold dispatch. unfold bind at 1, read at 1. cbn [fst snd].
  destruct (transcription_logger s) as [l|] eqn:Hl; [reflexivity|].
  assert (Hloop : forall segs,
            log_completed float_of_str E segs s = (s, Returned tt)).
  { unfold log_completed. induction segs as [|seg segs IH]; [reflexivity|].
    cbn [for_each].
    assert (Hb : when (get (seg_completed seg) false)
                   (if_logger (log_segment float_of_str E seg ;; ret tt)) s
                 = (s, Returned tt)).
    { unfold when. destruct (get (seg_completed seg) false); [|reflexivity].
      unfold if_logger. now rewrite Hl. }
    now rewrite (bind_returned _ _ _ _ _ Hb). }
  rewrite (bind_returned _ _ _ _ _ (Hloop segments)).
  now rewrite (bind_returned (ret tt) _ s s tt eq_refl).
Qed.

Lemma bind_snd {S A B : Type} (c : M S A) (k : A -> M S B) (s : S) :
  snd (bind c k s) =
  match snd (c s) with
  | Returned x => snd (k x (fst (c s)))
  | Raised e => Raised e
  end.
Proof. unfold bind. destruct (c s) as [s' [x|e]]; reflexivity. Qed.

Lemma books_recorded (s1 s2 : session) :
  segment_books s1 = segment_books s2 -> recorded s1 = recorded s2.
Proof.
  unfold segment_books, recorded.
  destruct (transcription_logger s1), (transcription_logger s2); cbn;
    intros H; try discriminate H; [|reflexivity].
  now injection H.
Qed.

(** One round of the loop on a completed segment, with a logger. *)
Lemma log_body_step (E : env) (seg : segment) (s : session) (l : logger) :
  transcription_logger s = Some l ->
  if_logger (log_segment float_of_str E seg ;; ret tt) s
  = (set_logger (fst (log_segment float_of_str E seg l)) s,
     match snd (log_segment float_of_str E seg l) with
     | Returned _ => Returned tt
     | Raised e => Raised e
     end).
Proof.
  intros Hl. unfold if_logger. rewrite Hl.
  unfold bind, ret. destruct (log_segment float_of_str E seg l) as [l' [x|e]];
    reflexivity.
Qed.

Lemma log_body_keeps_keys (E : env) (seg : segment) (s : session)
    (k : segment_key) :
  let body := when (get (seg_completed seg) false)
                (if_logger (log_segment float_of_str E seg ;; ret tt)) in
  key_in k (recorded s) = true ->
  key_in k (recorded (fst (body s))) = true
  /\ has_logger (fst (body s)) = has_logger s.
Proof.
  cbn zeta. intros Hk. unfold when.
  destruct (get (seg_completed seg) false); [|now split].
  destruct (transcription_logger s) as [l|] eqn:Hl.
  - rewrite (log_body_step E seg s l Hl). unfold recorded, has_logger in *.
    rewrite Hl in *. cbn [fst set_logger transcription_logger].
    split; [|reflexivity].
    exact (run_call_keeps_keys float_of_str (CallSegment E seg) k l Hk).
  - unfold if_logger. now rewrite Hl.
Qed.

Lemma loop_keeps_keys (E : env) (segments : list segment) (k : segment_key) :
  forall s,
    key_in k (recorded s) = true ->
    key_in k (recorded (fst (log_completed float_of_str E segments s))) = true.
Proof.
  unfold log_completed. induction segments as [|seg rest IH]; intros s Hk;
    [exact Hk|].
  cbn [for_each]. rewrite bind_fst.
  destruct (log_body_keeps_keys E seg s k Hk) as [Hk' _].
  destruct (snd _); [now apply IH|exact Hk'].
Qed.

Lemma loop_records (E : env) (segments : list segment) :
  forall s,
    has_logger s = true ->
    snd (log_completed float_of_str E segments s) = Returned tt ->
    forall seg,
      In seg segments -> get (seg_completed seg) false = true ->
      key_in (key_of seg)
        (recorded (fst (log_completed float_of_str E segments s))) = true.
Proof.
  unfold log_completed. induction segments as [|seg0 rest IH];
    intros s Hlog Hret seg Hin Hc; [destruct Hin|].
  cbn [for_each] in *. rewrite bind_snd in Hret. rewrite bind_fst.
  unfold has_logger in Hlog.
  destruct (transcription_logger s) as [l|] eqn:Hl; [|discriminate Hlog].
  assert (Hb :
    exists r,
      when (get (seg_completed seg0) false)
        (if_logger (log_segment float_of_str E seg0 ;; ret tt)) s
      = (if get (seg_completed seg0) false
         then set_logger (fst (log_segment float_of_str E seg0 l)) s else s, r)).
  { unfold when. destruct (get (seg_completed seg0) false); [|now eexists].
    rewrite (log_body_step E seg0 s l Hl). now eexists. }
  destruct Hb as [r Hb]. rewrite Hb in *. cbn [fst snd] in *.
  destruct r as [[]|e]; [|discriminate Hret].
  destruct Hin as [<-|Hin].
  - rewrite Hc. apply loop_keeps_keys. unfold recorded. cbn.
    apply log_segment_records_key.
  - apply IH; trivial.
    unfold has_logger. destruct (get (seg_completed seg0) false); [reflexivity|].
    now rewrite Hl.
Qed.

Lemma loop_nothing_new (E : env) (segments : list segment) :
  forall s,
    (forall seg, In seg segments -> get (seg_completed seg) false = true ->
                 key_in (key_of seg) (recorded s) = true) ->
    segment_books (fst (log_completed float_of_str E segments s))
    = segment_books s.
Proof.
  unfold log_completed. induction segments as [|seg0 rest IH]; intros s Hall;
    [reflexivity|].
  cbn [for_each]. rewrite bind_fst.
  assert (Hb : segment_books
                 (fst (when (get (seg_completed seg0) false)
                         (if_logger (log_segment float_of_str E seg0 ;; ret tt))
                         s)) = segment_books s).
  { specialize (Hall seg0 (or_introl eq_refl)). unfold when.
    destruct (get (seg_completed seg0) false); [|reflexivity].
    destruct (transcription_logger s) as [l|] eqn:Hl.
    - rewrite (log_body_step E seg0 s l Hl).
      assert (Hk : key_in (key_of seg0) (logged_segments l) = true).
      { specialize (Hall eq_refl). unfold recorded in Hall.
        now rewrite Hl in Hall. }
      rewrite (log_segment_skips float_of_str E seg0 l Hk).
      unfold segment_books. cbn. now rewrite Hl.
    - unfold if_logger. now rewrite Hl. }
  destruct (snd _); [|exact Hb].
  rewrite IH; [exact Hb|].
  intros seg Hin Hc. rewrite (books_recorded _ _ Hb). apply Hall; [now right|exact Hc].
Qed.

(** A delivery whose completed segments are all recorded already leaves the
    segment records as they are. *)
Lemma delivery_nothing_new (E : env) (text : str)
    (segments : list segment) (s : session) :
  (forall seg, In seg segments -> get (seg_completed seg) false = true ->
               key_in (key_of seg) (recorded s) = true) ->
  segment_books
    (fst (combined_callback float_of_str a E text (Some segments) None s))
  = segment_books s.
Proof.
  intros Hall.
  assert (Hd : segment_books
                 (fst (dispatch float_of_str a E text (Some segments) None s))
               = segment_books s).
  { rewrite dispatch_segments, bind_fst.
    pose proof (loop_nothing_new E segments s Hall) as Hloop.
    destruct (snd _); [|exact Hloop].
    rewrite (keeps_when segment_books _ _
               (callback_keeps_books E text (Some segments))).
    exact Hloop. }
  unfold combined_callback, try_except.
  destruct (dispatch float_of_str a E text (Some segments) None s)
    as [s1 [[]|e]]; cbn [fst] in *; [exact Hd|].
  now rewrite on_error_keeps_books.
Qed.

Lemma delivery_records (E : env) (text : str)
    (segments : list segment) (s : session) (seg : segment) :
  has_logger s = true ->
  snd (dispatch float_of_str a E text (Some segments) None s) = Returned tt ->
  In seg segments ->
  get (seg_completed seg) false = true ->
  key_in (key_of seg)
    (recorded (fst (combined_callback float_of_str a E text (Some segments)
                      None s))) = true.
Proof.
  intros Hlog Hret Hin Hc.
  assert (Hs : fst (combined_callback float_of_str a E text (Some segments)
                      None s)
               = fst (dispatch float_of_str a E text (Some segments) None s)).
  { unfold combined_callback, try_except.
    destruct (dispatch float_of_str a E text (Some segments) None s)
      as [s1 [[]|e]]; [reflexivity|discriminate Hret]. }
  rewrite Hs. rewrite dispatch_segments in *.
  rewrite bind_snd in Hret. rewrite bind_fst.
  destruct (snd (log_completed float_of_str E segments s)) as [[]|e] eqn:Hloop;
    [|discriminate Hret].
  rewrite (books_recorded _ (fst (log_completed float_of_str E segments s))).
  - apply loop_records; trivial.
  - apply keeps_when, callback_keeps_books.
Qed.

(** X12. When the body of the [try] completes, every completed segment of
    the delivery is among the recorded keys. *)
Theorem completed_segments_recorded (E : env) (text : str)
    (segments : list segment) (s : session) (seg : segment) :
  has_logger s = true ->
  snd (dispatch float_of_str a E text (Some segments) None s) = Returned tt ->
  In seg segments ->
  seg_completed seg = Some true ->
  key_in (key_of seg)
    (recorded (fst (combined_callback float_of_str a E text (Some segments)
                      None s))) = true.
Proof.
  intros Hlog Hret Hin Hc.
  apply (delivery_records E text segments s seg Hlog Hret Hin).
  now rewrite Hc.
Qed.

(** X13. Segments not marked completed are never recorded: a delivery
    without a completed segment leaves the recorded keys, the segment
    statistics, the JSON list and the JSON file as they were. *)
Theorem partial_segments_ignored (E : env) (text : str)
    (segments : list segment) (s : session) :
  (forall seg, In seg segments -> get (seg_completed seg) false = false) ->
  segment_books
    (fst (combined_callback float_of_str a E text (Some segments) None s))
  = segment_books s.
Proof.
  intros Hnone. apply delivery_nothing_new.
  intros seg Hin Hc. rewrite (Hnone seg Hin) in Hc. discriminate Hc.
Qed.

(** X14. The source delivers the whole list every time: once a delivery has
    gone through, delivering the same list again, at any time and whatever
    the writes do, records nothing and counts nothing. *)
Theorem redelivery_counts_once (E1 E2 : env) (text1 text2 : str)
    (segments : list segment) (s : session) :
  has_logger s = true ->
  snd (dispatch float_of_str a E1 text1 (Some segments) None s) = Returned tt ->
  let s1 := fst (combined_callback float_of_str a E1 text1 (Some segments)
                   None s) in
  segment_books
    (fst (combined_callback float_of_str a E2 text2 (Some segments) None s1))
  = segment_books s1.
Proof.
  intros Hlog Hret. cbn zeta. apply delivery_nothing_new.
  intros seg Hin Hc.
  now apply (delivery_records E1 text1 segments s seg).
Qed.

(** X15. A delivery whose segment list is [None]: with a logger the loop
    raises TypeError, which is caught; while the text log can be written the
    callback returns, the error is appended to the text log when text logging
    is on, nothing is printed, and the trigger state, the counters and the
    segment records are untouched.  Without a logger the delivery is a
    no-op. *)
Theorem none_segments_contained (E : env) (text : str) (s : session) :
  text_write E = Written ->
  let r := combined_callback float_of_str a E text None None s in
  snd r = Returned tt
  /\ ledger (fst r) = ledger s
  /\ segment_books (fst r) = segment_books s
  /\ console (fst r) = console s
  /\ forall l,
       transcription_logger s = Some l ->
       exists l',
         transcription_logger (fst r) = Some l'
         /\ text_log l' =
              (if enable_text l then text_log l ++ [TError type_error (verbose l)]
               else text_log l)%list.
Proof.
  intros Hw. cbn zeta.
  assert (Hd : dispatch float_of_str a E text None None s =
               match transcription_logger s with
               | Some _ => (s, Raised type_error)
               | None => (s, Returned tt)
               end).
  { unfold dispatch. unfold bind at 1, read at 1. cbn [fst snd].
    destruct (transcription_logger s).
    - now rewrite (bind_raised (raise type_error) _ s s type_error eq_refl).
    - rewrite (bind_returned (ret tt) _ s s tt eq_refl).
      unfold when. now destruct (negb (is_empty (trigger_words a))). }
  unfold combined_callback, try_except. rewrite Hd.
  destruct (transcription_logger s) as [l|] eqn:Hl.
  - destruct (on_error_spec E type_error s Hw) as [H1 [H2 H3]].
    change (contains "critical" (lower (exn_msg type_error))) with false
      in H1, H2.
    split; [exact H1|]. split; [apply on_error_ledger|].
    split; [apply on_error_keeps_books|]. split.
    + rewrite H2. apply app_nil_r.
    + intros l0 [= <-]. now apply H3.
  - cbn. repeat split. intros l0 H0. discriminate H0.
Qed.

(** X16. While the text log and the console can be written, no exception
    leaves [combined_callback]: an error of the dispatch is appended to the
    text log when text logging is on, and the handler leaves the trigger
    state, the counters and the segment records as the dispatch left them. *)
Theorem errors_contained (E : env) (text : str)
    (segments : option (list segment)) (vad : option vad_event) (s : session) :
  text_write E = Written ->
  console_write E = None ->
  let d := dispatch float_of_str a E text segments vad s in
  let r := combined_callback float_of_str a E text segments vad s in
  snd r = Returned tt
  /\ ledger (fst r) = ledger (fst d)
  /\ segment_books (fst r) = segment_books (fst d)
  /\ match snd d with
     | Returned _ => fst r = fst d
     | Raised e =>
         forall l,
           transcription_logger (fst d) = Some l ->
           exists l',
             transcription_logger (fst r) = Some l'
             /\ text_log l' =
                  (if enable_text l
                   then text_log l ++ [TError e (verbose l)]
                   else text_log l)%list
     end.
Proof.
  intros Hw Hc. cbn zeta.
  split; [now apply callback_error_contained|].
  unfold combined_callback, try_except.
  destruct (dispatch float_of_str a E text segments vad s) as [s1 [[]|e]];
    cbn [fst snd]; [auto|].
  destruct (on_error_spec E e s1 Hw) as [_ [_ H3]].
  split; [apply on_error_ledger|]. split; [apply on_error_keeps_books|].
  exact H3.
Qed.

(** X25. An exception leaves [combined_callback] only when the dispatch
    raised and the handler's own write to the text log or its own [print]
    raised in turn; it is the exception of that write or [print]. *)
Theorem escaped_from_handler (E : env) (text : str)
    (segments : option (list segment)) (vad : option vad_event) (s : session)
    (e : exn) :
  snd (combined_callback float_of_str a E text segments vad s) = Raised e ->
  (exists e0, snd (dispatch float_of_str a E text segments vad s) = Raised e0)
  /\ (text_write E = Refused e \/ text_write E = Cut e \/ text_write E = Late e
      \/ console_write E = Some e).
Proof.
  unfold combined_callback, try_except.
  destruct (dispatch float_of_str a E text segments vad s) as [s1 [[]|e0]];
    cbn [snd]; [discriminate|].
  intros H. split; [now exists e0|]. revert H.
  unfold on_error, when. run_session.
  destruct (transcription_logger s1) as [l|] eqn:Hl; cbn;
    [destruct (enable_text l); cbn; rewrite ?Hl; cbn;
       [destruct (text_write E); cbn|]|];
    destruct (contains "critical" (lower (exn_msg e0))); cbn;
    try destruct (console_write E); cbn;
    intros H; try discriminate H; injection H as <-; auto.
Qed.

End RouterInvariants.

(** ** The typing service and its client *)

Lemma append_assoc (s t u : str) : ((s ++ t) ++ u = s ++ (t ++ u))%str.
Proof. induction s as [|c s IH]; cbn; congruence. Qed.

Lemma append_empty_r (s : str) : (s ++ "" = s)%str.
Proof. induction s as [|c s IH]; cbn; congruence. Qed.

Lemma replace_char_app (c : char) (replacement s t : str) :
  replace_char c replacement (s ++ t) =
  (replace_char c replacement s ++ replace_char c replacement t)%str.
Proof.
  induction s as [|d s IH]; [reflexivity|]. cbn. now rewrite IH, append_assoc.
Qed.

Lemma replace_all_app (rules : list (char * str)) :
  forall s t,
    fold_left (fun escaped rule => replace_char (fst rule) (snd rule) escaped)
      rules (s ++ t)%str =
    (fold_left (fun escaped rule => replace_char (fst rule) (snd rule) escaped)
       rules s
     ++ fold_left (fun escaped rule => replace_char (fst rule) (snd rule) escaped)
          rules t)%str.
Proof.
  induction rules as [|rule rules IH]; intros s t; [reflexivity|].
  cbn [fold_left]. now rewrite replace_char_app, IH.
Qed.

(** Case analysis on a character: one of [codes], or none of them. *)
Ltac special_or_not c codes :=
  lazymatch codes with
  | ?n :: ?rest =>
      let H := fresh "Hc" in
      destruct (N.eqb c n) eqn:H;
      [apply N.eqb_eq in H; subst c|special_or_not c rest]
  | _ =>
      repeat (cbn -[N.eqb];
              repeat match goal with
                     | H : N.eqb c _ = false |- _ => rewrite H
                     end)
  end.

Lemma escape_one (c : char) :
  _escape_sendkeys (String c EmptyString) = sent_for c.
Proof.
  unfold _escape_sendkeys, sent_for.
  special_or_not c [43; 94; 37; 126; 40; 41; 123; 125; 91; 93]%N;
    reflexivity.
Qed.

Lemma sent_for_plain (c : char) :
  char_in c "+^%~(){}[]" = false -> sent_for c = String c EmptyString.
Proof.
  unfold sent_for.
  special_or_not c [43; 94; 37; 126; 40; 41; 123; 125; 91; 93]%N;
    intros H; try discriminate H; reflexivity.
Qed.

(** X17. The replacements of [_escape_sendkeys] run one after the other, so
    the braces put in by the rules for + ^ % ~ ( ) and for the opening brace
    are escaped again by the rules for braces that follow: character by
    character the result is {{{}}c{}} for c among + ^ % ~ ( ), {{{}} for an
    opening brace, {}} for a closing brace, {[} and {]} for square brackets,
    and the character itself otherwise.  A text without these ten characters
    is sent unchanged. *)
Theorem escape_sendkeys_table (text : str) :
  _escape_sendkeys text = sent_for_all text
  /\ (no_special text = true -> _escape_sendkeys text = text).
Proof.
  assert (Hall : forall t, _escape_sendkeys t = sent_for_all t).
  { induction t as [|c t IH]; [reflexivity|].
    change (String c t) with (String c EmptyString ++ t)%str.
    unfold _escape_sendkeys in *. rewrite replace_all_app.
    fold (_escape_sendkeys (String c EmptyString)).
    now rewrite escape_one, IH. }
  split; [apply Hall|].
  rewrite Hall. induction text as [|c text IH]; [reflexivity|].
  cbn [no_special sent_for_all]. rewrite andb_true_iff, negb_true_iff.
  intros [Hc Hrest]. now rewrite (sent_for_plain c Hc), IH.
Qed.

Ltac run_typer :=
  unfold client_type_text, _check_sidecar_availability, type_endpoint,
    automation_type_text, run_powershell, health_check, json_object,
    has_text, text_of, delay_of, first_fifty,
    typer_print, try_except, bind, read, modify, ret, raise; cbn.

Lemma is_str_success (v : option json_value) (s : str) :
  is_str v s = true <-> v = Some (JStr s).
Proof.
  unfold is_str. destruct v as [[| | | |t| |]|]; try (split; discriminate).
  rewrite str_eqb_eq. split; congruence.
Qed.



(** X19. The health check of the client against the [/health] endpoint of
    the service: the client is available exactly when the service found
    PowerShell, and prints nothing; when the request raises, the client is
    not available and prints one line, and when that line cannot be printed
    the exception of the console leaves the check. *)
Theorem availability_round_trip (stdout : option exn) (timestamp : Q)
    (server : automation) (w : typer) (e : exn) :
  (exists reply,
     health_check timestamp server = (server, Returned reply)
     /\ _check_sidecar_availability stdout reply w
        = (w, Returned (ps_available server)))
  /\ _check_sidecar_availability None (HttpRaise e) w
     = (mkTyper (typer_requests w) (typer_console w ++ [TCannotConnect e]),
        Returned false)
  /\ (forall closed,
        _check_sidecar_availability (Some closed) (HttpRaise e) w
        = (w, Raised closed)).
Proof.
  split; [|split; [reflexivity|reflexivity]]. eexists. split; [reflexivity|].
  run_typer. now destruct (ps_available server).
Qed.


Lemma in_list_text (items : list json_value) :
  existsb (fun v => is_str (Some v) "text") items = true
  <-> In (JStr "text") items.
Proof.
  rewrite existsb_exists. split.
  - intros [v [Hin Hv]]. apply is_str_success in Hv. congruence.
  - intros Hin. exists (JStr "text"). split; [exact Hin|reflexivity].
Qed.

(** X21. The [/type] endpoint never raises.  It answers 400 exactly when the
    body of the request is JSON and is [null], [false], a zero, a string
    without "text" in it, a list without the element "text", or an object
    without the key "text"; it then runs no command and answers "Missing text
    parameter".  A body that is not JSON, [true] and the numbers other than
    zero are answered with 500. *)
Theorem type_endpoint_missing_text (ps : ps_outcome) (request : json_body)
    (server : automation) :
  exists status body,
    snd (type_endpoint ps request server) = Returned (HttpReply status body)
    /\ (status = 400 <->
        match request with
        | NotJson _ => False
        | Json JNull => True
        | Json (JBool b) => b = false
        | Json (JInt z) => z = 0
        | Json (JFloat q) => (q == 0)%Q
        | Json (JStr s) => contains "text" s = false
        | Json (JList items) => ~ In (JStr "text") items
        | Json (JDict fields) => dict_get "text" fields = None
        end)
    /\ (status = 400 ->
        fst (type_endpoint ps request server) = server
        /\ body = Json (JDict [("error", JStr "Missing text parameter")])).
Proof.
  assert (H500 : forall P : Prop, ~ P -> (500 = 400 <-> P))
    by (intros P HP; split; [discriminate|intros H; now elim HP]).
  assert (H400 : forall P : Prop, P -> (400 = 400 <-> P))
    by (intros P HP; split; [intros _; exact HP|reflexivity]).
  assert (Hno : forall P : Prop, 500 = 400 -> P) by discriminate.
  assert (Hyes : forall w : automation,
             400 = 400 ->
             w = w /\ Json (JDict [("error", JStr "Missing text parameter")])
                      = Json (JDict [("error", JStr "Missing text parameter")]))
    by (intros; split; reflexivity).
  destruct request as [e|[|b|z|q|s|items|fields]]; run_typer.
  - do 2 eexists. split; [reflexivity|]. split; [apply H500; tauto|apply Hno].
  - do 2 eexists. split; [reflexivity|]. split; [apply H400; exact I|apply Hyes].
  - destruct b; cbn; do 2 eexists; (split; [reflexivity|]).
    + split; [apply H500; discriminate|apply Hno].
    + split; [apply H400; reflexivity|apply Hyes].
  - destruct (z =? 0) eqn:Hz; cbn; do 2 eexists; (split; [reflexivity|]).
    + split; [apply H400; now apply Z.eqb_eq|apply Hyes].
    + split; [apply H500; now apply Z.eqb_neq|apply Hno].
  - destruct (Qeq_bool q 0) eqn:Hq; cbn; do 2 eexists; (split; [reflexivity|]).
    + split; [apply H400; now apply Qeq_bool_iff|apply Hyes].
    + split; [apply H500|apply Hno].
      intros H. apply Qeq_bool_iff in H. congruence.
  - destruct s as [|c s]; cbn [str_eqb negb].
    + cbn. do 2 eexists. split; [reflexivity|].
      split; [apply H400; reflexivity|apply Hyes].
    + destruct (contains "text" (String c s)) eqn:Hc; cbn;
        do 2 eexists; (split; [reflexivity|]).
      * split; [apply H500; discriminate|apply Hno].
      * split; [apply H400; reflexivity|apply Hyes].
  - destruct (existsb (fun v => is_str (Some v) "text") items) eqn:Hin.
    + destruct items as [|v items]; [discriminate Hin|]. cbn.
      cbn in Hin. rewrite Hin. cbn.
      do 2 eexists. split; [reflexivity|]. split; [apply H500|apply Hno].
      intros H. apply H. apply (in_list_text (v :: items)). exact Hin.
    + assert (Hout : ~ In (JStr "text") items).
      { intros H. apply in_list_text in H. congruence. }
      destruct items as [|v items]; cbn.
      * do 2 eexists. split; [reflexivity|].
        split; [apply H400; exact Hout|apply Hyes].
      * cbn in Hin. rewrite Hin. cbn.
        do 2 eexists. split; [reflexivity|].
        split; [apply H400; exact Hout|apply Hyes].
  - destruct (dict_get "text" fields) as [text|] eqn:Hg.
    + destruct fields as [|[k v] fields]; [discriminate Hg|]. cbn. clear Hg.
      assert (Hs : forall status body (w : automation),
                 status <> 400 ->
                 exists status0 body0,
                   Returned (HttpReply status body)
                   = Returned (HttpReply status0 body0)
                   /\ (status0 = 400 <-> Some text = None)
                   /\ (status0 = 400 ->
                       w = server
                       /\ body0 = Json (JDict [("error",
                                                JStr "Missing text parameter")]))).
      { intros status body w Hs. exists status, body.
        split; [reflexivity|]. split; [split; [tauto|discriminate]|tauto]. }
      destruct text; cbn; try (apply Hs; discriminate).
      * destruct (ps_available server); cbn; [|apply Hs; discriminate].
        destruct ps as [e|rc [|msg|e]]; cbn; try destruct (rc =? 0); cbn;
          apply Hs; discriminate.
      * destruct (ps_available server); cbn; apply Hs; discriminate.
    + destruct fields as [|[k v] fields]; cbn; do 2 eexists;
        (split; [reflexivity|]);
        (split; [apply H400; reflexivity|apply Hyes]).
Qed.

(** ** VAD parameters *)

Lemma entry_if_nil (b : bool) (key : str) (v : pyval) :
  entry_if b key v = [] <-> b = false.
Proof. destruct b; cbn; split; congruence. Qed.

(** X22. No VAD parameters are passed to the client exactly when every VAD
    option has its default value: threshold 0.5, no negative threshold, 250,
    30, 2000, 400, 64, and timestamps in samples. *)
Theorem vad_defaults_not_sent (v : vad_args) :
  vad_params_to_use v = None <->
  (vad_threshold v == 1 # 2)%Q
  /\ vad_neg_threshold v = None
  /\ vad_min_speech_duration_ms v = 250
  /\ vad_max_speech_duration_s v = 30
  /\ vad_min_silence_duration_ms v = 2000
  /\ vad_speech_pad_ms v = 400
  /\ vad_window_size_samples v = 64
  /\ vad_return_seconds v = false.
Proof.
  assert (Hnone : vad_params_to_use v = None <-> vad_parameters v = []).
  { unfold vad_params_to_use. destruct (vad_parameters v); split; congruence. }
  rewrite Hnone. unfold vad_parameters.
  rewrite <- Qeq_bool_iff, <- !Z.eqb_eq.
  destruct (Qeq_bool (vad_threshold v) (1 # 2)); cbn;
    [|split; [discriminate|intros [H _]; discriminate H]].
  destruct (vad_neg_threshold v); cbn;
    [split; [discriminate|intros [_ [H _]]; discriminate H]|].
  destruct (vad_min_speech_duration_ms v =? 250); cbn;
    [|split; [discriminate|intros [_ [_ [H _]]]; discriminate H]].
  destruct (vad_max_speech_duration_s v =? 30); cbn;
    [|split; [discriminate|intros [_ [_ [_ [H _]]]]; discriminate H]].
  destruct (vad_min_silence_duration_ms v =? 2000); cbn;
    [|split; [discriminate|intros [_ [_ [_ [_ [H _]]]]]; discriminate H]].
  destruct (vad_speech_pad_ms v =? 400); cbn;
    [|split; [discriminate|intros [_ [_ [_ [_ [_ [H _]]]]]]; discriminate H]].
  destruct (vad_window_size_samples v =? 64); cbn;
    [|split; [discriminate|intros [_ [_ [_ [_ [_ [_ [H _]]]]]]]; discriminate H]].
  destruct (vad_return_seconds v); cbn;
    [split; [discriminate|intros [_ [_ [_ [_ [_ [_ [_ H]]]]]]]; discriminate H]|].
  tauto.
Qed.

(** ** The extracted statement and the trigger word *)

Lemma all_chars_app (p : char -> bool) (s t : str) :
  all_chars p (s ++ t) = all_chars p s && all_chars p t.
Proof.
  induction s as [|c s IH]; [reflexivity|]. cbn. now rewrite IH, andb_assoc.
Qed.

Lemma lstrip_by_spec (p : char -> bool) (s : str) :
  left_trimmed_of p s (lstrip_by p s).
Proof.
  induction s as [|c s [pre [Hs [Hpre Hr]]]].
  - exists EmptyString. repeat split.
  - cbn. destruct (p c) eqn:Hc.
    + exists (String c pre). cbn. rewrite Hc, Hpre, <- Hs. repeat split.
      exact Hr.
    + exists EmptyString. repeat split. exact Hc.
Qed.

Lemma rstrip_by_spec (p : char -> bool) (s : str) :
  exists post,
    s = rstrip_by p s ++ post
    /\ all_chars p post = true /\ ends_with p (rstrip_by p s) = false.
Proof.
  induction s as [|c s [post [Hs [Hpost Hr]]]].
  - exists EmptyString. repeat split.
  - cbn [rstrip_by]. destruct (rstrip_by p s) as [|d r] eqn:Hstrip.
    + cbn in Hs. subst post. destruct (p c) eqn:Hc.
      * exists (String c s). cbn. rewrite Hc, Hpost. repeat split.
      * exists s. cbn. repeat split; assumption.
    + exists post. cbn [append]. rewrite Hs at 1. repeat split; assumption.
Qed.

Lemma rstrip_by_starts (p : char -> bool) (s : str) :
  starts_with p s = false -> starts_with p (rstrip_by p s) = false.
Proof.
  destruct s as [|c s]; [trivial|]. cbn. intros Hc.
  destruct (rstrip_by p s); [rewrite Hc|]; cbn; trivial.
Qed.

Lemma strip_spec (s : str) : trimmed_of is_space s (strip s).
Proof.
  unfold strip.
  destruct (lstrip_by_spec is_space s) as [pre [Hs [Hpre Hstart]]].
  destruct (rstrip_by_spec is_space (lstrip_by is_space s))
    as [post [Hl [Hpost Hend]]].
  exists pre, post. split; [now rewrite <- Hl|].
  repeat split; trivial. now apply rstrip_by_starts.
Qed.

Lemma cleaned_spec (tail : str) :
  cleaned tail (lstrip_chars " ,.!?" (strip tail)).
Proof.
  exists (strip tail). split; [apply strip_spec|apply lstrip_by_spec].
Qed.

Lemma all_chars_ends (p : char -> bool) (s : str) :
  all_chars p s = true -> s <> "" -> ends_with p s = true.
Proof.
  induction s as [|c s IH]; [congruence|]. cbn [all_chars].
  rewrite andb_true_iff. intros [Hc Hs] _.
  destruct s as [|d s]; [exact Hc|]. apply IH; [exact Hs|discriminate].
Qed.

Lemma ends_with_tail (p : char -> bool) (c : char) (s : str) :
  ends_with p (String c s) = false -> ends_with p s = false.
Proof. destruct s; [reflexivity|trivial]. Qed.

(** Two texts that end on no character of [p] and differ by characters of
    [p] at the end are the same. *)
Lemma right_trim_unique (p : char -> bool) (r r' post post' : str) :
  r ++ post = r' ++ post' ->
  all_chars p post = true -> all_chars p post' = true ->
  ends_with p r = false -> ends_with p r' = false ->
  r = r'.
Proof.
  revert r'. induction r as [|c r IH]; intros [|c' r'] Heq Hpost Hpost' Hr Hr';
    trivial.
  - cbn [append] in Heq. rewrite Heq in Hpost.
    change (String c' r' ++ post') with (String c' (r' ++ post')) in Hpost.
    change (String c' (r' ++ post')) with ((String c' r') ++ post') in Hpost.
    rewrite all_chars_app in Hpost. apply andb_true_iff in Hpost as [Hall _].
    rewrite (all_chars_ends p _ Hall) in Hr' by discriminate. discriminate.
  - cbn [append] in Heq. rewrite <- Heq in Hpost'.
    change (String c (r ++ post)) with ((String c r) ++ post) in Hpost'.
    rewrite all_chars_app in Hpost'. apply andb_true_iff in Hpost' as [Hall _].
    rewrite (all_chars_ends p _ Hall) in Hr by discriminate. discriminate.
  - cbn [append] in Heq. injection Heq as -> Heq. f_equal.
    apply IH; trivial; eapply ends_with_tail; eassumption.
Qed.

Lemma left_trim_unique (p : char -> bool) (pre pre' r r' : str) :
  pre ++ r = pre' ++ r' ->
  all_chars p pre = true -> all_chars p pre' = true ->
  starts_with p r = false -> starts_with p r' = false ->
  r = r'.
Proof.
  revert pre'. induction pre as [|c pre IH]; intros [|c' pre'] Heq Hpre Hpre' Hr Hr'.
  - exact Heq.
  - cbn in Heq, Hpre'. apply andb_true_iff in Hpre' as [Hc _].
    subst r. cbn in Hr. congruence.
  - cbn in Heq, Hpre. apply andb_true_iff in Hpre as [Hc _].
    subst r'. cbn in Hr'. congruence.
  - cbn in Heq, Hpre, Hpre'. injection Heq as -> Heq.
    apply andb_true_iff in Hpre as [_ Hpre].
    apply andb_true_iff in Hpre' as [_ Hpre'].
    now apply (IH pre').
Qed.

Lemma trimmed_of_unique (p : char -> bool) (s r r' : str) :
  trimmed_of p s r -> trimmed_of p s r' -> r = r'.
Proof.
  intros [pre [post [Hs [Hpre [Hpost [Hstart Hend]]]]]]
         [pre' [post' [Hs' [Hpre' [Hpost' [Hstart' Hend']]]]]].
  destruct r as [|c r]; destruct r' as [|c' r']; trivial.
  - (* s is all p, and r' is part of it *)
    exfalso. cbn [append] in Hs.
    assert (Hall : all_chars p s = true)
      by (rewrite Hs, all_chars_app, Hpre, Hpost; reflexivity).
    rewrite Hs', !all_chars_app in Hall.
    apply andb_true_iff in Hall as [_ Hall].
    apply andb_true_iff in Hall as [Hall _].
    cbn in Hall, Hstart'. apply andb_true_iff in Hall as [Hc _]. congruence.
  - exfalso. cbn [append] in Hs'.
    assert (Hall : all_chars p s = true)
      by (rewrite Hs', all_chars_app, Hpre', Hpost'; reflexivity).
    rewrite Hs, !all_chars_app in Hall.
    apply andb_true_iff in Hall as [_ Hall].
    apply andb_true_iff in Hall as [Hall _].
    cbn in Hall, Hstart. apply andb_true_iff in Hall as [Hc _]. congruence.
  - assert (Hrest : String c r ++ post = String c' r' ++ post').
    { apply (left_trim_unique p pre pre'); trivial. congruence. }
    now apply (right_trim_unique p _ _ post post').
Qed.

Lemma left_trimmed_of_unique (p : char -> bool) (s r r' : str) :
  left_trimmed_of p s r -> left_trimmed_of p s r' -> r = r'.
Proof.
  intros [pre [Hs [Hpre Hstart]]] [pre' [Hs' [Hpre' Hstart']]].
  apply (left_trim_unique p pre pre'); trivial. congruence.
Qed.

(** The description [cleaned] determines the statement. *)
Lemma cleaned_unique (tail r r' : str) :
  cleaned tail r -> cleaned tail r' -> r = r'.
Proof.
  intros [core [Hcore Hr]] [core' [Hcore' Hr']].
  rewrite (trimmed_of_unique _ _ _ _ Hcore Hcore') in Hr.
  exact (left_trimmed_of_unique _ _ _ _ Hr Hr').
Qed.

Lemma prefix_length (needle hay : str) :
  prefix needle hay = true -> (str_length needle <= str_length hay)%nat.
Proof.
  revert hay. induction needle as [|c needle IH]; intros [|d hay]; cbn;
    try lia; try discriminate.
  rewrite andb_true_iff. intros [_ H]. apply IH in H. lia.
Qed.

Lemma prefix_app_r (needle hay post : str) :
  prefix needle hay = true -> prefix needle (hay ++ post) = true.
Proof.
  revert hay. induction needle as [|c needle IH]; intros [|d hay]; cbn;
    try discriminate; trivial.
  rewrite !andb_true_iff. intros [Hc H]. split; [exact Hc|now apply IH].
Qed.

Lemma occurs_at_fits (needle hay : str) (p : nat) :
  occurs_at needle hay p ->
  (p + str_length needle <= str_length hay)%nat.
Proof.
  revert p. induction hay as [|c hay IH]; intros p Hp.
  - apply occurs_at_empty in Hp as Hp0. subst p.
    apply occurs_at_0, prefix_length in Hp. exact Hp.
  - destruct p as [|p].
    + apply occurs_at_0, prefix_length in Hp. exact Hp.
    + apply occurs_at_S, IH in Hp. cbn. lia.
Qed.

Lemma occurs_at_app_l (needle pre s : str) (q : nat) :
  occurs_at needle s q -> occurs_at needle (pre ++ s) (str_length pre + q).
Proof.
  intros H. induction pre as [|c pre IH]; [exact H|].
  cbn. now apply occurs_at_S.
Qed.

Lemma occurs_at_app_r (needle s post : str) (q : nat) :
  occurs_at needle s q -> occurs_at needle (s ++ post) q.
Proof.
  revert q. induction s as [|c s IH]; intros q Hq.
  - apply occurs_at_empty in Hq as Hq0. subst q.
    apply occurs_at_0. apply occurs_at_0 in Hq.
    now apply (prefix_app_r needle EmptyString post).
  - destruct q as [|q].
    + apply occurs_at_0. apply occurs_at_0 in Hq.
      now apply (prefix_app_r needle (String c s) post).
    + cbn. apply occurs_at_S. apply occurs_at_S in Hq. now apply IH.
Qed.

Lemma occurs_at_drop (needle s : str) (n q : nat) :
  (n <= str_length s)%nat ->
  occurs_at needle (drop n s) q -> occurs_at needle s (n + q).
Proof.
  revert s. induction n as [|n IH]; intros s Hn Hq.
  - destruct s; exact Hq.
  - destruct s as [|c s]; [cbn in Hn; lia|].
    cbn [drop] in Hq. cbn. apply occurs_at_S. apply IH; [cbn in Hn; lia|exact Hq].
Qed.

Lemma join_skipn_suffix (sep : str) (parts : list str) (n : nat) :
  exists pre, join sep parts = (pre ++ join sep (skipn n parts))%str.
Proof.
  revert parts. induction n as [|n IH]; intros parts;
    [now exists EmptyString|].
  destruct parts as [|x rest]; [now exists EmptyString|].
  cbn [skipn]. destruct (IH rest) as [pre Hpre].
  destruct rest as [|y rest].
  - exists x. cbn. destruct n; cbn; now rewrite append_empty_r.
  - exists (x ++ sep ++ pre)%str.
    change (join sep (x :: y :: rest))
      with (x ++ sep ++ join sep (y :: rest))%str.
    now rewrite Hpre, !append_assoc.
Qed.

Lemma all_chars_drop (p : char -> bool) (n : nat) (s : str) :
  all_chars p s = true -> all_chars p (drop n s) = true.
Proof.
  revert s. induction n as [|n IH]; intros s; [now destruct s|].
  destruct s as [|c s]; [trivial|]. cbn. rewrite andb_true_iff.
  intros [_ H]. now apply IH.
Qed.

Section PlainFacts.

Context {ucd : Unicode}.

Lemma lower_plain (s : str) :
  plain_text s = true -> forall before, lower_from before s = lower_chars s.
Proof.
  induction s as [|c s IH]; [reflexivity|]. cbn [plain_text all_chars].
  rewrite andb_true_iff. unfold plain at 1.
  rewrite andb_true_iff, negb_true_iff, Nat.eqb_eq.
  intros [[Hsigma Hone] Hs] before. cbn [lower_from lower_chars].
  rewrite Hsigma, (IH Hs). unfold lower_char.
  destruct (lower_full c) as [|d [|d' rest]]; try discriminate Hone.
  reflexivity.
Qed.

Lemma lower_of_plain (s : str) :
  plain_text s = true -> lower s = lower_chars s.
Proof. intros H. apply (lower_plain s H). Qed.

Lemma lower_chars_length (s : str) :
  str_length (lower_chars s) = str_length s.
Proof. induction s as [|c s IH]; cbn; congruence. Qed.

Lemma lower_chars_app (s t : str) :
  lower_chars (s ++ t) = lower_chars s ++ lower_chars t.
Proof. induction s as [|c s IH]; cbn; congruence. Qed.

Lemma lower_chars_drop (n : nat) (s : str) :
  lower_chars (drop n s) = drop n (lower_chars s).
Proof.
  revert s. induction n as [|n IH]; intros s; [now destruct s|].
  destruct s as [|c s]; [reflexivity|]. cbn. apply IH.
Qed.

Lemma lower_chars_substring (p n : nat) (s : str) :
  lower_chars (substring p n s) = substring p n (lower_chars s).
Proof.
  revert p n. induction s as [|c s IH]; intros [|p] [|n]; cbn;
    try reflexivity; try apply IH. now rewrite IH.
Qed.

Lemma plain_substring (p n : nat) (s : str) :
  plain_text s = true -> plain_text (substring p n s) = true.
Proof.
  unfold plain_text. revert p n.
  induction s as [|c s IH]; intros [|p] [|n]; cbn; trivial;
    rewrite andb_true_iff; intros [Hc Hs]; try (now apply IH).
  now rewrite Hc, IH.
Qed.

Lemma matches_at_occurs (word text : str) (p : nat) :
  plain_text word = true -> plain_text text = true ->
  matches_at word text p <-> occurs_at (lower word) (lower text) p.
Proof.
  intros Hw Ht. unfold matches_at, occurs_at.
  rewrite (lower_of_plain _ (plain_substring p (str_length word) text Ht)).
  rewrite (lower_of_plain word Hw), (lower_of_plain text Ht).
  now rewrite !lower_chars_length, lower_chars_substring.
Qed.

Lemma ascii_plain (s : str) : is_ascii s = true -> plain_text s = true.
Proof.
  unfold is_ascii, plain_text. induction s as [|c s IH]; [reflexivity|].
  cbn [all_chars]. rewrite !andb_true_iff. intros [Hc Hs].
  split; [|now apply IH]. unfold plain, lower_full. rewrite Hc.
  apply N.ltb_lt in Hc. apply andb_true_iff. split; [|reflexivity].
  apply negb_true_iff, N.eqb_neq. lia.
Qed.

(** X26. Statement extraction on plain text, that is when every code point
    of the trigger word and of the joined text lowers to one code point
    whatever stands around it (all of ASCII does).  If the word stands
    somewhere in the text, letter case aside, the candidate is what follows
    its last such place, white space trimmed at both ends and the leading
    characters among space, comma, period, exclamation mark and question mark
    stripped (a description that determines it, see [cleaned_unique]);
    otherwise it is the space-join of the trimmed texts of the segments
    after the trigger segment. *)
Theorem statement_after_last_match (word : str) (i : nat)
    (segments : list segment) :
  let text := all_text_of segments in
  let r := post_trigger_text word (Z.of_nat i) segments in
  plain_text word = true -> plain_text text = true ->
  (exists p,
     last_match word text p
     /\ cleaned (drop (p + str_length word) text) r)
  \/ ((forall p, ~ matches_at word text p)
      /\ r = join " " (map trimmed_text (skipn (S i) segments))).
Proof.
  cbn zeta. intros Hw Ht. unfold post_trigger_text, rfind.
  destruct (rfind_opt (lower word) (lower (all_text_of segments)))
    as [p|] eqn:Hr.
  - left. exists p.
    replace (0 <=? Z.of_nat p) with true by (symmetry; apply Z.leb_le; lia).
    rewrite Nat2Z.id, (lower_of_plain word Hw), lower_chars_length.
    apply rfind_opt_Some in Hr as [Hocc Hlast]. split; [split|].
    + now apply matches_at_occurs.
    + intros q Hq. apply Hlast. now apply matches_at_occurs.
    + apply cleaned_spec.
  - right. replace (0 <=? -1) with false by reflexivity.
    split.
    + intros p Hp. apply (rfind_opt_None _ _ Hr p). now apply matches_at_occurs.
    + now replace (Z.to_nat (Z.of_nat i + 1)) with (S i) by lia.
Qed.

(** X23. On plain text and for a plain trigger word that is not empty, the
    extracted statement never contains the trigger word, in any letter case:
    it is what follows the last occurrence, or comes from a text without
    occurrence. *)
Theorem statement_excludes_word (word : str) (i : nat)
    (segments : list segment) :
  word <> "" ->
  plain_text word = true -> plain_text (all_text_of segments) = true ->
  contains (lower word)
    (lower (post_trigger_text word (Z.of_nat i) segments)) = false.
Proof.
  intros Hword Hw Ht.
  destruct (contains _ _) eqn:Hc; [|reflexivity]. exfalso.
  apply contains_occurs in Hc as [q Hq].
  assert (Hlen : (0 < str_length (lower word))%nat).
  { rewrite (lower_of_plain word Hw), lower_chars_length.
    destruct word; [now elim Hword|cbn; lia]. }
  unfold post_trigger_text, rfind in Hq.
  set (text := all_text_of segments) in *.
  destruct (rfind_opt (lower word) (lower text)) as [p|] eqn:Hr.
  - replace (0 <=? Z.of_nat p) with true in Hq
      by (symmetry; apply Z.leb_le; lia).
    rewrite Nat2Z.id in Hq.
    apply rfind_opt_Some in Hr as [Hocc Hlast].
    apply occurs_at_fits in Hocc as Hfit.
    set (n := (p + str_length (lower word))%nat) in *.
    destruct (strip_spec (drop n text)) as [pre [post [Htail _]]].
    destruct (lstrip_by_spec (fun c => char_in c " ,.!?") (strip (drop n text)))
      as [pre' [Hcore _]].
    fold (lstrip_chars " ,.!?" (strip (drop n text))) in Hcore.
    set (r := lstrip_chars " ,.!?" (strip (drop n text))) in *.
    assert (Hplain : plain_text (drop n text) = true)
      by now apply all_chars_drop.
    rewrite Htail, Hcore in Hplain. unfold plain_text in Hplain.
    rewrite !all_chars_app, !andb_true_iff in Hplain.
    destruct Hplain as [_ [[_ Hrplain] _]].
    rewrite (lower_of_plain r Hrplain) in Hq.
    apply (occurs_at_app_l _ (lower_chars pre')) in Hq.
    rewrite <- lower_chars_app, <- Hcore in Hq.
    apply (occurs_at_app_r _ _ (lower_chars post)) in Hq.
    apply (occurs_at_app_l _ (lower_chars pre)) in Hq.
    rewrite <- !lower_chars_app, <- Htail, lower_chars_drop in Hq.
    rewrite (lower_of_plain text Ht) in Hlast, Hfit.
    apply occurs_at_drop in Hq; [|exact Hfit].
    apply Hlast in Hq. unfold n in Hq. lia.
  - replace (0 <=? -1) with false in Hq by reflexivity.
    destruct (join_skipn_suffix " " (map trimmed_text segments)
                (Z.to_nat (Z.of_nat i + 1))) as [pre Hpre].
    rewrite skipn_map in Hpre. fold (all_text_of segments) in Hpre.
    fold text in Hpre.
    set (r := join " " (map trimmed_text
                          (skipn (Z.to_nat (Z.of_nat i + 1)) segments))) in *.
    assert (Hrplain : plain_text r = true).
    { unfold plain_text in *. rewrite Hpre, all_chars_app in Ht.
      now apply andb_true_iff in Ht. }
    rewrite (lower_of_plain r Hrplain) in Hq.
    apply (occurs_at_app_l _ (lower_chars pre)) in Hq.
    rewrite <- lower_chars_app, <- Hpre, <- (lower_of_plain text Ht) in Hq.
    exact (rfind_opt_None _ _ Hr _ Hq).
Qed.

End PlainFacts.

(** ** The further properties on sample runs *)

Section FurtherRuns.

#[local] Existing Instance sample_unicode.


Lemma json_file_behind_witness :
  json_file demo_logger = Some (lstats demo_logger, json_segments demo_logger)
  /\ stats_le (lstats demo_logger) (lstats demo_logger).
Proof.
  assert (H : json_file demo_logger
              = Some (lstats demo_logger, json_segments demo_logger))
    by reflexivity.
  split; [exact H|].
  exact (proj2 (json_file_behind decimal_of_str demo_calls true true false 0
                  _ _ H)).
Defined.

Lemma json_file_current_witness :
  let l := new_logger true true false 0 in
  enable_json l = true
  /\ snd (log_segment decimal_of_str (quiet 5) demo_segment l)
     = Returned (Some demo_entry)
  /\ In (JSegment demo_entry)
       (json_segments (fst (log_segment decimal_of_str (quiet 5) demo_segment l))).
Proof.
  intros l.
  assert (H : snd (log_segment decimal_of_str (quiet 5) demo_segment l)
              = Returned (Some demo_entry)) by reflexivity.
  split; [reflexivity|]. split; [exact H|].
  exact (proj2 (json_file_current decimal_of_str (quiet 5) demo_segment l
                  demo_entry eq_refl H)).
Defined.

Lemma consumed_reachable : reachable decimal_of_str demo_args consumed.
Proof. apply reach_deliver, reach_deliver, reach_start. Qed.

Lemma output_entries_sound_witness :
  reachable decimal_of_str demo_args consumed
  /\ trigger_output consumed
     = [mkEntry (seconds 4) "hello" "world how are you"]
  /\ forall e, In e (trigger_output consumed) -> entry_ok demo_args e.
Proof.
  assert (Hr : reachable decimal_of_str demo_args consumed)
    by (apply reach_deliver, reach_deliver, reach_start).
  split; [exact Hr|]. split; [reflexivity|].
  exact (proj1 (output_entries_sound decimal_of_str demo_args consumed Hr)).
Defined.


Lemma no_trigger_words_inert_witness :
  let s := deliver decimal_of_str no_words_args (hears (seconds 1) heard)
             (initial_session no_words_args 0) in
  trigger_words no_words_args = []
  /\ reachable decimal_of_str no_words_args s
  /\ trigger s = initial_trigger_state no_words_args.
Proof.
  intros s.
  assert (Hr : reachable decimal_of_str no_words_args s)
    by (apply reach_deliver, reach_start).
  split; [reflexivity|]. split; [exact Hr|].
  exact (proj1 (no_trigger_words_inert decimal_of_str no_words_args s
                  eq_refl Hr)).
Defined.

Lemma window_stable_witness :
  let E := quiet (seconds 2) in
  let more := (heard ++ [spoken "hello again" "2.000" "2.500"])%list in
  let r := trigger_word_callback demo_args E "" (Some more) listening in
  processed demo_args E more listening
  /\ ~ finalization_due (now E) (List.length more) (trigger listening)
  /\ trigger_segment_index (trigger (fst r)) = 0
  /\ activations (fst r) = activations listening.
Proof.
  intros E more r.
  assert (Hr : reachable decimal_of_str demo_args listening)
    by (apply reach_deliver, reach_start).
  assert (Hp : processed demo_args E more listening)
    by (repeat split; discriminate).
  assert (Hn : ~ finalization_due (now E) (List.length more) (trigger listening)).
  { intros [H|[H _]]; vm_compute in H; now apply H. }
  split; [exact Hp|]. split; [exact Hn|].
  destruct (window_stable decimal_of_str demo_args E "" more listening
              Hr Hp eq_refl Hn) as [_ [_ [_ [Hi [_ [_ [Ha _]]]]]]].
  split; [exact Hi | exact Ha].
Defined.

Lemma cooldown_after_save_witness :
  let E := quiet (seconds 4) in
  let E2 := quiet (seconds 5) in
  let more := (heard ++ [spoken "hello again" "4.000" "5.000"])%list in
  finalization_due (now E) (List.length heard) (trigger listening)
  /\ now E2 < now E + seconds 2
  /\ snd (trigger_word_callback demo_args E2 "" (Some more)
            (fst (trigger_word_callback demo_args E "" (Some heard) listening)))
     = Returned tt.
Proof.
  intros E E2 more.
  assert (Hr : reachable decimal_of_str demo_args listening)
    by (apply reach_deliver, reach_start).
  assert (Hp : processed demo_args E heard listening)
    by (repeat split; discriminate).
  assert (Hd : finalization_due (now E) (List.length heard) (trigger listening))
    by (right; split; vm_compute; discriminate).
  assert (Hm : meaningful "world how are you"
                 (last_saved_text (trigger listening)))
    by (repeat split; discriminate).
  assert (Hs : now E2 < now E + seconds 2) by reflexivity.
  split; [exact Hd|]. split; [exact Hs|].
  exact (f_equal snd
           (cooldown_after_save decimal_of_str demo_args E "" heard listening
              E2 "" (Some more) Hr Hp eq_refl Hd Hm eq_refl Hs)).
Defined.

Lemma consumed_never_rescanned_witness :
  let E := quiet (seconds 4) in
  let E2 := quiet (seconds 7) in
  let revised := [spoken "hello word" "0.000" "1.000";
                  spoken "hello are you" "1.000" "2.000"] in
  finalization_due (now E) (List.length heard) (trigger listening)
  /\ (List.length revised <= List.length heard)%nat
  /\ snd (trigger_word_callback demo_args E2 "" (Some revised)
            (fst (trigger_word_callback demo_args E "" (Some heard) listening)))
     = Returned tt.
Proof.
  intros E E2 revised.
  assert (Hr : reachable decimal_of_str demo_args listening)
    by (apply reach_deliver, reach_start).
  assert (Hp : processed demo_args E heard listening)
    by (repeat split; discriminate).
  assert (Hd : finalization_due (now E) (List.length heard) (trigger listening))
    by (right; split; vm_compute; discriminate).
  assert (Hl : (List.length revised <= List.length heard)%nat)
    by (apply le_n).
  split; [exact Hd|]. split; [exact Hl|].
  exact (f_equal snd
           (consumed_never_rescanned decimal_of_str demo_args E "" heard
              listening E2 "" revised Hr Hp eq_refl Hd eq_refl Hl)).
Defined.

Lemma completed_segments_recorded_witness :
  let s := initial_session demo_args 0 in
  let E := quiet (seconds 1) in
  has_logger s = true
  /\ snd (dispatch decimal_of_str demo_args E "" (Some heard) None s)
     = Returned tt
  /\ key_in (key_of demo_segment)
       (recorded (fst (combined_callback decimal_of_str demo_args E ""
                         (Some (demo_segment :: heard)) None s))) = true.
Proof.
  intros s E. split; [reflexivity|]. split; [reflexivity|].
  exact (completed_segments_recorded decimal_of_str demo_args E ""
           (demo_segment :: heard) s demo_segment eq_refl eq_refl
           (or_introl eq_refl) eq_refl).
Defined.

Lemma partial_segments_ignored_witness :
  let s := initial_session demo_args 0 in
  (forall seg, In seg [partial_segment] ->
               get (seg_completed seg) false = false)
  /\ segment_books
       (fst (combined_callback decimal_of_str demo_args (quiet (seconds 1)) ""
               (Some [partial_segment]) None s))
     = segment_books s.
Proof.
  intros s.
  assert (H : forall seg, In seg [partial_segment] ->
                          get (seg_completed seg) false = false).
  { intros seg [<-|[]]. reflexivity. }
  split; [exact H|].
  exact (partial_segments_ignored decimal_of_str demo_args (quiet (seconds 1))
           "" [partial_segment] s H).
Defined.

Lemma redelivery_counts_once_witness :
  let s := initial_session demo_args 0 in
  let s1 := fst (combined_callback decimal_of_str demo_args (quiet (seconds 1))
                   "" (Some heard) None s) in
  has_logger s = true
  /\ snd (dispatch decimal_of_str demo_args (quiet (seconds 1)) ""
            (Some heard) None s) = Returned tt
  /\ segment_books
       (fst (combined_callback decimal_of_str demo_args (quiet (seconds 2))
               "" (Some heard) None s1))
     = segment_books s1.
Proof.
  intros s s1. split; [reflexivity|]. split; [reflexivity|].
  exact (redelivery_counts_once decimal_of_str demo_args (quiet (seconds 1))
           (quiet (seconds 2)) "" "" heard s eq_refl eq_refl).
Defined.

Lemma none_segments_contained_witness :
  let s := initial_session demo_args 0 in
  let E := quiet (seconds 1) in
  text_write E = Written
  /\ snd (combined_callback decimal_of_str demo_args E "" None None s)
     = Returned tt.
Proof.
  intros s E. split; [reflexivity|].
  exact (proj1 (none_segments_contained decimal_of_str demo_args E "" s
                  eq_refl)).
Defined.

Lemma errors_contained_witness :
  let s := initial_session demo_args 0 in
  let E := mkEnv (seconds 1)
             (Refused (mkExn "OSError" "critical: disk full"))
             Written Written None false in
  text_write E = Written
  /\ console_write E = None
  /\ (exists e, snd (dispatch decimal_of_str demo_args E "" (Some heard)
                       None s) = Raised e)
  /\ snd (combined_callback decimal_of_str demo_args E "" (Some heard) None s)
     = Returned tt.
Proof.
  intros s E. split; [reflexivity|]. split; [reflexivity|].
  split; [eexists; reflexivity|].
  exact (proj1 (errors_contained decimal_of_str demo_args E "" (Some heard)
                  None s eq_refl eq_refl)).
Defined.

Lemma escaped_from_handler_witness :
  let denied := mkExn "PermissionError" "[Errno 13] Permission denied" in
  let E := mkEnv (seconds 1) Written (Refused denied) Written None false in
  let s := initial_session demo_args 0 in
  snd (combined_callback decimal_of_str demo_args E "" (Some heard) None s)
  = Raised denied
  /\ exists e0,
       snd (dispatch decimal_of_str demo_args E "" (Some heard) None s)
       = Raised e0.
Proof.
  intros denied E s. split; [reflexivity|].
  exact (proj1 (escaped_from_handler decimal_of_str demo_args E ""
                  (Some heard) None s denied eq_refl)).
Defined.

Lemma statement_after_last_match_witness :
  let segments := [spoken "hello hello there" "0.000" "2.000"] in
  plain_text "hello" = true
  /\ plain_text (all_text_of segments) = true
  /\ post_trigger_text "hello" 0 segments = "there"
  /\ ((exists p,
         last_match "hello" (all_text_of segments) p
         /\ cleaned (drop (p + str_length "hello") (all_text_of segments))
              (post_trigger_text "hello" (Z.of_nat 0) segments))
      \/ ((forall p, ~ matches_at "hello" (all_text_of segments) p)
          /\ post_trigger_text "hello" (Z.of_nat 0) segments
             = join " " (map trimmed_text (skipn 1 segments)))).
Proof.
  intros segments. split; [reflexivity|]. split; [reflexivity|].
  split; [reflexivity|].
  exact (statement_after_last_match "hello" 0 segments eq_refl eq_refl).
Defined.

Lemma statement_excludes_word_witness :
  "Hello" <> ""
  /\ plain_text "Hello" = true
  /\ plain_text (all_text_of heard) = true
  /\ contains (lower "Hello")
       (lower (post_trigger_text "Hello" (Z.of_nat 0) heard)) = false.
Proof.
  assert (H : "Hello" <> "") by discriminate.
  split; [exact H|]. split; [reflexivity|]. split; [reflexivity|].
  exact (statement_excludes_word "Hello" 0 heard H eq_refl eq_refl).
Defined.

End FurtherRuns.

Lemma escape_sendkeys_table_witness :
  no_special "hello world" = true
  /\ _escape_sendkeys "hello world" = "hello world".
Proof.
  split; [reflexivity|].
  exact (proj2 (escape_sendkeys_table "hello world") eq_refl).
Defined.
